(** * FitSNAP3 linear fit: assembly of the weighted linear system and its
      error metrics (fitsnap3/linearfit.py)

    A shallow embedding of [linearfit.py].  numpy arrays are nested lists
    (one list level per axis, row-major), the scalar type of an array is a
    parameter of the assembling functions, and the arrays that the code
    can write to in place (the weight vectors) live in an explicit store,
    so that two names of one array are two copies of one location.

    Conventions of the embedding:
    - an array is rectangular and its inner axes have the extents of the
      data model; the length of axis 0 is what the functions check, with
      the broadcasting of numpy for an axis of length 1;
    - the order in which a reduction adds its terms is open: [np.sum]
      follows a summation plan and [@] a dot product that are parameters
      of the model ([Reduction]), and a theorem that does not name a
      plan holds for every plan;
    - the entries of [AtomTypes] are integer arrays;
    - arrays that no function writes to (descriptors, energies, forces,
      stresses, volumes) are values; the three weight arrays and every
      weight vector of a linear system are locations of the store. *)

From Stdlib Require Import String Ascii.
From Stdlib Require Import ZArith Bool Lia Arith Floats List Permutation.
Import ListNotations.

Set Implicit Arguments.

(** ** Scalars *)

(** The arithmetic that the assembling functions use on array elements.
    numpy is generic in the element type in the same way. *)
Class Num (F : Type) := {
  zero : F;
  one : F;
  add : F -> F -> F;
  sub : F -> F -> F;
  mul : F -> F -> F;
  div : F -> F -> F;
  of_int : Z -> F
}.

(** What the error metrics need on top: absolute value, square root, the
    two comparisons of the code ([w[i] > 0.0], [count_nonzero]). *)
Class NumOrd (F : Type) {N : Num F} := {
  absv : F -> F;
  sqrtv : F -> F;
  ltb : F -> F -> bool;
  eqb : F -> F -> bool
}.
Arguments NumOrd F {N}.

(** *** float64, the element type of the arrays at run time *)

Definition float_of_Z (z : Z) : float :=
  SF2Prim (binary_normalize prec emax z 0 false).

#[export] Instance float_Num : Num float := {
  zero := 0%float;
  one := 1%float;
  add := PrimFloat.add;
  sub := PrimFloat.sub;
  mul := PrimFloat.mul;
  div := PrimFloat.div;
  of_int := float_of_Z
}.

#[export] Instance float_NumOrd : NumOrd float := {
  absv := PrimFloat.abs;
  sqrtv := PrimFloat.sqrt;
  ltb := PrimFloat.ltb;
  eqb := PrimFloat.eqb
}.

(** ** Failure *)

(** A Python exception.  [ValueError] carries the message of an explicit
    [raise]; [LibError] stands for an exception raised by numpy, pandas
    or the interpreter (an index out of bounds, shapes that do not fit, an
    empty list given to [np.stack] or [np.concatenate], a missing key, a
    tuple of the wrong length). *)
Inductive exn : Type :=
| ValueError (msg : string)
| LibError.

Inductive result (A : Type) : Type :=
| Ok (a : A)
| Err (e : exn).
Arguments Err {A} e.

Definition rbind {A B} (r : result A) (k : A -> result B) : result B :=
  match r with
  | Ok a => k a
  | Err e => Err e
  end.

Fixpoint rmapM {A B} (f : A -> result B) (l : list A) : result (list B) :=
  match l with
  | [] => Ok []
  | x :: r =>
      rbind (f x) (fun y => rbind (rmapM f r) (fun ys => Ok (y :: ys)))
  end.

Declare Scope res_scope.
Delimit Scope res_scope with res.
Notation "x <- r ;; k" := (rbind r (fun x => k))
  (at level 61, r at next level, right associativity) : res_scope.

(** ** Arrays *)

(** [zip] of Python: stops at the shorter list. *)
Fixpoint map2 {A B C} (f : A -> B -> C) (xs : list A) (ys : list B) : list C :=
  match xs, ys with
  | x :: xs', y :: ys' => f x y :: map2 f xs' ys'
  | _, _ => []
  end.

(** An elementwise operation of numpy on axis 0 of two arrays: equal
    lengths pair up, an axis of length 1 is stretched over the other
    array, any other pair of lengths raises. *)
Definition bcast2 {A B C} (f : A -> B -> C) (xs : list A) (ys : list B)
  : result (list C) :=
  if Nat.eqb (length xs) (length ys) then Ok (map2 f xs ys)
  else match xs, ys with
       | [x], _ => Ok (map (f x) ys)
       | _, [y] => Ok (map (fun x => f x y) xs)
       | _, _ => Err LibError
       end.

(** The same when the operation on the elements can itself raise. *)
Definition bcast2M {A B C} (f : A -> B -> result C) (xs : list A)
  (ys : list B) : result (list C) :=
  rbind (bcast2 f xs ys) (rmapM (fun r => r)).

(** [np.concatenate] of a Python list of arrays along axis 0: the list
    must hold at least one array. *)
Definition np_concatenate {A} (ls : list (list A)) : result (list A) :=
  match ls with
  | [] => Err LibError
  | _ => Ok (concat ls)
  end.

(** [np.repeat(v, k)]: every element [k] times, in place. *)
Definition np_repeat {A} (v : list A) (k : nat) : list A :=
  flat_map (fun x => repeat x k) v.

(** [v.reshape(n)] of an array with [length v] elements. *)
Definition reshape1 {A} (v : list A) (n : nat) : result (list A) :=
  if Nat.eqb (length v) n then Ok v else Err LibError.

(** [v[i]] on axis 0 for a non-negative index. *)
Definition getitem {A} (v : list A) (i : nat) : result A :=
  match nth_error v i with
  | Some x => Ok x
  | None => Err LibError
  end.

(** ** Reductions *)

(** numpy does not fix the order in which [np.sum] adds the elements of
    an array: short arrays are added from the first element on, longer
    ones in partial sums over strided and halved blocks that are added
    up afterwards.  A summation plan describes one such order: [Seq]
    adds the elements from the first one on, [Split first a b] adds the
    elements at the positions that [first] selects by plan [a], the
    others by plan [b], and then the two sums. *)
Inductive plan : Type :=
| Seq
| Split (first : nat -> bool) (a b : plan).

(** What the run-time library decides: the plan that [np.sum] follows on
    an array of a given length, and the dot product that [@] computes
    for a row of the matrix and the vector (BLAS, whose rounding is not
    that of a sum of rounded products). *)
Class Reduction (F : Type) := {
  sum_plan : nat -> plan;
  dot : list F -> list F -> F
}.

(** The order that evaluates the examples of this file on float64:
    everything from left to right. *)
#[export] Instance float_Reduction : Reduction float := {
  sum_plan := fun _ => Seq;
  dot := fun r x =>
           fold_left PrimFloat.add (map2 PrimFloat.mul r x) 0%float
}.

Section Assemble.
Context {F : Type} {NF : Num F} {RF : Reduction F}.

(** The elements of [v] added up by plan [p]; a side of a split that
    gets no element adds nothing. *)
Fixpoint sum_by (p : plan) (v : list F) : F :=
  match p with
  | Seq =>
      match v with
      | [] => zero
      | x :: r => fold_left add r x
      end
  | Split first a b =>
      let iv := combine (seq 0 (length v)) v in
      let v1 := map snd (filter (fun ix => first (fst ix)) iv) in
      let v2 := map snd (filter (fun ix => negb (first (fst ix))) iv) in
      match v1, v2 with
      | [], _ => sum_by b v2
      | _, [] => sum_by a v1
      | _, _ => add (sum_by a v1) (sum_by b v2)
      end
  end.

(** [np.sum] of a 1-D array: zero for the empty array, else the elements
    added up by the plan for its length. *)
Definition np_sum (v : list F) : F := sum_by (sum_plan (length v)) v.

(** Row [i] of [np.eye(n)] for a numpy index [i]: a negative index counts
    from the end; outside [-n, n) the index raises. *)
Definition eye_row (n : nat) (i : Z) : result (list F) :=
  if ((- Z.of_nat n <=? i) && (i <? Z.of_nat n))%Z
  then let k := Z.to_nat (if (i <? 0)%Z then i + Z.of_nat n else i)%Z in
       Ok (map (fun j => if Nat.eqb j k then one else zero) (seq 0 n))
  else Err LibError.

(** [m.sum(axis=0)] of a 2-D array with [n] columns. *)
Definition sum_axis0 (n : nat) (m : list (list F)) : list F :=
  map (fun j => np_sum (map (fun r => nth j r zero) m)) (seq 0 n).

(** [np.stack] of a Python list of equal-shaped arrays. *)
Definition np_stack {A} (ls : list A) : result (list A) :=
  match ls with
  | [] => Err LibError
  | _ => Ok ls
  end.

(** Add atom type columns to energy A matrix. *)
Definition energy_type_offset (A_energy : list (list (list F)))
  (AtomTypes : list (list Z)) : result (list (list (list F))) :=
  match A_energy with
  | [] => Err LibError
  | row0 :: _ =>
      let n_types := length row0 in
      (rows <- rmapM (fun x =>
                 (hot <- rmapM (fun t => eye_row n_types (t - 1)%Z) x ;;
                  Ok (sum_axis0 n_types hot))%res) AtomTypes ;;
       onehot_atoms <- np_stack rows ;;
       let onehot_fraction :=
         map (fun r => map (fun v => div v (np_sum r)) r) onehot_atoms in
       if Nat.eqb (length onehot_fraction) (length A_energy)
       then Ok (map2 (fun fr a => map2 (fun v c => v :: c) fr a)
                     onehot_fraction A_energy)
       else Err LibError)%res
  end.

(** Add atom type columns to a force or virial A matrix; these columns
    are zeros. *)
Definition zero_type_offset (A_other : list (list (list F)))
  : list (list (list F)) :=
  map (map (fun c => zero :: c)) A_other.

(** [a *= conversion] when a conversion is given. *)
Definition apply_conversion (conversion : option F)
  (a : list (list (list F))) : list (list (list F)) :=
  match conversion with
  | Some c => map (map (map (fun v => mul v c))) a
  | None => a
  end.

End Assemble.

(** ** The store of weight vectors *)

(** A 1-D array that the code may write to is a location of the store;
    a Python name bound to the array holds the location.  Allocation
    appends, so a location is an index into the store. *)
Definition loc := nat.
Definition heap (F : Type) := list (list F).

(** A computation that reads and writes the store and may raise. *)
Definition M (F A : Type) := heap F -> result (A * heap F).

Definition ret {F A} (a : A) : M F A := fun h => Ok (a, h).

Definition bind {F A B} (m : M F A) (k : A -> M F B) : M F B :=
  fun h => match m h with
           | Ok (a, h') => k a h'
           | Err e => Err e
           end.

Definition lift {F A} (r : result A) : M F A :=
  fun h => match r with
           | Ok a => Ok (a, h)
           | Err e => Err e
           end.

Definition raise {F A} (e : exn) : M F A := fun _ => Err e.

(** The contents of the array at a location. *)
Definition load {F} (l : loc) : M F (list F) :=
  fun h => match nth_error h l with
           | Some v => Ok (v, h)
           | None => Err LibError
           end.

(** A new array. *)
Definition alloc {F} (v : list F) : M F loc :=
  fun h => Ok (List.length h, h ++ [v]).

Fixpoint set_nth {A} (l : list A) (i : nat) (x : A) : list A :=
  match l, i with
  | [], _ => []
  | _ :: r, O => x :: r
  | y :: r, S j => y :: set_nth r j x
  end.

(** [w[i] = x] for [i] in range: the array at the location changes, for
    every name that holds the location. *)
Definition store {F} (l : loc) (i : nat) (x : F) : M F unit :=
  fun h => match nth_error h l with
           | Some v => if Nat.ltb i (List.length v)
                       then Ok (tt, set_nth h l (set_nth v i x))
                       else Err LibError
           | None => Err LibError
           end.

Declare Scope m_scope.
Delimit Scope m_scope with M.
Notation "x <- m ;; k" := (bind m (fun x => k))
  (at level 61, m at next level, right associativity) : m_scope.
Notation "m ;;; k" := (bind m (fun _ => k))
  (at level 61, right associativity) : m_scope.

Fixpoint mapM {F A B} (f : A -> M F B) (l : list A) : M F (list B) :=
  match l with
  | [] => ret []
  | x :: r => (y <- f x ;; ys <- mapM f r ;; ret (y :: ys))%M
  end.

(** ** The dataset *)

(** The column-oriented dataset ([configs] in the code): one entry per
    configuration in every field.  The fields are those that the
    assembling functions take by keyword; the three weight arrays are
    locations of the store. *)
Record configs (F : Type) := {
  Group : list string;
  NumAtoms : list Z;
  AtomTypes : list (list Z);
  Energy : list F;
  ref_Energy : list F;
  Volume : list F;
  Stress : list (list (list F));
  ref_Stress : list (list F);
  Forces : list (list (list F));
  ref_Forces : list (list (list F));
  b_sum : list (list (list F));
  db_atom : list (list (list (list (list F))));
  vb_sum : list (list (list (list F)));
  eweight : loc;
  fweight : loc;
  vweight : loc
}.

(** A linear subsystem [(A, b, w)]; [w] is a location. *)
Record subsystem (F : Type) := {
  sysA : list (list (list F));
  sysb : list F;
  sysw : loc
}.

Section Subsystems.
Context {F : Type} {NF : Num F} {RF : Reduction F}.

(** Make linear system A,b,w for energy terms. *)
Definition makeAbw_b (cf : configs F) (offset : bool)
  (conversion : option F) : M F (subsystem F) :=
  lift (a <- bcast2 (fun r n => map (map (fun v => div v (of_int n))) r)
               (b_sum cf) (NumAtoms cf) ;;
        d <- bcast2 sub (Energy cf) (ref_Energy cf) ;;
        b <- bcast2 (fun v n => div v (of_int n)) d (NumAtoms cf) ;;
        let a := apply_conversion conversion a in
        a <- (if offset then energy_type_offset a (AtomTypes cf) else Ok a) ;;
        Ok {| sysA := a; sysb := b; sysw := eweight cf |})%res.

(** Make linear system A,b,w for force terms. *)
Definition makeAbw_db (cf : configs F) (offset : bool)
  (conversion : option F) : M F (subsystem F) :=
  (db_atom_flat <- lift (np_concatenate (db_atom cf)) ;;
   let a := concat db_atom_flat in
   let s1s2 := List.length a in
   b <- lift (f <- np_concatenate (Forces cf) ;;
              r <- np_concatenate (ref_Forces cf) ;;
              d <- bcast2M (bcast2 sub) f r ;;
              reshape1 (concat d) s1s2)%res ;;
   (* Weights look like broadcasted force components, flattened *)
   fw <- load (fweight cf) ;;
   wv <- lift (full <- np_concatenate
                         (map2 (fun a b => map (map (fun _ => b)) a)
                               (Forces cf) fw) ;;
               reshape1 (concat full) s1s2)%res ;;
   w <- alloc wv ;;
   let a := apply_conversion conversion a in
   let a := if offset then zero_type_offset a else a in
   ret {| sysA := a; sysb := b; sysw := w |})%M.

(** The conversion of the virial terms, [1.6021765e6]. *)
Definition _nktv2p : F := div (of_int 16021765) (of_int 10).

(** [Stress[:,[0,1,2,1,0,0],[0,1,2,2,2,1]]] for one configuration. *)
Definition voigt (S : list (list F)) : result (list F) :=
  rmapM (fun ij => (r <- getitem S (fst ij) ;; getitem r (snd ij))%res)
        (combine [0;1;2;1;0;0] [0;1;2;2;2;1])%nat.

(** Make linear system A,b,w for virial terms. *)
Definition makeAbw_vb (cf : configs F) (offset : bool)
  (conversion : option F) : M F (subsystem F) :=
  (let flat := concat (vb_sum cf) in
   let s1s2 := List.length flat in
   a <- lift (bcast2 (fun r v => map (map (fun c => div c v)) r)
                     flat (np_repeat (Volume cf) 6)) ;;
   (* switch from pressure tensor to flat stress (SNAP Voigt notation) *)
   b <- lift (flat_stress <- rmapM voigt (Stress cf) ;;
              d <- bcast2M (bcast2 sub) flat_stress (ref_Stress cf) ;;
              reshape1 (concat d) s1s2)%res ;;
   vw <- load (vweight cf) ;;
   w <- alloc (np_repeat vw 6) ;;
   let a := apply_conversion conversion a in
   let a := if offset then zero_type_offset a else a in
   ret {| sysA := a; sysb := b; sysw := w |})%M.

End Subsystems.

(** ** Composition of the subsystems *)

(** What [make_Abw] returns: a tuple of systems, or one [(A, b, w)]. *)
Inductive Abw (F : Type) : Type :=
| Systems (l : list (subsystem F))
| System (s : subsystem F).

Section Compose.
Context {F : Type} {NF : Num F} {RF : Reduction F}.

(** The three assemblers as [make_Abw] calls them, with the fields of the
    dataset as keyword arguments and [offset]: no conversion for energy
    and force, the default [_nktv2p] for the virial. *)
Definition assemblers : list (configs F -> bool -> M F (subsystem F)) :=
  [ (fun cf offset => makeAbw_b cf offset None);
    (fun cf offset => makeAbw_db cf offset None);
    (fun cf offset => makeAbw_vb cf offset (Some _nktv2p)) ].

(** [tuple(f for f, needed in zip(fs, subsystems) if needed)]. *)
Definition select {A} (fs : list A) (subsystems : bool * bool * bool)
  : list A :=
  let '(e, f, v) := subsystems in
  map fst (filter snd (combine fs [e; f; v])).

(** Make linear system for a set of configurations. *)
Definition make_Abw (cf : configs F) (offset : bool)
  (return_subsystems : bool) (subsystems : bool * bool * bool)
  : M F (Abw F) :=
  (let fns := select assemblers subsystems in
   submatrices <- mapM (fun x => x cf offset) fns ;;
   if Nat.eqb (List.length fns) 1 then
     if return_subsystems then ret (Systems submatrices)
     else match submatrices with
          | s :: _ => ret (System s)
          | [] => raise LibError
          end
   else
     A <- lift (np_concatenate (map (@sysA F) submatrices)) ;;
     b <- lift (np_concatenate (map (@sysb F) submatrices)) ;;
     ws <- mapM (fun s => load (sysw s)) submatrices ;;
     wv <- lift (np_concatenate ws) ;;
     w <- alloc wv ;;
     let combined := {| sysA := A; sysb := b; sysw := w |} in
     if return_subsystems then ret (Systems (combined :: submatrices))
     else ret (System combined))%M.

(** Adds offset values of zero to a linear fit which does not have type
    offsets. *)
Definition add_offset_zero_fit (x_typed : list (list F)) : list (list F) :=
  map (fun r => zero :: r) x_typed.

Definition get_subsys_names (subsystems : bool * bool * bool)
  : list string :=
  let '(e, f, v) := subsystems in
  let needs_combined :=
    Nat.ltb 1 (List.length (filter (fun b : bool => b) [e; f; v])) in
  map fst (filter snd
    (combine ["Combined"; "Energy"; "Forces"; "Stress"]%string
             [needs_combined; e; f; v])).

End Compose.

(** ** Error metrics *)

(** The dictionary that [get_error_metrics] returns. *)
Record error_record (F : Type) := {
  ncount : nat;
  mae : F;
  rmae : F;
  rmse : F;
  rrmse : F;
  ssr : F;
  rsq : F;
  residual : option (list F)
}.

Section Metrics.
Context {F : Type} {NF : Num F} {OF : NumOrd F} {RF : Reduction F}.

Definition nan : F := div zero zero.

Definition isnan (v : F) : bool := negb (eqb v v).

Fixpoint insert_sorted (v : F) (l : list F) : list F :=
  match l with
  | [] => [v]
  | y :: r => if ltb y v then y :: insert_sorted v r else v :: y :: r
  end.

Definition np_sort (l : list F) : list F :=
  fold_right insert_sorted [] l.

(** [np.median] of a 1-D array: NaN for an empty array or one that holds
    a NaN, else the middle element of the sorted array, or the mean of
    the two middle ones. *)
Definition np_median (v : list F) : F :=
  let n := List.length v in
  if Nat.eqb n 0 || existsb isnan v then nan
  else let s := np_sort v in
       if Nat.even n
       then div (add (nth (n / 2 - 1) s zero) (nth (n / 2) s zero))
                (of_int 2)
       else nth (n / 2) s zero.

(** [np.std] of a 1-D array. *)
Definition np_std (v : list F) : F :=
  let n := of_int (Z.of_nat (List.length v)) in
  let arrmean := div (np_sum v) n in
  let x := map (fun t => sub t arrmean) v in
  sqrtv (div (np_sum (map (fun t => mul t t) x)) n).

Definition np_square (v : list F) : list F := map (fun t => mul t t) v.

Definition count_nonzero (w : list F) : nat :=
  List.length (filter (fun v => negb (eqb v zero)) w).

(** [np.sum(np.square(true - (true/nconfig).sum()))], the denominator of
    [rsq]. *)
Definition total_sum_squares (true_ : list F) (nc : F) : F :=
  let tmean := np_sum (map (fun t => div t nc) true_) in
  np_sum (np_square (map (fun t => sub t tmean) true_)).

(** [A_flat @ x_flat]: the dot product of every row of [A_flat] with
    [x_flat]. *)
Definition matvec (A_flat : list (list F)) (x_flat : list F)
  : result (list F) :=
  rmapM (fun r =>
    if Nat.eqb (List.length r) (List.length x_flat)
    then Ok (dot r x_flat)
    else Err LibError) A_flat.

(** Compute a variety of error metrics for (wA)x = (wb), return as a
    dictionary.  Use w=None for Ax=b. *)
Definition get_error_metrics (x : list (list F)) (A : list (list (list F)))
  (b : list F) (w : option loc) (include_residual : bool)
  : M F (error_record F) :=
  (A_flat <- lift (match A with
                   | [] => Err LibError
                   | _ => Ok (map (@concat F) A)
                   end) ;;
   let x_flat := concat x in
   pred <- lift (matvec A_flat x_flat) ;;
   tpn <- match w with
          | Some l =>
              wv <- load l ;;
              t <- lift (bcast2 mul wv b) ;;
              p <- lift (bcast2 mul wv pred) ;;
              ret (t, p, count_nonzero wv)
          | None => ret (b, pred, List.length pred)
          end ;;
   let '(true_, pred, nconfig) := tpn in
   let nc := of_int (Z.of_nat nconfig) in
   res <- lift (bcast2 sub true_ pred) ;;
   let mae := np_sum (map (fun r => div (absv r) nc) res) in
   let med := np_median true_ in
   let mean_dev :=
     np_sum (map (fun t => div (absv (sub t med)) nc) true_) in
   let ssr := np_sum (np_square res) in
   let mse := div ssr nc in
   let rmse := sqrtv mse in
   let rsq := sub one (div ssr (total_sum_squares true_ nc)) in
   ret {| ncount := nconfig;
          mae := mae;
          rmae := div mae mean_dev;
          rmse := rmse;
          rrmse := div rmse (np_std true_);
          ssr := ssr;
          rsq := rsq;
          residual := if include_residual then Some res else None |})%M.

End Metrics.

(** ** Errors by group *)

(** The options structure ([bispec_options]); the fields that this file
    reads. *)
Record options (F : Type) := {
  compute_testerrs : bool;
  normweight : F;
  normratio : F;
  SGDPrior : bool;
  SGDPriorBeta : list F
}.

(** A row of the table of [group_errors]: the error record with its three
    labels. *)
Record table_row (F : Type) := {
  row_Group : string;
  row_Weighting : string;
  row_Subsystem : string;
  row_metrics : error_record F
}.

(** A Python dictionary with string keys, in insertion order. *)
Fixpoint dict_mem {A} (k : string) (d : list (string * A)) : bool :=
  match d with
  | [] => false
  | (k', _) :: r => String.eqb k k' || dict_mem k r
  end.

Fixpoint dict_get {A} (k : string) (d : list (string * A)) : option A :=
  match d with
  | [] => None
  | (k', v) :: r => if String.eqb k k' then Some v else dict_get k r
  end.

(** [d[k] = v]: a key that is present keeps its place and takes the new
    value, a new key goes to the end. *)
Fixpoint dict_set {A} (d : list (string * A)) (k : string) (v : A)
  : list (string * A) :=
  match d with
  | [] => [(k, v)]
  | (k', v') :: r =>
      if String.eqb k k' then (k, v) :: r else (k', v') :: dict_set r k v
  end.

(** get v[ind] where ind is a list; uses np arrays if v is a np array.
    The index array of an empty [ind] has a float dtype, which numpy
    refuses as an index. *)
Definition get_ind {A} (is_ndarray : bool) (v : list A) (ind : list nat)
  : result (list A) :=
  if is_ndarray && Nat.eqb (List.length ind) 0 then Err LibError
  else rmapM (getitem v) ind.

(** [[i for i, gi in enumerate(groups) if gi == group_name]]. *)
Definition group_indices (groups : list string) (group_name : string)
  : list nat :=
  map fst (filter (fun p => String.eqb (snd p) group_name)
                  (combine (seq 0 (List.length groups)) groups)).

(** [set(groups)]: the distinct labels.  Python leaves the order of a
    set open; here it is the order of the last occurrences. *)
Definition group_set (groups : list string) : list string :=
  nodup string_dec groups.

Section Groups.
Context {F : Type} {NF : Num F} {OF : NumOrd F} {RF : Reduction F}.

(** Fancy indexing of a weight array: a new array. *)
Definition get_ind_loc (l : loc) (ind : list nat) : M F loc :=
  (v <- load l ;;
   v' <- lift (get_ind true v ind) ;;
   alloc v')%M.

(** Extract subconfigurations associated with group group_name.  The
    dense fields are numpy arrays, the ragged ones and the labels are
    Python lists of arrays. *)
Definition get_subgroup (cf : configs F) (group_name : string)
  : M F (configs F) :=
  (let ind := group_indices (Group cf) group_name in
   g <- lift (get_ind false (Group cf) ind) ;;
   na <- lift (get_ind true (NumAtoms cf) ind) ;;
   at_ <- lift (get_ind false (AtomTypes cf) ind) ;;
   en <- lift (get_ind true (Energy cf) ind) ;;
   re <- lift (get_ind true (ref_Energy cf) ind) ;;
   vo <- lift (get_ind true (Volume cf) ind) ;;
   st <- lift (get_ind true (Stress cf) ind) ;;
   rs <- lift (get_ind true (ref_Stress cf) ind) ;;
   fo <- lift (get_ind false (Forces cf) ind) ;;
   rf <- lift (get_ind false (ref_Forces cf) ind) ;;
   bs <- lift (get_ind true (b_sum cf) ind) ;;
   db <- lift (get_ind false (db_atom cf) ind) ;;
   vb <- lift (get_ind true (vb_sum cf) ind) ;;
   ew <- get_ind_loc (eweight cf) ind ;;
   fw <- get_ind_loc (fweight cf) ind ;;
   vw <- get_ind_loc (vweight cf) ind ;;
   ret {| Group := g; NumAtoms := na; AtomTypes := at_; Energy := en;
          ref_Energy := re; Volume := vo; Stress := st; ref_Stress := rs;
          Forces := fo; ref_Forces := rf; b_sum := bs; db_atom := db;
          vb_sum := vb; eweight := ew; fweight := fw; vweight := vw |})%M.

(** The dictionary of sub-datasets of [group_errors], with the entry for
    all groups when there is more than one group. *)
Definition make_subconfigs (cf : configs F)
  : M F (list (string * configs F)) :=
  (let gs := group_set (Group cf) in
   subconfigs <- mapM (fun g => sc <- get_subgroup cf g ;; ret (g, sc)) gs ;;
   if Nat.ltb 1 (List.length gs) then
     if dict_mem "*All" subconfigs
     then raise (ValueError "groupname '*ALL' not allowed.")
     else ret (dict_set subconfigs "*ALL" cf)
   else ret subconfigs)%M.

(** [for i in range(len(w)): if w[i]>0.0: w[i]=1.0 else: w[i]=0.0]. *)
Definition mask_in_place (w : loc) : M F unit :=
  (v <- load w ;;
   _ <- mapM (fun i =>
               cur <- load w ;;
               wi <- lift (getitem cur i) ;;
               store w i (if ltb zero wi then one else zero))
             (seq 0 (List.length v)) ;;
   ret tt)%M.

Definition labelled (gname wtype gtype : string) (r : error_record F)
  : table_row F :=
  {| row_Group := gname; row_Weighting := wtype; row_Subsystem := gtype;
     row_metrics := r |}.

(** The records of one subsystem of one group: the body of the loop over
    [(subsys[2], "Weighted"), (None, "Unweighted")]. *)
Definition subsystem_records (x : list (list F)) (opts : options F)
  (gname gtype : string) (subsys : subsystem F) : M F (list (table_row F)) :=
  (let A := sysA subsys in
   let b := sysb subsys in
   let w := sysw subsys in
   r1 <- get_error_metrics x A b (Some w) false ;;
   cv <- (if compute_testerrs opts then
            (* Special Case of weighted vector for Training Set *)
            mask_in_place w ;;;
            r2 <- get_error_metrics x A b (Some w) false ;;
            (* Special Case of weighted vector for Test Set *)
            wv <- load w ;;
            w' <- alloc (map (fun v => absv (sub one v)) wv) ;;
            r3 <- get_error_metrics x A b (Some w') false ;;
            ret [labelled gname "CVTrain_Unweight" gtype r2;
                 labelled gname "CVTest_Unweight" gtype r3]
          else ret []) ;;
   r4 <- get_error_metrics x A b None false ;;
   ret (labelled gname "Weighted" gtype r1 :: cv
        ++ [labelled gname "Unweighted" gtype r4]))%M.

(** The order of the index [(Group, Weighting, Subsystem)]. *)
Definition row_leb (r s : table_row F) : bool :=
  match String.compare (row_Group r) (row_Group s) with
  | Lt => true
  | Gt => false
  | Eq =>
      match String.compare (row_Weighting r) (row_Weighting s) with
      | Lt => true
      | Gt => false
      | Eq => String.leb (row_Subsystem r) (row_Subsystem s)
      end
  end.

Fixpoint insert_row (r : table_row F) (l : list (table_row F))
  : list (table_row F) :=
  match l with
  | [] => [r]
  | s :: t => if row_leb r s then r :: s :: t else s :: insert_row r t
  end.

(** [set_index(["Group", "Weighting", "Subsystem"]).sort_index()]; a
    frame without rows has no such columns. *)
Definition sort_index (rows : list (table_row F))
  : result (list (table_row F)) :=
  match rows with
  | [] => Err LibError
  | _ => Ok (fold_right insert_row [] rows)
  end.

(** The records of one entry of the dictionary of sub-datasets: the body
    of the loop over [subconfigs.items()]. *)
Definition group_records (x : list (list F)) (bispec_options : options F)
  (subsystems : bool * bool * bool) (entry : string * configs F)
  : M F (list (table_row F)) :=
  (let sysnames := get_subsys_names subsystems in
   let (gname, cf') := entry in
   systems <- make_Abw cf' true true subsystems ;;
   match systems with
   | Systems l =>
       recs <- mapM (fun ns : string * subsystem F =>
                       subsystem_records x bispec_options gname
                                         (fst ns) (snd ns))
                    (combine sysnames l) ;;
       ret (concat recs)
   | System _ => raise LibError
   end)%M.

(** Get error metrics for a set of configs by group, subsystem, and
    weighting.  Returns the rows of the table, sorted by their index. *)
Definition group_errors (x : list (list F)) (cf : configs F)
  (bispec_options : options F) (subsystems : bool * bool * bool)
  : M F (list (table_row F)) :=
  (subconfigs <- make_subconfigs cf ;;
   all_records <- mapM (group_records x bispec_options subsystems)
                       subconfigs ;;
   lift (sort_index (concat all_records)))%M.

End Groups.

(** ** Solvers *)

(** The model classes of [sklearn.linear_model] that the file names. *)
Inductive modelcls : Type :=
| LinearRegression
| Lasso
| Ridge
| ElasticNet
| SGDRegressor.

(** The value of a keyword argument. *)
Inductive pyval (F : Type) : Type :=
| VBool (b : bool)
| VNum (v : F)
| VStr (s : string)
| VNone.
Arguments VBool {F} b.
Arguments VStr {F} s.
Arguments VNone {F}.

(** What the [fitfn] of [sklearn_model_to_fn] closes over: every call of
    it builds a model of class [modelcls] with the keyword arguments
    [model_kwargs]. *)
Record fitfn (F : Type) := {
  fit_options : options F;
  fit_modelcls : modelcls;
  model_kwargs : list (string * pyval F)
}.

Section Solvers.
Context {F : Type} {NF : Num F} {RF : Reduction F}.

Definition sklearn_model_to_fn (bispec_options : options F)
  (cls : modelcls) (kwargs : list (string * pyval F)) : fitfn F :=
  {| fit_options := bispec_options; fit_modelcls := cls;
     model_kwargs := kwargs |}.

Definition solver_fndict (bispec_options : options F)
  : list (string * fitfn F) :=
  [ ("SVD"%string,
     sklearn_model_to_fn bispec_options LinearRegression []);
    ("LASSO"%string,
     sklearn_model_to_fn bispec_options Lasso
       [("alpha"%string, VNum (normweight bispec_options));
        ("max_iter"%string, VNum (of_int 1000000));
        ("fit_intercept"%string, VBool false)]);
    ("RIDGE"%string,
     sklearn_model_to_fn bispec_options Ridge
       [("alpha"%string, VNum (normweight bispec_options));
        ("max_iter"%string, VNum (of_int 1000000));
        ("fit_intercept"%string, VBool false)]);
    ("ELASTIC"%string,
     sklearn_model_to_fn bispec_options ElasticNet
       [("alpha"%string, VNum (normweight bispec_options));
        ("l1_ratio"%string, VNum (normratio bispec_options));
        ("max_iter"%string, VNum (of_int 1000000));
        ("fit_intercept"%string, VBool false)]);
    ("SGD"%string,
     sklearn_model_to_fn bispec_options SGDRegressor
       [("penalty"%string, VStr "none");
        ("alpha"%string, VNum zero);
        ("shuffle"%string, VBool true);
        ("max_iter"%string, VNum (of_int 10000));
        ("fit_intercept"%string, VBool false);
        ("learning_rate"%string, VStr "adaptive");
        ("eta0"%string, VNum (div one (of_int (10 ^ 20))));
        ("early_stopping"%string, VBool true);
        ("warm_start"%string, VBool true);
        ("verbose"%string, VNum one);
        ("tol"%string, VNone)]) ].

Definition get_solver_fn (bispec_options : options F) (solver : string)
  : result (fitfn F) :=
  match dict_get solver (solver_fndict bispec_options) with
  | Some f => Ok f
  | None => Err LibError
  end.

(** The value of [fit_intercept] that a model is constructed with: the
    keyword argument when it is passed, else the default of the
    constructor, which is [True] for the five classes of scikit-learn. *)
Definition constructed_fit_intercept (f : fitfn F) : bool :=
  match dict_get "fit_intercept" (model_kwargs f) with
  | Some (VBool b) => b
  | _ => true
  end.

End Solvers.



(** ** The weighted solve *)

Section Solve.
Context {F : Type} {NF : Num F} {OF : NumOrd F} {RF : Reduction F}.

(** [np.isinf]: the absolute value is the infinity, [1/0]. *)
Definition isinf (v : F) : bool := eqb (absv v) (div one zero).

(** [(np.isinf(a)).any() or (np.isnan(a)).any()] over the elements. *)
Definition inf_or_nan (a : list F) : bool :=
  existsb isinf a || existsb isnan a.

(** The line that [solve_linear_snap] prints. *)
Definition diagnostic (A : list (list (list F))) (b w : list F) : string :=
  if inf_or_nan (concat (concat A))
  then "Inf or NaN found in Bispectrum Matrix (A)"
  else if inf_or_nan b
  then "Inf or NaN found in Training Reference Data (b)"
  else if inf_or_nan w
  then "Inf or NaN found in Weighting Vector (w)"
  else "A,b,w look clean, sending to liner solver".

(** [x.reshape(n, k)] of a 1-D array: [n] rows of [k] elements. *)
Fixpoint chunks {A} (k n : nat) (v : list A) : list (list A) :=
  match n with
  | O => []
  | S n' => firstn k v :: chunks k n' (skipn k v)
  end.

Definition reshape2 {A} (v : list A) (n k : nat) : result (list (list A)) :=
  if Nat.eqb (List.length v) (n * k) then Ok (chunks k n v) else Err LibError.

(** Assembles and solves configurations using a solver.  [n_types] and
    [n_coeff] are [A.shape[1:]], which the nested list holds only when it
    has a row; [solver] takes the weighted matrix and target and returns
    the coefficients with any further results, or raises.  The value
    returned is [(x_typed, solver_info)] with the line printed. *)
Definition solve_linear_snap {I : Type} (n_types n_coeff : nat)
  (A : list (list (list F))) (b : list F) (w : loc)
  (solver : list (list F) -> list F -> result (list F * I))
  (offset : bool) : M F (list (list F) * I * string) :=
  (wv <- load w ;;
   let printed := diagnostic A b wv in
   Aw <- lift (bcast2 (fun wi r => map (fun v => mul wi v) r)
                      wv (map (@concat F) A)) ;;
   bw <- lift (bcast2 mul wv b) ;;
   xs <- lift (solver Aw bw) ;;
   let (x, solver_info) := xs : list F * I in
   x_typed <- lift (reshape2 x n_types n_coeff) ;;
   let x_typed := if offset then x_typed else add_offset_zero_fit x_typed in
   ret (x_typed, solver_info, printed))%M.

End Solve.

(** ** Residuals in the shape of the reference data *)

(** What [unflatten] takes as [shape_like] and returns: a 1-D array, a
    2-D array, or a Python list of 2-D arrays. *)
Inductive shaped (F : Type) : Type :=
| Array1 (a : list F)
| Array2 (a : list (list F))
| Ragged (l : list (list (list F))).

Section Residuals.
Context {F : Type} {NF : Num F} {OF : NumOrd F} {RF : Reduction F}.

(** [flat.reshape(s.shape)] for a 2-D array [s]. *)
Definition reshape_like2 (flat : list F) (s : list (list F))
  : result (list (list F)) :=
  reshape2 flat (List.length s) (List.length (hd [] s)).

(** [np.cumsum]. *)
Fixpoint cumsum (acc : nat) (l : list nat) : list nat :=
  match l with
  | [] => []
  | n :: r => (acc + n)%nat :: cumsum (acc + n) r
  end.

(** [np.array_split(flat, cuts)] from position [start] on: the slices
    between consecutive cuts, and the rest. *)
Fixpoint array_split (flat : list F) (start : nat) (cuts : list nat)
  : list (list F) :=
  match cuts with
  | [] => [skipn start flat]
  | c :: r => firstn (c - start) (skipn start flat) :: array_split flat c r
  end.

(** Unshapes numpy array flat_array to look like shape_like.  If
    shape_like is an array, just uses reshape; if shape_like is a list,
    "unpacks" flat_array to look like the list. *)
Definition unflatten (flat_array : list F) (shape_like : shaped F)
  : result (shaped F) :=
  match shape_like with
  (* covers energy and stress *)
  | Array1 a =>
      (r <- reshape1 flat_array (List.length a) ;; Ok (Array1 r))%res
  | Array2 a =>
      (r <- reshape_like2 flat_array a ;; Ok (Array2 r))%res
  (* covers forces and other 'ragged' objects *)
  | Ragged l =>
      let num_elem := map (fun s => List.length (concat s)) l in
      let flat_result :=
        array_split flat_array 0 (removelast (cumsum 0 num_elem)) in
      (rs <- rmapM (fun rs => reshape_like2 (fst rs) (snd rs))
                   (combine flat_result l) ;;
       Ok (Ragged rs))%res
  end.

(** [configs["ref_" + nm]]. *)
Definition ref_field (cf : configs F) (nm : string) : result (shaped F) :=
  if String.eqb nm "Energy" then Ok (Array1 (ref_Energy cf))
  else if String.eqb nm "Forces" then Ok (Ragged (ref_Forces cf))
  else if String.eqb nm "Stress" then Ok (Array2 (ref_Stress cf))
  else Err LibError.

Definition get_residuals (x : list (list F)) (cf : configs F)
  (subsystems : bool * bool * bool) : M F (list (string * shaped F)) :=
  (let names := get_subsys_names subsystems in
   r <- make_Abw cf true true subsystems ;;
   match r with
   | Systems submatrices =>
       let (names, submatrices) :=
         if Nat.ltb 1 (List.length submatrices)
         then (tl names, tl submatrices) else (names, submatrices) in
       outs <- mapM (fun ns : string * subsystem F =>
                       let (nm, s) := ns in
                       rec <- get_error_metrics x (sysA s) (sysb s)
                                                (Some (sysw s)) true ;;
                       res <- lift (match residual rec with
                                    | Some res => Ok res
                                    | None => Err LibError
                                    end) ;;
                       like <- lift (ref_field cf nm) ;;
                       u <- lift (unflatten res like) ;;
                       ret (("residual_" ++ nm)%string, u))
                    (combine names submatrices) ;;
       ret (fold_left (fun d kv => dict_set d (fst kv) (snd kv)) outs [])
   | System _ => raise LibError
   end)%M.

End Residuals.

(** ** The data model *)

(** The number of atoms of type [j + 1] in a configuration. *)
Definition type_count (ts : list Z) (j : nat) : nat :=
  count_occ Z.eq_dec ts (Z.of_nat j + 1)%Z.

Section DataModel.
Context {F : Type} {NF : Num F} {RF : Reduction F}.

(** Entry [(i, j)] of a tensor. *)
Definition entry (S : list (list F)) (i j : nat) : F :=
  nth j (nth i S []) zero.

(** The Voigt order (xx, yy, zz, yz, xz, xy) of a 3x3 tensor. *)
Definition voigt_order (S : list (list F)) : list F :=
  [entry S 0 0; entry S 1 1; entry S 2 2;
   entry S 1 2; entry S 0 2; entry S 0 1].

(** The virial target of the data model: configuration by configuration
    the six Voigt entries of [Stress] minus the entries of [ref_Stress],
    flattened. *)
Definition virial_target (Stress : list (list (list F)))
  (ref_Stress : list (list F)) : list F :=
  concat (map2 (fun S r => map2 sub (voigt_order S) r) Stress ref_Stress).

Definition is_3x3 (S : list (list F)) : Prop :=
  List.length S = 3%nat /\ Forall (fun r => List.length r = 3%nat) S.

(** Row [k] of the identity matrix with [n] columns. *)
Definition onehot (n k : nat) : list F :=
  map (fun j => if Nat.eqb j k then one else zero) (seq 0 n).

(** The type ids that index [np.eye(n)] without raising. *)
Definition indexable (n : nat) (t : Z) : Prop :=
  (- Z.of_nat n <= t - 1 < Z.of_nat n)%Z.

(** The row of [np.eye(n)] that the type id [t] selects. *)
Definition type_row (n : nat) (t : Z) : nat :=
  Z.to_nat (if (t - 1 <? 0)%Z then t - 1 + Z.of_nat n else t - 1)%Z.

(** The offset entries of one configuration: the one-hot rows of its
    atoms added up and divided by their total. *)
Definition type_fractions (n : nat) (ts : list Z) : list F :=
  let counts := sum_axis0 n (map (fun t => onehot n (type_row n t)) ts) in
  map (fun v => div v (np_sum counts)) counts.

(** The fractions of the atoms of a configuration that are of each type,
    in the arithmetic of the arrays: the count of the type divided by the
    number of atoms. *)
Definition count_fractions (n : nat) (ts : list Z) : list F :=
  map (fun j => div (of_int (Z.of_nat (type_count ts j)))
                    (of_int (Z.of_nat (List.length ts))))
      (seq 0 n).

(** [a] is the elements of [l] added up in some grouping and order. *)
Inductive sums_to : list F -> F -> Prop :=
| sums_one x : sums_to [x] x
| sums_split l l1 l2 a b :
    Permutation l (l1 ++ l2) -> sums_to l1 a -> sums_to l2 b ->
    sums_to l (add a b).

(** A type id 0 read as the last type. *)
Definition retype (n : nat) (t : Z) : Z :=
  if (t =? 0)%Z then Z.of_nat n else t.

(** A per-configuration ragged field: [NumAtoms] atoms in configuration
    [i], three components per atom. *)
Definition per_atom {A} (NumAtoms : list Z) (field : list (list (list A)))
  : Prop :=
  Forall2 (fun n f => Z.of_nat (List.length f) = n
                      /\ Forall (fun a => List.length a = 3%nat) f)
          NumAtoms field.

(** A dataset of the data model with [n_types] atom types, in a store:
    at least one configuration, one entry per configuration in every
    field, [NumAtoms] positive, atom types in [1, n_types], the fixed
    inner shapes, and weight arrays in the store. *)
Record wf_dataset (n_types : nat) (cf : configs F) (h : heap F) : Prop := {
  wf_nonempty : NumAtoms cf <> [];
  wf_NumAtoms : Forall (fun n => 0 < n)%Z (NumAtoms cf);
  wf_Group : List.length (Group cf) = List.length (NumAtoms cf);
  wf_AtomTypes :
    Forall2 (fun n ts =>
               Z.of_nat (List.length ts) = n
               /\ Forall (fun t => 1 <= t <= Z.of_nat n_types)%Z ts)
            (NumAtoms cf) (AtomTypes cf);
  wf_Energy : List.length (Energy cf) = List.length (NumAtoms cf);
  wf_ref_Energy : List.length (ref_Energy cf) = List.length (NumAtoms cf);
  wf_Volume : List.length (Volume cf) = List.length (NumAtoms cf);
  wf_Stress : List.length (Stress cf) = List.length (NumAtoms cf)
              /\ Forall is_3x3 (Stress cf);
  wf_ref_Stress :
    List.length (ref_Stress cf) = List.length (NumAtoms cf)
    /\ Forall (fun r => List.length r = 6%nat) (ref_Stress cf);
  wf_Forces : per_atom (NumAtoms cf) (Forces cf);
  wf_ref_Forces : per_atom (NumAtoms cf) (ref_Forces cf);
  wf_b_sum : List.length (b_sum cf) = List.length (NumAtoms cf)
             /\ Forall (fun r => List.length r = n_types) (b_sum cf);
  wf_db_atom : per_atom (NumAtoms cf) (db_atom cf);
  wf_vb_sum : List.length (vb_sum cf) = List.length (NumAtoms cf)
              /\ Forall (fun r => List.length r = 6%nat) (vb_sum cf);
  wf_eweight :
    exists w, nth_error h (eweight cf) = Some w
              /\ List.length w = List.length (NumAtoms cf);
  wf_fweight :
    exists w, nth_error h (fweight cf) = Some w
              /\ List.length w = List.length (NumAtoms cf);
  wf_vweight :
    exists w, nth_error h (vweight cf) = Some w
              /\ List.length w = List.length (NumAtoms cf)
}.

(** The sum of [3 * NumAtoms] over the configurations. *)
Definition force_rows (NumAtoms : list Z) : Z :=
  fold_right Z.add 0%Z (map (fun n => 3 * n)%Z NumAtoms).

End DataModel.

(** The binary64 representation of a positive integer below 2^53: the
    mantissa shifted to 53 digits. *)
Definition canon (p : positive) : spec_float :=
  let d := Zpos (digits2_pos p) in
  S754_finite false (Pos.shiftl p (Z.to_N (53 - d))) (d - 53)%Z.

(** The number of strictly positive entries of a weight vector. *)
Definition count_positive {F} {NF : Num F} {OF : NumOrd F} (w : list F)
  : nat :=
  List.length (filter (fun v => ltb zero v) w).

(** ** Observations of the store *)

Section Observe.
Context {F : Type}.

(** A system with the contents of its weight vector. *)
Definition system_values (h : heap F) (s : subsystem F)
  : list (list (list F)) * list F * option (list F) :=
  (sysA s, sysb s, nth_error h (sysw s)).

(** What a run of [make_Abw] assembles, element for element. *)
Definition assembled (m : M F (Abw F)) (h : heap F)
  : result (list (list (list (list F)) * list F * option (list F))) :=
  match m h with
  | Ok (Systems l, h') => Ok (map (system_values h') l)
  | Ok (System s, h') => Ok [system_values h' s]
  | Err e => Err e
  end.

(** The entries of a dictionary that come before the key [k]. *)
Fixpoint entries_before {A} (k : string) (d : list (string * A))
  : list (string * A) :=
  match d with
  | [] => []
  | (k', v) :: r =>
      if String.eqb k k' then [] else (k', v) :: entries_before k r
  end.

(** The weight arrays of a dataset satisfy [P]. *)
Definition weights_in (P : loc -> Prop) (cf : configs F) : Prop :=
  P (eweight cf) /\ P (fweight cf) /\ P (vweight cf).

End Observe.

(** ** Runs and the store *)

Section StoreLogic.
Context {F : Type}.

(** [h'] extends [h] and agrees with it outside the locations [W]. *)
Definition keeps (W : loc -> Prop) (h h' : heap F) : Prop :=
  (List.length h <= List.length h')%nat
  /\ forall l, ~ W l -> nth_error h' l = nth_error h l.

(** From a store that holds the locations below [k], [m] writes inside
    [W] only and returns a value that satisfies [Q]. *)
Definition safe {A} (k : nat) (W : loc -> Prop) (Q : A -> Prop)
  (m : M F A) : Prop :=
  forall h a h', (k <= List.length h)%nat -> m h = Ok (a, h') ->
                 Q a /\ keeps W h h'.

(** The weight vectors of the systems are locations of [W]. *)
Definition systems_in (W : loc -> Prop) (r : Abw F) : Prop :=
  match r with
  | Systems l => Forall (fun s => W (sysw s)) l
  | System s => W (sysw s)
  end.

(** Two runs of one computation, from [base ++ new] and from
    [base ++ extra ++ new]: a location of the first run is a location of
    [base], the same in both runs, or a later one, moved by the length of
    [extra] in the second run. *)
Definition moved (base extra : heap F) (l l' : loc) : Prop :=
  ((l < List.length base)%nat /\ l' = l)
  \/ ((List.length base <= l)%nat /\ l' = (l + List.length extra)%nat).

(** The two runs raise the same exception, or return values related by
    [R] and stores with the same new arrays. *)
Definition sim {A} (base extra : heap F) (R : A -> A -> Prop)
  (m m' : M F A) : Prop :=
  forall new,
    match m (base ++ new), m' (base ++ extra ++ new) with
    | Ok (a, hl), Ok (a', hr) =>
        exists new', hl = base ++ new' /\ hr = base ++ extra ++ new'
                     /\ R a a'
    | Err e, Err e' => e = e'
    | _, _ => False
    end.

(** Systems with equal matrices and targets and weights at matching
    locations. *)
Definition same_system (base extra : heap F) (s t : subsystem F) : Prop :=
  sysA s = sysA t /\ sysb s = sysb t /\ moved base extra (sysw s) (sysw t).

Definition same_Abw (base extra : heap F) (r r' : Abw F) : Prop :=
  match r, r' with
  | Systems l, Systems l' => Forall2 (same_system base extra) l l'
  | System s, System t => same_system base extra s t
  | _, _ => False
  end.

(** A computation that raises nothing but [LibError]. *)
Definition lib_only {A} (m : M F A) : Prop :=
  forall h e, m h = Err e -> e = LibError.

End StoreLogic.

(** ** Further notions *)

Section MoreNotions.
Context {F : Type}.

(** The weight of every configuration once for each of its
    [3 * NumAtoms] force components. *)
Definition force_weights (NumAtoms : list Z) (fw : list F) : list F :=
  concat (map2 (fun n f => repeat f (3 * Z.to_nat n)) NumAtoms fw).

(** [m] only adds arrays to the store: the arrays that are there stay as
    they are. *)
Definition grows {A} (m : M F A) : Prop :=
  forall h a h', m h = Ok (a, h') -> exists extra, h' = h ++ extra.

End MoreNotions.


(** One of the two zeros of binary64. *)
Definition is_pm0 (v : float) : Prop := v = 0%float \/ v = (-0)%float.

(** The entries of a per-configuration field [v] whose group label is
    [g], in the order of the dataset. *)
Definition pick {A} (groups : list string) (g : string) (v : list A)
  : list A :=
  map snd (filter (fun p => String.eqb (fst p) g) (combine groups v)).

Section MoreGroupNotions.
Context {F : Type} {NF : Num F} {OF : NumOrd F} {RF : Reduction F}.

(** The mask of the cross-validation rows: 1 for a weight above 0, else
    0. *)
Definition mask (v : F) : F := if ltb zero v then one else zero.

(** The number of entries of the dictionary of sub-datasets: one per
    group, and the entry of all groups when there are several groups and
    none of them has its name. *)
Definition n_entries (groups : list string) : nat :=
  let n := List.length (group_set groups) in
  if Nat.ltb 1 n
  then (if existsb (String.eqb "*ALL") groups then n else S n)
  else n.

(** The rows of the table for one subsystem of one entry. *)
Definition rows_per_subsystem (opts : options F) : nat :=
  if compute_testerrs opts then 4 else 2.

End MoreGroupNotions.

(** The sub-dataset of the configurations of group [g]: every field
    restricted to the group, and the three weight arrays at the new
    locations [base], [base + 1] and [base + 2]. *)
Definition subgroup_of {F} (cf : configs F) (g : string) (base : loc)
  : configs F :=
  let gs := Group cf in
  {| Group := pick gs g gs; NumAtoms := pick gs g (NumAtoms cf);
     AtomTypes := pick gs g (AtomTypes cf); Energy := pick gs g (Energy cf);
     ref_Energy := pick gs g (ref_Energy cf);
     Volume := pick gs g (Volume cf); Stress := pick gs g (Stress cf);
     ref_Stress := pick gs g (ref_Stress cf);
     Forces := pick gs g (Forces cf);
     ref_Forces := pick gs g (ref_Forces cf);
     b_sum := pick gs g (b_sum cf); db_atom := pick gs g (db_atom cf);
     vb_sum := pick gs g (vb_sum cf);
     eweight := base; fweight := S base; vweight := S (S base) |}.

Section Shapes.
Context {F : Type}.

(** A 2-D array as nested lists: every row as long as the first. *)
Definition rect2 (a : list (list F)) : Prop :=
  Forall (fun r => List.length r = List.length (hd [] a)) a.

Definition rectangular (s : shaped F) : Prop :=
  match s with
  | Array1 _ => True
  | Array2 a => rect2 a
  | Ragged l => Forall rect2 l
  end.

(** The elements in row-major order, one array after the other. *)
Definition flatten (s : shaped F) : list F :=
  match s with
  | Array1 a => a
  | Array2 a => concat a
  | Ragged l => concat (map (@concat F) l)
  end.

End Shapes.

(** The line that [solve_linear_snap] prints for data without Inf and
    NaN. *)
Definition clean_line : string :=
  "A,b,w look clean, sending to liner solver".
(** ** Sample data *)

Module Sample.

(** Two configurations in two groups, one atom and one atom type each,
    one descriptor coefficient. *)
Definition cfg1 : configs float := {|
  Group := ["a"; "b"]%string;
  NumAtoms := [1; 1]%Z;
  AtomTypes := [[1]; [1]]%Z;
  Energy := [2; 4]%float;
  ref_Energy := [0; 0]%float;
  Volume := [1; 1]%float;
  Stress := [[[0;0;0];[0;0;0];[0;0;0]]; [[0;0;0];[0;0;0];[0;0;0]]]%float;
  ref_Stress := [[0;0;0;0;0;0]; [0;0;0;0;0;0]]%float;
  Forces := [[[0;0;0]]; [[0;0;0]]]%float;
  ref_Forces := [[[0;0;0]]; [[0;0;0]]]%float;
  b_sum := [[[1]]; [[3]]]%float;
  db_atom := [[[[[0]];[[0]];[[0]]]]; [[[[0]];[[0]];[[0]]]]]%float;
  vb_sum := [[[[0]];[[0]];[[0]];[[0]];[[0]];[[0]]];
             [[[0]];[[0]];[[0]];[[0]];[[0]];[[0]]]]%float;
  eweight := 0%nat; fweight := 1%nat; vweight := 2%nat |}.

Definition heap1 : heap float := [[0.5; 0.25]; [1; 1]; [1; 1]]%float.

Definition opts1 : options float := {|
  compute_testerrs := true; normweight := 0%float; normratio := 0%float;
  SGDPrior := false; SGDPriorBeta := [] |}.

(** The fit [x] for one atom type: offset 0, coefficient 1. *)
Definition x1 : list (list float) := [[0; 1]]%float.

(** The same dataset with other group labels. *)
Definition with_groups (cf : configs float) (g : list string)
  : configs float :=
  {| Group := g; NumAtoms := NumAtoms cf; AtomTypes := AtomTypes cf;
     Energy := Energy cf; ref_Energy := ref_Energy cf; Volume := Volume cf;
     Stress := Stress cf; ref_Stress := ref_Stress cf; Forces := Forces cf;
     ref_Forces := ref_Forces cf; b_sum := b_sum cf; db_atom := db_atom cf;
     vb_sum := vb_sum cf; eweight := eweight cf; fweight := fweight cf;
     vweight := vweight cf |}.

(** A real group that has the name of the entry for all groups. *)
Definition cfg_ALL : configs float := with_groups cfg1 ["*ALL"; "b"]%string.

(** A real group with the name that the guard looks for. *)
Definition cfg_All : configs float := with_groups cfg1 ["*All"; "b"]%string.

(** The dataset of the row-count example: two atom types, three
    coefficients, two configurations of two and three atoms. *)
Definition cfg2 : configs float := {|
  Group := ["a"; "b"]%string;
  NumAtoms := [2; 3]%Z;
  AtomTypes := [[1; 2]; [1; 1; 2]]%Z;
  Energy := [2; 4]%float;
  ref_Energy := [1; 1]%float;
  Volume := [2; 4]%float;
  Stress := [[[11;12;13];[21;22;23];[31;32;33]];
             [[1;2;3];[4;5;6];[7;8;9]]]%float;
  ref_Stress := [[1;1;1;1;1;1]; [0;0;0;0;0;0]]%float;
  Forces := [repeat [1;2;3] 2; repeat [4;5;6] 3]%float;
  ref_Forces := [repeat [0;0;0] 2; repeat [1;1;1] 3]%float;
  b_sum := repeat (repeat [1;2;3] 2) 2;
  db_atom := [repeat (repeat (repeat [1;2;3] 2) 3) 2;
              repeat (repeat (repeat [1;2;3] 2) 3) 3]%float;
  vb_sum := repeat (repeat (repeat [1;2;3] 2) 6) 2;
  eweight := 0%nat; fweight := 1%nat; vweight := 2%nat |}%float.

Definition heap2 : heap float := [[0.5; 0]; [1; 2]; [3; 4]]%float.

End Sample.


(** Further sample data. *)

Module MoreSample.

(** The options without the cross-validation rows. *)
Definition opts0 : options float := {|
  compute_testerrs := false; normweight := 0%float; normratio := 0%float;
  SGDPrior := false; SGDPriorBeta := [] |}.

(** An energy system of two rows for one atom type and one coefficient,
    with its weights at location 0. *)
Definition sys1 : subsystem float := {|
  sysA := [[[0; 1]]; [[0; 3]]]%float;
  sysb := [2; 4]%float;
  sysw := 0%nat |}.

(** A store whose first array holds only zeros. *)
Definition heap0 : heap float := [[0; 0]]%float.

(** A fit for two atom types and three coefficients, with offsets. *)
Definition x2 : list (list float) := [[0; 1; 1; 1]; [0; 1; 1; 1]]%float.

(** A solver that returns the weighted target as coefficients. *)
Definition echo (Aw : list (list float)) (bw : list float)
  : result (list float * unit) := Ok (bw, tt).

(** Forces of two configurations, of two atoms and of one atom. *)
Definition ragged1 : shaped float :=
  Ragged [[[1; 2; 3]; [4; 5; 6]]; [[7; 8; 9]]]%float.

End MoreSample.
(** * Properties *)

(** ** Lists and results *)


Lemma map2_length {A B C} (f : A -> B -> C) xs ys :
  List.length (map2 f xs ys) = Nat.min (List.length xs) (List.length ys).
Proof.
  revert ys; induction xs as [|x xs IH]; intros [|y ys]; simpl; auto.
Qed.

Lemma bcast2_same_length {A B C} (f : A -> B -> C) xs ys :
  List.length xs = List.length ys -> bcast2 f xs ys = Ok (map2 f xs ys).
Proof.
  intros E. unfold bcast2. rewrite E, Nat.eqb_refl. reflexivity.
Qed.

Lemma rmapM_ok {A B} (f : A -> result B) (g : A -> B) l :
  Forall (fun a => f a = Ok (g a)) l -> rmapM f l = Ok (map g l).
Proof.
  induction 1 as [|a l Ha _ IH]; simpl; [reflexivity|].
  rewrite Ha; simpl. rewrite IH; reflexivity.
Qed.

Lemma rmapM_id_map2 {A B C} (f : A -> B -> result C) (g : A -> B -> C)
  xs ys :
  List.length xs = List.length ys ->
  (forall i x y, nth_error xs i = Some x -> nth_error ys i = Some y ->
                 f x y = Ok (g x y)) ->
  rmapM (fun r => r) (map2 f xs ys) = Ok (map2 g xs ys).
Proof.
  revert ys; induction xs as [|x xs IH]; intros [|y ys] E H; simpl in *;
    try discriminate; [reflexivity|].
  rewrite (H 0%nat x y eq_refl eq_refl); simpl.
  rewrite IH; [reflexivity | lia |].
  intros i a b Ha Hb. apply (H (S i)); assumption.
Qed.

Lemma bcast2M_same_length {A B C} (f : A -> B -> result C)
  (g : A -> B -> C) xs ys :
  List.length xs = List.length ys ->
  (forall i x y, nth_error xs i = Some x -> nth_error ys i = Some y ->
                 f x y = Ok (g x y)) ->
  bcast2M f xs ys = Ok (map2 g xs ys).
Proof.
  intros E H. unfold bcast2M. rewrite bcast2_same_length by assumption.
  simpl. apply rmapM_id_map2; assumption.
Qed.

Lemma length_concat_const {A} (ls : list (list A)) k :
  Forall (fun l => List.length l = k) ls ->
  List.length (concat ls) = (List.length ls * k)%nat.
Proof.
  induction 1 as [|l ls Hl _ IH]; simpl; [reflexivity|].
  rewrite length_app, Hl, IH. reflexivity.
Qed.

Lemma np_repeat_length {A} (v : list A) k :
  List.length (np_repeat v k) = (List.length v * k)%nat.
Proof.
  unfold np_repeat. induction v as [|a v IH]; simpl; [reflexivity|].
  rewrite length_app, repeat_length, IH. reflexivity.
Qed.

Lemma Forall_map2 {A B C} (P : C -> Prop) (f : A -> B -> C) xs ys :
  (forall i x y, nth_error xs i = Some x -> nth_error ys i = Some y ->
                 P (f x y)) ->
  Forall P (map2 f xs ys).
Proof.
  revert ys; induction xs as [|x xs IH]; intros [|y ys] H; simpl;
    constructor.
  - apply (H 0%nat); reflexivity.
  - apply IH. intros i a b Ha Hb. apply (H (S i)); assumption.
Qed.

Lemma map2_map_l {A A' B C} (f : A' -> B -> C) (g : A -> A') xs ys :
  map2 f (map g xs) ys = map2 (fun x y => f (g x) y) xs ys.
Proof.
  revert ys; induction xs as [|x xs IH]; intros [|y ys]; simpl; auto.
  now rewrite IH.
Qed.

(** ** The atom type columns *)

Section OffsetProof.
Context {F : Type} {NF : Num F} {RF : Reduction F}.

Lemma eye_row_indexable n t :
  indexable n t -> @eye_row F _ n (t - 1) = Ok (onehot n (type_row n t)).
Proof.
  unfold indexable, eye_row, onehot, type_row. intros [H1 H2].
  replace (- Z.of_nat n <=? t - 1)%Z with true by (symmetry; apply Z.leb_le; lia).
  replace (t - 1 <? Z.of_nat n)%Z with true by (symmetry; apply Z.ltb_lt; lia).
  reflexivity.
Qed.

Lemma eye_row_retype n t :
  (1 <= n)%nat -> @eye_row F _ n (retype n t - 1) = eye_row n (t - 1).
Proof.
  intros Hn. unfold retype. destruct (Z.eqb_spec t 0) as [->|]; [|reflexivity].
  assert (Hlast : indexable n (Z.of_nat n)) by (unfold indexable; lia).
  assert (Hzero : indexable n 0) by (unfold indexable; lia).
  rewrite (eye_row_indexable Hlast), (eye_row_indexable Hzero).
  do 2 f_equal. unfold type_row.
  destruct (Z.ltb_spec (Z.of_nat n - 1) 0), (Z.ltb_spec (0 - 1) 0); lia.
Qed.

Lemma rmapM_ext {A B} (f g : A -> result B) l :
  (forall a, In a l -> f a = g a) -> rmapM f l = rmapM g l.
Proof.
  induction l as [|a l IH]; intros H; simpl; [reflexivity|].
  rewrite (H a (or_introl eq_refl)), IH; [reflexivity|].
  intros b Hb; apply H; right; exact Hb.
Qed.

Lemma rmapM_map {A B C} (f : B -> result C) (g : A -> B) l :
  rmapM f (map g l) = rmapM (fun a => f (g a)) l.
Proof.
  induction l as [|a l IH]; simpl; [reflexivity|]. now rewrite IH.
Qed.

Lemma energy_type_offset_retype (A : list (list (list F))) row0 rest
  (AtomTypes : list (list Z)) :
  A = row0 :: rest -> (1 <= List.length row0)%nat ->
  energy_type_offset A (map (map (retype (List.length row0))) AtomTypes)
  = energy_type_offset A AtomTypes.
Proof.
  intros -> Hn. unfold energy_type_offset.
  rewrite rmapM_map.
  erewrite rmapM_ext; [reflexivity|].
  intros ts _. cbv beta. rewrite rmapM_map.
  erewrite rmapM_ext; [reflexivity|].
  intros t _. cbv beta. apply eye_row_retype; exact Hn.
Qed.

Lemma energy_type_offset_indexable (A : list (list (list F))) row0 rest
  (AtomTypes : list (list Z)) :
  A = row0 :: rest ->
  List.length AtomTypes = List.length A ->
  Forall (Forall (indexable (List.length row0))) AtomTypes ->
  energy_type_offset A AtomTypes
  = Ok (map2 (fun fr a => map2 (fun v c => v :: c) fr a)
             (map (type_fractions (List.length row0)) AtomTypes) A).
Proof.
  intros -> HL HI. unfold energy_type_offset.
  set (n := List.length row0) in *.
  rewrite (@rmapM_ok _ _ _
             (fun ts => sum_axis0 n (map (fun t => onehot n (type_row n t)) ts))).
  2:{ eapply Forall_impl; [|exact HI]. intros ts Hts; cbv beta.
      rewrite (@rmapM_ok _ _ _ (fun t => onehot n (type_row n t))).
      - reflexivity.
      - eapply Forall_impl; [|exact Hts]. intros t; apply eye_row_indexable. }
  cbn [rbind].
  assert (Hs : forall l : list (list F),
             List.length l = List.length (row0 :: rest) -> np_stack l = Ok l).
  { intros [|? ?] E; [discriminate E | reflexivity]. }
  rewrite Hs by (rewrite length_map; exact HL).
  cbn [rbind]. rewrite !length_map, HL, Nat.eqb_refl.
  f_equal. rewrite map_map. reflexivity.
Qed.

End OffsetProof.

(** *** Sums in any order *)

Section Sums.
Context {F : Type} {NF : Num F} {RF : Reduction F}.

Lemma sums_to_perm (l l' : list F) (a : F) :
  Permutation l l' -> sums_to l a -> sums_to l' a.
Proof.
  intros HP H. revert l' HP.
  induction H as [x | l l1 l2 a b Hl H1 _ H2 _]; intros l' HP.
  - apply Permutation_length_1_inv in HP. subst l'. constructor.
  - apply (sums_split (l1 := l1) (l2 := l2)); [|exact H1 | exact H2].
    transitivity l; [symmetry; exact HP | exact Hl].
Qed.

Lemma fold_sums_to (r l : list F) (a : F) :
  sums_to l a -> sums_to (l ++ r) (fold_left add r a).
Proof.
  revert l a. induction r as [|y r IH]; intros l a H.
  - rewrite app_nil_r. exact H.
  - cbn [fold_left].
    replace (l ++ y :: r) with ((l ++ [y]) ++ r)
      by (rewrite <- app_assoc; reflexivity).
    apply IH. apply (sums_split (l1 := l) (l2 := [y]));
      [reflexivity | exact H | constructor].
Qed.

Lemma positions_values {A} (v : list A) (k : nat) :
  map snd (combine (seq k (List.length v)) v) = v.
Proof.
  revert k. induction v as [|x v IH]; intros k; [reflexivity|].
  cbn [List.length seq combine map snd]. rewrite IH. reflexivity.
Qed.

Lemma split_by_positions {A} (m : nat * A -> bool) (iv : list (nat * A)) :
  Permutation (map snd iv)
              (map snd (filter m iv)
               ++ map snd (filter (fun ix => negb (m ix)) iv)).
Proof.
  induction iv as [|ix iv IH]; [constructor|].
  cbn [filter map]. destruct (m ix); cbn [negb map app].
  - constructor. exact IH.
  - apply Permutation_cons_app. exact IH.
Qed.

Lemma sum_by_sums_to (p : plan) :
  forall v : list F, v <> [] -> sums_to v (sum_by p v).
Proof.
  induction p as [|first a IHa b IHb]; intros v Hv.
  - destruct v as [|x r]; [congruence|]. cbn [sum_by].
    apply (@fold_sums_to r [x] x). constructor.
  - cbn [sum_by].
    pose proof (split_by_positions (fun ix : nat * F => first (fst ix))
                  (combine (seq 0 (List.length v)) v)) as HP.
    rewrite positions_values in HP.
    destruct (map snd (filter (fun ix : nat * F => first (fst ix))
                              (combine (seq 0 (List.length v)) v)))
      as [|x1 v1];
      destruct (map snd (filter (fun ix : nat * F => negb (first (fst ix)))
                                (combine (seq 0 (List.length v)) v)))
      as [|x2 v2].
    + apply Permutation_sym, Permutation_nil in HP. congruence.
    + apply (sums_to_perm (Permutation_sym HP)). apply IHb. discriminate.
    + rewrite app_nil_r in HP.
      apply (sums_to_perm (Permutation_sym HP)). apply IHa. discriminate.
    + apply (sums_split HP); [apply IHa | apply IHb]; discriminate.
Qed.

Lemma np_sum_empty : np_sum (@nil F) = zero.
Proof.
  unfold np_sum. generalize (sum_plan (List.length (@nil F))).
  induction p as [|first a IHa b IHb]; [reflexivity | exact IHb].
Qed.

(** [np.sum] of an array that is not empty adds up its elements. *)
Lemma np_sum_sums_to (v : list F) : v <> [] -> sums_to v (np_sum v).
Proof. apply sum_by_sums_to. Qed.

(** What every element has and [add] keeps, the sum has. *)
Lemma sums_to_invariant (P : F -> Prop) :
  (forall x y, P x -> P y -> P (add x y)) ->
  forall l a, sums_to l a -> Forall P l -> P a.
Proof.
  intros Hadd l a H.
  induction H as [x | l l1 l2 a b Hl _ IH1 _ IH2]; intros HF.
  - inversion HF; assumption.
  - apply (Permutation_Forall Hl), Forall_app in HF as [HF1 HF2].
    apply Hadd; [apply IH1 | apply IH2]; assumption.
Qed.

Lemma np_sum_invariant (P : F -> Prop) (v : list F) :
  (forall x y, P x -> P y -> P (add x y)) ->
  v <> [] -> Forall P v -> P (np_sum v).
Proof.
  intros Hadd Hv HF.
  exact (sums_to_invariant Hadd (np_sum_sums_to Hv) HF).
Qed.

Lemma list_sum_perm (ks ks' : list nat) :
  Permutation ks ks' -> list_sum ks = list_sum ks'.
Proof.
  induction 1; cbn [list_sum fold_right] in *; try lia.
  unfold list_sum in *. cbn [fold_right]. lia.
Qed.

(** Sums of elements that stand for counts: when adding two of them is
    exact as long as the total stays within [bound], the sum stands for
    the total count, in whatever order it is taken. *)
Lemma sums_to_measure (R : F -> nat -> Prop) (bound : Z) :
  (forall x y j k, R x j -> R y k -> (Z.of_nat (j + k) <= bound)%Z ->
                   R (add x y) (j + k)%nat) ->
  forall l a, sums_to l a ->
  forall ks, Forall2 R l ks -> (Z.of_nat (list_sum ks) <= bound)%Z ->
             R a (list_sum ks).
Proof.
  intros Hadd l a H.
  induction H as [x | l l1 l2 a b Hl _ IH1 _ IH2]; intros ks HR Hb.
  - inversion HR as [|x' k l' ks' Hk Hnil]; subst.
    inversion Hnil; subst. cbn. rewrite Nat.add_0_r. exact Hk.
  - destruct (Permutation_Forall2 Hl HR) as (ks' & Hks & HR').
    apply Forall2_app_inv_l in HR' as (ks1 & ks2 & HR1 & HR2 & ->).
    rewrite (list_sum_perm Hks), list_sum_app in *.
    apply Hadd; [apply IH1 | apply IH2 | ]; try assumption; lia.
Qed.

End Sums.

(** *** Counting the atoms of a type *)

Lemma nth_onehot {F} {NF : Num F} n k j :
  (j < n)%nat ->
  nth j (@onehot F _ n k) zero = if Nat.eqb j k then one else zero.
Proof.
  intros Hj. unfold onehot.
  rewrite (nth_indep _ zero (if Nat.eqb n k then one else zero))
    by (rewrite length_map, length_seq; exact Hj).
  rewrite (map_nth (fun j => if Nat.eqb j k then one else zero)).
  rewrite seq_nth by exact Hj. reflexivity.
Qed.

Lemma list_sum_indicator n (t : Z) :
  (1 <= t <= Z.of_nat n)%Z ->
  list_sum (map (fun j => if Z.eq_dec t (Z.of_nat j + 1)%Z then 1%nat else 0%nat)
                (seq 0 n)) = 1%nat.
Proof.
  induction n as [|n IH]; intros Ht; [lia|].
  rewrite seq_S, map_app, list_sum_app. simpl.
  destruct (Z.eq_dec t (Z.of_nat n + 1)%Z) as [E|E].
  - assert (H0 : list_sum (map (fun j => if Z.eq_dec t (Z.of_nat j + 1)%Z
                                         then 1%nat else 0%nat) (seq 0 n)) = 0%nat).
    { clear IH. assert (Hall : forall j, In j (seq 0 n) -> (j < n)%nat)
        by (intros j Hj; apply in_seq in Hj; lia).
      induction (seq 0 n) as [|j l IHl]; simpl; [reflexivity|].
      destruct (Z.eq_dec t (Z.of_nat j + 1)%Z) as [E'|_].
      - specialize (Hall j (or_introl eq_refl)). lia.
      - apply IHl. intros j' Hj'; apply Hall; right; exact Hj'. }
    rewrite H0. reflexivity.
  - rewrite IH by lia. reflexivity.
Qed.

Lemma list_sum_map_add {A} (f g : A -> nat) l :
  list_sum (map (fun a => f a + g a)%nat l)
  = (list_sum (map f l) + list_sum (map g l))%nat.
Proof.
  induction l as [|a l IH]; simpl; [reflexivity|]. rewrite IH. lia.
Qed.

(** The counts of the types add up to the number of atoms. *)
Lemma count_total n (ts : list Z) :
  Forall (fun t => 1 <= t <= Z.of_nat n)%Z ts ->
  list_sum (map (type_count ts) (seq 0 n)) = List.length ts.
Proof.
  unfold type_count. induction 1 as [|t ts Ht _ IH].
  - simpl. induction (seq 0 n); simpl; auto.
  - rewrite (map_ext _
      (fun j => ((if Z.eq_dec t (Z.of_nat j + 1)%Z then 1 else 0)
                 + count_occ Z.eq_dec ts (Z.of_nat j + 1)%Z)%nat)).
    + rewrite list_sum_map_add, IH, (@list_sum_indicator n t Ht). reflexivity.
    + intros j. simpl. destruct (Z.eq_dec t (Z.of_nat j + 1)%Z); reflexivity.
Qed.

Lemma indicator_count (ts : list Z) n j :
  Forall (fun t => 1 <= t <= Z.of_nat n)%Z ts ->
  list_sum (map (fun t => if Nat.eqb j (type_row n t) then 1 else 0)%nat ts)
  = type_count ts j.
Proof.
  unfold type_count. induction 1 as [|t ts Ht _ IH]; [reflexivity|].
  cbn [map list_sum fold_right count_occ]. unfold list_sum in IH.
  rewrite IH.
  assert (Hr : type_row n t = Z.to_nat (t - 1)%Z).
  { unfold type_row. destruct (Z.ltb_spec (t - 1) 0)%Z; [lia | reflexivity]. }
  rewrite Hr.
  destruct (Z.eq_dec t (Z.of_nat j + 1)%Z) as [->|Hne].
  - replace (Z.to_nat (Z.of_nat j + 1 - 1)%Z) with j by lia.
    rewrite Nat.eqb_refl. reflexivity.
  - destruct (Nat.eqb_spec j (Z.to_nat (t - 1)%Z)); [lia | reflexivity].
Qed.

Lemma nth_error_map2 {A B C} (f : A -> B -> C) xs ys i x y :
  nth_error xs i = Some x -> nth_error ys i = Some y ->
  nth_error (map2 f xs ys) i = Some (f x y).
Proof.
  revert ys i; induction xs as [|a xs IH]; intros [|b ys] [|i] Hx Hy;
    simpl in *; try discriminate.
  - congruence.
  - apply IH; assumption.
Qed.

Lemma offset_column {F} {NF : Num F} (fr : list F) (a : list (list F)) :
  List.length fr = List.length a ->
  map (hd zero) (map2 (fun v c => v :: c) fr a) = fr.
Proof.
  revert a; induction fr as [|v fr IH]; intros [|c a] E; simpl in *;
    try discriminate; [reflexivity|].
  rewrite IH by lia. reflexivity.
Qed.

Lemma type_fractions_length {F} {NF : Num F} {RF : Reduction F} n ts :
  List.length (@type_fractions F _ _ n ts) = n.
Proof.
  unfold type_fractions, sum_axis0. rewrite !length_map, length_seq.
  reflexivity.
Qed.

(** *** Arithmetic that counts exactly *)

Section ExactCounts.
Context {F : Type} {NF : Num F} {RF : Reduction F}.
Variable bound : Z.
Hypothesis of_int_0 : of_int 0 = zero.
Hypothesis of_int_1 : of_int 1 = one.
Hypothesis exact_add :
  forall j k : nat,
    (Z.of_nat (j + k) <= bound)%Z ->
    add (of_int (Z.of_nat j)) (of_int (Z.of_nat k))
    = of_int (Z.of_nat (j + k)).

Lemma np_sum_counts (ks : list nat) :
  (Z.of_nat (list_sum ks) <= bound)%Z ->
  np_sum (map (fun k => of_int (Z.of_nat k)) ks)
  = of_int (Z.of_nat (list_sum ks)).
Proof.
  intros Hb. destruct ks as [|k0 ks].
  - cbn [map list_sum fold_right]. rewrite np_sum_empty. symmetry.
    exact of_int_0.
  - apply (@sums_to_measure F NF (fun x k => x = of_int (Z.of_nat k)) bound)
      with (l := map (fun k => of_int (Z.of_nat k)) (k0 :: ks)).
    + intros x y j k -> -> Hjk. apply exact_add. exact Hjk.
    + apply np_sum_sums_to. discriminate.
    + clear Hb. induction (k0 :: ks) as [|k l IH]; constructor;
        [reflexivity | exact IH].
    + exact Hb.
Qed.

Lemma type_counts_exact n (ts : list Z) :
  Forall (fun t => 1 <= t <= Z.of_nat n)%Z ts ->
  (Z.of_nat (List.length ts) <= bound)%Z ->
  sum_axis0 n (map (fun t => onehot n (type_row n t)) ts)
  = map (fun j => of_int (Z.of_nat (type_count ts j))) (seq 0 n).
Proof.
  intros Hts Hb. unfold sum_axis0. apply map_ext_in. intros j Hj.
  apply in_seq in Hj. rewrite map_map.
  rewrite (map_ext _ (fun t => of_int (Z.of_nat
                        (if Nat.eqb j (type_row n t) then 1 else 0)%nat))).
  2:{ intros t. rewrite nth_onehot by lia.
      destruct (Nat.eqb j (type_row n t)); symmetry; assumption. }
  rewrite <- (map_map (fun t => (if Nat.eqb j (type_row n t)
                                 then 1 else 0)%nat)
                      (fun k => of_int (Z.of_nat k))).
  rewrite np_sum_counts; rewrite (@indicator_count ts n j Hts);
    [reflexivity|].
  unfold type_count.
  pose proof (count_occ_bound Z.eq_dec (Z.of_nat j + 1)%Z ts). lia.
Qed.

(** The fractions that [energy_type_offset] computes are the counts of
    the types divided by the number of atoms. *)
Lemma type_fractions_exact n (ts : list Z) :
  Forall (fun t => 1 <= t <= Z.of_nat n)%Z ts ->
  (Z.of_nat (List.length ts) <= bound)%Z ->
  type_fractions n ts = count_fractions n ts.
Proof.
  intros Hts Hb. unfold type_fractions, count_fractions.
  rewrite (@type_counts_exact n ts Hts Hb).
  rewrite <- (map_map (type_count ts) (fun k => of_int (Z.of_nat k))).
  rewrite np_sum_counts; rewrite (@count_total n ts Hts); [|exact Hb].
  rewrite !map_map. reflexivity.
Qed.

End ExactCounts.

(** *** float64 adds integers below 2^53 exactly *)

Section FloatCounts.
Local Open Scope Z_scope.

Lemma digits2_log2 (p : positive) :
  Zpos (digits2_pos p) = Z.log2 (Zpos p) + 1.
Proof.
  assert (H : forall q, digits2_pos q = Pos.size q)
    by (induction q; simpl; congruence).
  destruct p; simpl; rewrite ?H; lia.
Qed.

Lemma iter_xO_Z (p n : positive) :
  Zpos (Pos.iter xO p n) = Zpos p * 2 ^ Zpos n.
Proof.
  rewrite <- Z.shiftl_mul_pow2 by lia. unfold Z.shiftl.
  apply (Pos.iter_swap_gen _ _ Zpos xO (Z.mul 2)). reflexivity.
Qed.

Lemma shr_exact (n q : positive) :
  iter_pos shr_1 n
    {| shr_m := Zpos (Pos.iter xO q n); shr_r := false; shr_s := false |}
  = {| shr_m := Zpos q; shr_r := false; shr_s := false |}.
Proof.
  revert q. induction n as [n IH|n IH|]; intros q; simpl.
  - rewrite !IH. reflexivity.
  - rewrite !IH. reflexivity.
  - reflexivity.
Qed.

(** The float of a mantissa of 53 digits. *)
Lemma round_canonical (m : positive) (e : Z) :
  Zpos (digits2_pos m) = 53 -> -1074 <= e <= 971 ->
  binary_round_aux prec emax false (Zpos m) e loc_Exact
  = S754_finite false m e.
Proof.
  intros Hd He. unfold binary_round_aux, shr_fexp, fexp, emin.
  cbn [Zdigits2 shr_record_of_loc]. rewrite Hd.
  change prec with 53. change emax with 1024.
  replace (Z.max (53 + e - 53) (3 - 1024 - 53) - e) with 0 by lia.
  cbn [shr loc_of_shr_record shr_m shr_r shr_s round_nearest_even Zdigits2].
  rewrite Hd.
  replace (Z.max (53 + e - 53) (3 - 1024 - 53) - e) with 0 by lia.
  cbn [shr shr_m].
  replace (e <=? 1024 - 53) with true by (symmetry; apply Z.leb_le; lia).
  reflexivity.
Qed.

(** Rounding a mantissa with at most 53 significant digits above its
    trailing zeros is exact. *)
Lemma round_exact (M q : positive) (ez n : Z) :
  0 <= n -> Zpos M = Zpos q * 2 ^ n ->
  Zpos (digits2_pos q) = 53 ->
  -1074 <= ez -> ez + n <= 971 ->
  binary_round_aux prec emax false (Zpos M) ez loc_Exact
  = S754_finite false q (ez + n).
Proof.
  intros Hn HM Hq He1 He2.
  assert (HdM : Zpos (digits2_pos M) = 53 + n).
  { rewrite digits2_log2, HM, Z.log2_mul_pow2 by lia.
    rewrite digits2_log2 in Hq. lia. }
  destruct n as [|n|n]; [|clear Hn|lia].
  - rewrite Z.add_0_r. assert (M = q) by lia. subst M.
    apply round_canonical; lia.
  - assert (M = Pos.iter xO q n)
      by (apply Pos2Z.inj; rewrite iter_xO_Z; exact HM).
    subst M.
    unfold binary_round_aux, shr_fexp, fexp, emin.
    cbn [Zdigits2 shr_record_of_loc]. rewrite HdM.
    change prec with 53. change emax with 1024.
    replace (Z.max (53 + Z.pos n + ez - 53) (3 - 1024 - 53) - ez)
      with (Zpos n) by lia.
    cbn [shr]. rewrite shr_exact.
    cbn [loc_of_shr_record shr_m shr_r shr_s round_nearest_even Zdigits2].
    rewrite Hq.
    replace (Z.max (53 + (ez + Z.pos n) - 53) (3 - 1024 - 53)
             - (ez + Z.pos n)) with 0 by lia.
    cbn [shr shr_m].
    replace (ez + Z.pos n <=? 1024 - 53) with true
      by (symmetry; apply Z.leb_le; lia).
    reflexivity.
Qed.

Lemma shiftl_Z (p : positive) (k : Z) :
  0 <= k -> Zpos (Pos.shiftl p (Z.to_N k)) = Zpos p * 2 ^ k.
Proof.
  intros Hk. destruct k as [|k|k]; [simpl; lia | | lia].
  simpl. apply iter_xO_Z.
Qed.

Lemma digits_bound (p : positive) :
  Zpos p < 2 ^ 53 -> 1 <= Zpos (digits2_pos p) <= 53.
Proof.
  intros H. rewrite digits2_log2.
  assert (0 <= Z.log2 (Zpos p)) by apply Z.log2_nonneg.
  apply Z.log2_lt_pow2 in H; lia.
Qed.

Lemma digits_shiftl (p : positive) (k : Z) :
  0 <= k ->
  Zpos (digits2_pos (Pos.shiftl p (Z.to_N k))) = Zpos (digits2_pos p) + k.
Proof.
  intros Hk. rewrite !digits2_log2, shiftl_Z, Z.log2_mul_pow2 by lia. lia.
Qed.

Lemma shl_align_spec (m : positive) (e e' : Z) :
  e' <= e ->
  shl_align m e e' = (Pos.shiftl m (Z.to_N (e - e')), e').
Proof.
  intros H. unfold shl_align.
  destruct (e' - e) as [|k|k] eqn:E; [|lia|].
  - assert (e = e') by lia. subst. rewrite Z.sub_diag. reflexivity.
  - replace (e - e') with (Zpos k) by lia. reflexivity.
Qed.

Lemma shl_align_id (m : positive) (e e' : Z) :
  e <= e' -> shl_align m e e' = (m, e).
Proof.
  intros H. unfold shl_align. destruct (e' - e) eqn:E; try reflexivity. lia.
Qed.

Lemma normalize_canon (p : positive) :
  Zpos p < 2 ^ 53 ->
  binary_normalize prec emax (Zpos p) 0 false = canon p.
Proof.
  intros Hp. pose proof (@digits_bound p Hp) as Hd.
  unfold binary_normalize, binary_round, canon, fexp, emin.
  change prec with 53. change emax with 1024.
  rewrite Z.add_0_r.
  replace (Z.max (Zpos (digits2_pos p) - 53) (3 - 1024 - 53))
    with (Zpos (digits2_pos p) - 53) by lia.
  rewrite shl_align_spec by lia.
  rewrite Z.sub_0_l, Z.opp_sub_distr, Z.add_comm, Z.add_opp_r.
  apply round_canonical; [|lia].
  rewrite digits_shiftl by lia. lia.
Qed.

Lemma canon_valid (p : positive) :
  Zpos p < 2 ^ 53 -> valid_binary (canon p) = true.
Proof.
  intros Hp. pose proof (@digits_bound p Hp) as Hd.
  unfold canon, valid_binary, SpecFloat.valid_binary, bounded, canonical_mantissa, fexp, emin.
  change prec with 53. change emax with 1024.
  rewrite digits_shiftl by lia.
  apply andb_true_intro. split; [apply Z.eqb_eq | apply Z.leb_le]; lia.
Qed.

Lemma Prim2SF_float_of_Z (p : positive) :
  Zpos p < 2 ^ 53 -> Prim2SF (float_of_Z (Zpos p)) = canon p.
Proof.
  intros Hp. unfold float_of_Z. rewrite normalize_canon by exact Hp.
  apply Prim2SF_SF2Prim, canon_valid. exact Hp.
Qed.

Lemma canon_add (a b : positive) :
  Zpos a + Zpos b < 2 ^ 53 ->
  SFadd prec emax (canon a) (canon b) = canon (a + b).
Proof.
  intros Hab.
  assert (Ha : Zpos a < 2 ^ 53) by lia.
  assert (Hb : Zpos b < 2 ^ 53) by lia.
  pose proof (@digits_bound a Ha) as Hda.
  pose proof (@digits_bound b Hb) as Hdb.
  pose proof (@digits_bound (a + b)%positive Hab) as Hd.
  assert (Hma : Zpos (digits2_pos a) <= Zpos (digits2_pos (a + b))).
  { rewrite !digits2_log2.
    assert (Z.log2 (Zpos a) <= Z.log2 (Zpos (a + b)))
      by (apply Z.log2_le_mono; lia). lia. }
  assert (Hmb : Zpos (digits2_pos b) <= Zpos (digits2_pos (a + b))).
  { rewrite !digits2_log2.
    assert (Z.log2 (Zpos b) <= Z.log2 (Zpos (a + b)))
      by (apply Z.log2_le_mono; lia). lia. }
  unfold canon at 1 2. unfold SFadd.
  set (da := Zpos (digits2_pos a)) in *.
  set (db := Zpos (digits2_pos b)) in *.
  set (d := Zpos (digits2_pos (a + b))) in *.
  set (ez := Z.min (da - 53) (db - 53)).
  rewrite !shl_align_spec by lia. cbn [fst cond_Zopp].
  set (Ma := Pos.shiftl (Pos.shiftl a (Z.to_N (53 - da)))
                        (Z.to_N (da - 53 - ez))).
  set (Mb := Pos.shiftl (Pos.shiftl b (Z.to_N (53 - db)))
                        (Z.to_N (db - 53 - ez))).
  assert (HMa : Zpos Ma = Zpos a * 2 ^ (- ez)).
  { unfold Ma. rewrite !shiftl_Z by lia.
    rewrite <- Z.mul_assoc, <- Z.pow_add_r by lia. f_equal. f_equal. lia. }
  assert (HMb : Zpos Mb = Zpos b * 2 ^ (- ez)).
  { unfold Mb. rewrite !shiftl_Z by lia.
    rewrite <- Z.mul_assoc, <- Z.pow_add_r by lia. f_equal. f_equal. lia. }
  change (Zpos Ma + Zpos Mb) with (Zpos (Ma + Mb)).
  assert (HM : Zpos (Ma + Mb) = Zpos (a + b) * 2 ^ (- ez)).
  { rewrite !Pos2Z.inj_add, HMa, HMb. ring. }
  assert (HdM : Zpos (digits2_pos (Ma + Mb)) = d - ez).
  { rewrite digits2_log2, HM, Z.log2_mul_pow2 by lia.
    unfold d. rewrite digits2_log2. lia. }
  unfold binary_normalize, binary_round, fexp, emin.
  change prec with 53. change emax with 1024.
  rewrite HdM.
  replace (Z.max (d - ez + ez - 53) (3 - 1024 - 53)) with (d - 53) by lia.
  rewrite shl_align_id by lia.
  unfold canon. fold d.
  replace (d - 53) with (ez + (d - 53 - ez)) by lia.
  apply (@round_exact (Ma + Mb) (Pos.shiftl (a + b) (Z.to_N (53 - d)))
                     ez (d - 53 - ez)); try lia.
  - rewrite shiftl_Z, HM by lia.
    rewrite <- Z.mul_assoc, <- Z.pow_add_r by lia. f_equal. f_equal. lia.
  - rewrite digits_shiftl by lia. fold d. lia.
Qed.

Lemma float_of_Z_add (j k : Z) :
  0 <= j -> 0 <= k -> j + k < 2 ^ 53 ->
  (float_of_Z j + float_of_Z k)%float = float_of_Z (j + k).
Proof.
  intros Hj Hk Hjk.
  destruct j as [|a|a]; [|clear Hj|lia].
  - cbn [Z.add]. apply Prim2SF_inj. rewrite add_spec.
    change (Prim2SF (float_of_Z 0)) with (S754_zero false).
    destruct k as [|b|b]; [reflexivity | | lia].
    rewrite Prim2SF_float_of_Z by lia. reflexivity.
  - destruct k as [|b|b]; [|clear Hk|lia].
    + rewrite Z.add_0_r. apply Prim2SF_inj. rewrite add_spec.
      change (Prim2SF (float_of_Z 0)) with (S754_zero false).
      rewrite Prim2SF_float_of_Z by lia. reflexivity.
    + apply Prim2SF_inj. rewrite add_spec.
      change (Z.pos a + Z.pos b) with (Zpos (a + b)) in *.
      rewrite !Prim2SF_float_of_Z by lia.
      apply canon_add. lia.
Qed.

End FloatCounts.

Lemma float_exact_add (j k : nat) :
  (Z.of_nat (j + k) <= 2 ^ 53 - 1)%Z ->
  add (of_int (Z.of_nat j)) (of_int (Z.of_nat k))
  = (of_int (Z.of_nat (j + k)) : float).
Proof.
  intros H. rewrite Nat2Z.inj_add in *.
  apply float_of_Z_add; lia.
Qed.

Lemma float_of_int_0 : of_int 0 = (zero : float).
Proof. vm_compute. reflexivity. Qed.

Lemma float_of_int_1 : of_int 1 = (one : float).
Proof. vm_compute. reflexivity. Qed.

(** *** The offset column on float64 *)

Section FloatOffsets.
Context {RF : Reduction float}.

(** For type ids in [1, n_types] the offset entries of a configuration
    are the counts of its types divided by its number of atoms, whatever
    the order of the sums. *)
Lemma offset_rows_float (A : list (list (list float)))
  (row0 : list (list float)) (rest : list (list (list float)))
  (AtomTypes : list (list Z)) :
  A = row0 :: rest ->
  Forall (fun r => List.length r = List.length row0) A ->
  List.length AtomTypes = List.length A ->
  Forall (Forall (fun t => 1 <= t <= Z.of_nat (List.length row0))%Z)
         AtomTypes ->
  Forall (fun ts => (Z.of_nat (List.length ts) < 2 ^ 53)%Z) AtomTypes ->
  exists A',
    energy_type_offset A AtomTypes = Ok A'
    /\ forall i ts, nth_error AtomTypes i = Some ts ->
         exists row,
           nth_error A' i = Some row
           /\ map (hd zero) row
              = count_fractions (List.length row0) ts.
Proof.
  intros HA Hrect HL Hids Hsmall.
  eexists; split.
  - apply (energy_type_offset_indexable HA HL).
    eapply Forall_impl; [|exact Hids]. intros ts Hts.
    eapply Forall_impl; [|exact Hts]. intros t Ht.
    unfold indexable. cbv beta in Ht. lia.
  - intros i ts Hi.
    assert (Hin : In ts AtomTypes) by (eapply nth_error_In; exact Hi).
    assert (Hts : Forall (fun t => 1 <= t <= Z.of_nat (List.length row0))%Z ts)
      by (rewrite Forall_forall in Hids; apply Hids; exact Hin).
    assert (Hb : (Z.of_nat (List.length ts) <= 2 ^ 53 - 1)%Z)
      by (rewrite Forall_forall in Hsmall; specialize (Hsmall ts Hin); lia).
    destruct (nth_error A i) as [a|] eqn:Ha.
    2:{ apply nth_error_None in Ha.
        assert (i < List.length AtomTypes)%nat
          by (apply nth_error_Some; congruence). lia. }
    assert (Hlen : List.length a = List.length row0).
    { rewrite Forall_forall in Hrect. apply Hrect.
      eapply nth_error_In; exact Ha. }
    eexists; split.
    + apply nth_error_map2; [|exact Ha].
      rewrite nth_error_map, Hi. reflexivity.
    + rewrite offset_column by (rewrite type_fractions_length; lia).
      apply (@type_fractions_exact float _ RF (2 ^ 53 - 1)%Z
               float_of_int_0 float_of_int_1 float_exact_add); assumption.
Qed.

(** C9 as amended: when the type ids are in [1, n_types], the offset
    column of a configuration holds for every type the float64 quotient
    of the number of its atoms of that type by its number of atoms,
    whatever the order of the sums; the counts add up to the number of
    atoms. *)
Theorem energy_type_offset_fractions (A : list (list (list float)))
  (row0 : list (list float)) (rest : list (list (list float)))
  (AtomTypes : list (list Z)) :
  A = row0 :: rest ->
  Forall (fun r => List.length r = List.length row0) A ->
  List.length AtomTypes = List.length A ->
  Forall (Forall (fun t => 1 <= t <= Z.of_nat (List.length row0))%Z)
         AtomTypes ->
  Forall (fun ts => (Z.of_nat (List.length ts) < 2 ^ 53)%Z) AtomTypes ->
  exists A',
    energy_type_offset A AtomTypes = Ok A'
    /\ forall i ts, nth_error AtomTypes i = Some ts ->
         exists row,
           nth_error A' i = Some row
           /\ map (hd zero) row
              = map (fun j =>
                       (float_of_Z (Z.of_nat (type_count ts j))
                        / float_of_Z (Z.of_nat (List.length ts)))%float)
                    (seq 0 (List.length row0))
           /\ list_sum (map (type_count ts) (seq 0 (List.length row0)))
              = List.length ts.
Proof.
  intros HA Hrect HL Hids Hsmall.
  destruct (offset_rows_float HA Hrect HL Hids Hsmall) as (A' & HA' & Hrows).
  exists A'. split; [exact HA'|]. intros i ts Hi.
  destruct (Hrows i ts Hi) as (row & Hrow & Hfr).
  exists row. split; [exact Hrow|]. split; [exact Hfr|].
  apply count_total. rewrite Forall_forall in Hids. apply Hids.
  eapply nth_error_In; exact Hi.
Qed.

Lemma retype_counts (n : nat) (ts : list Z) :
  (1 <= n)%nat ->
  Forall (fun t => 0 <= t <= Z.of_nat n)%Z ts ->
  type_count (map (retype n) ts) (n - 1)
  = (count_occ Z.eq_dec ts (Z.of_nat n) + count_occ Z.eq_dec ts 0%Z)%nat
  /\ forall j, (S j < n)%nat ->
               type_count (map (retype n) ts) j = type_count ts j.
Proof.
  intros Hn Hts. unfold type_count.
  replace (Z.of_nat (n - 1) + 1)%Z with (Z.of_nat n) by lia.
  induction Hts as [|t ts Ht _ [IH1 IH2]]; [split; reflexivity|].
  cbn [map count_occ]. split.
  - rewrite IH1. unfold retype.
    destruct (Z.eqb_spec t 0);
      repeat match goal with
             | |- context [Z.eq_dec ?a ?b] => destruct (Z.eq_dec a b)
             end; lia.
  - intros j Hj. rewrite (IH2 j Hj). unfold retype.
    destruct (Z.eqb_spec t 0);
      repeat match goal with
             | |- context [Z.eq_dec ?a ?b] => destruct (Z.eq_dec a b)
             end; lia.
Qed.

(** C10 as amended: with type ids in [0, n_types], [energy_type_offset]
    returns, and an atom of type 0 is counted as an atom of the last
    type: the offset entries are the counts of the types, every 0 read
    as [n_types], divided by the number of atoms, so that the last entry
    counts the ids [n_types] and 0 and the others are as without the
    ids 0. *)
Theorem energy_type_offset_type_zero (A : list (list (list float)))
  (row0 : list (list float)) (rest : list (list (list float)))
  (AtomTypes : list (list Z)) :
  A = row0 :: rest ->
  (1 <= List.length row0)%nat ->
  Forall (fun r => List.length r = List.length row0) A ->
  List.length AtomTypes = List.length A ->
  Forall (Forall (fun t => 0 <= t <= Z.of_nat (List.length row0))%Z)
         AtomTypes ->
  Forall (fun ts => (Z.of_nat (List.length ts) < 2 ^ 53)%Z) AtomTypes ->
  exists A',
    energy_type_offset A AtomTypes = Ok A'
    /\ forall i ts, nth_error AtomTypes i = Some ts ->
         let n := List.length row0 in
         let counted := map (retype n) ts in
         exists row,
           nth_error A' i = Some row
           /\ map (hd zero) row
              = map (fun j =>
                       (float_of_Z (Z.of_nat (type_count counted j))
                        / float_of_Z (Z.of_nat (List.length ts)))%float)
                    (seq 0 n)
           /\ type_count counted (n - 1)
              = (count_occ Z.eq_dec ts (Z.of_nat n)
                 + count_occ Z.eq_dec ts 0%Z)%nat
           /\ forall j, (S j < n)%nat ->
                        type_count counted j = type_count ts j.
Proof.
  intros HA Hn Hrect HL Hids Hsmall.
  set (n := List.length row0) in *.
  assert (Hre : Forall (Forall (fun t => 1 <= t <= Z.of_nat n)%Z)
                       (map (map (retype n)) AtomTypes)).
  { apply Forall_map. eapply Forall_impl; [|exact Hids]. intros ts Hts.
    apply Forall_map. eapply Forall_impl; [|exact Hts]. intros t Ht.
    cbv beta in Ht. unfold retype. destruct (Z.eqb_spec t 0); lia. }
  assert (Hsm : Forall (fun ts => (Z.of_nat (List.length ts) < 2 ^ 53)%Z)
                       (map (map (retype n)) AtomTypes)).
  { apply Forall_map. eapply Forall_impl; [|exact Hsmall]. intros ts Hts.
    cbv beta. rewrite length_map. exact Hts. }
  destruct (@offset_rows_float A row0 rest (map (map (retype n)) AtomTypes)
              HA Hrect ltac:(rewrite length_map; exact HL) Hre Hsm)
    as (A' & HA' & Hrows).
  rewrite (energy_type_offset_retype AtomTypes HA Hn) in HA'.
  exists A'. split; [exact HA'|]. intros i ts Hi. cbv zeta.
  destruct (Hrows i (map (retype n) ts)) as (row & Hrow & Hfr).
  { rewrite nth_error_map, Hi. reflexivity. }
  exists row. split; [exact Hrow|].
  split; [rewrite Hfr; unfold count_fractions; rewrite length_map;
          reflexivity|].
  apply retype_counts; [exact Hn|].
  rewrite Forall_forall in Hids. apply Hids. eapply nth_error_In; exact Hi.
Qed.

End FloatOffsets.

(** C9 as stated fails on float64: the six fractions 1/6 of a
    configuration with one atom of each of six types do not add up to
    1.0, added from the first one on or as the first one plus the sum of
    the others. *)
Lemma offset_fractions_sum_below_one :
  match energy_type_offset [[[1]; [1]; [1]; [1]; [1]; [1]]]%float
                           [[1; 2; 3; 4; 5; 6]]%Z with
  | Ok [row] =>
      sum_by Seq (map (hd zero) row) <> 1%float
      /\ sum_by (Split (Nat.eqb 0) Seq Seq) (map (hd zero) row) <> 1%float
  | _ => False
  end.
Proof.
  vm_compute. split; intros H;
    apply (f_equal (fun v => PrimFloat.eqb v 1)) in H; vm_compute in H;
    discriminate H.
Qed.

(** C10 as stated fails when an id above [n_types] stands beside the
    id 0: the call raises. *)
Lemma type_zero_beside_high_id_raises :
  In 0%Z [0; 3]%Z
  /\ energy_type_offset [[[1]; [2]]]%float [[0; 3]]%Z = Err LibError.
Proof. split; [left; reflexivity | reflexivity]. Qed.

(** ** The subsystem assemblers *)

Lemma nktv2p_float : @_nktv2p float _ = 1.6021765e6%float.
Proof. reflexivity. Qed.

Section VoigtProof.
Context {F : Type} {NF : Num F} {RF : Reduction F}.

Lemma voigt_3x3 (S : list (list F)) :
  is_3x3 S -> voigt S = Ok (voigt_order S).
Proof.
  intros [HS HR].
  destruct S as [|r0 [|r1 [|r2 [|]]]]; try discriminate.
  inversion HR as [|? ? H0 HR1]; subst.
  inversion HR1 as [|? ? H1 HR2]; subst.
  inversion HR2 as [|? ? H2 _]; subst.
  destruct r0 as [|? [|? [|? [|]]]]; try discriminate.
  destruct r1 as [|? [|? [|? [|]]]]; try discriminate.
  destruct r2 as [|? [|? [|? [|]]]]; try discriminate.
  reflexivity.
Qed.

(** What [makeAbw_vb] returns on fields of the shapes of the data
    model. *)
Lemma makeAbw_vb_run (cf : configs F) (offset : bool)
  (conversion : option F) (h : heap F) (vw : list F) :
  Forall is_3x3 (Stress cf) ->
  Forall (fun r => List.length r = 6%nat) (ref_Stress cf) ->
  Forall (fun r => List.length r = 6%nat) (vb_sum cf) ->
  List.length (ref_Stress cf) = List.length (Stress cf) ->
  List.length (vb_sum cf) = List.length (Stress cf) ->
  List.length (Volume cf) = List.length (Stress cf) ->
  nth_error h (vweight cf) = Some vw ->
  exists s, makeAbw_vb cf offset conversion h = Ok (s, h ++ [np_repeat vw 6])
            /\ sysb s = virial_target (Stress cf) (ref_Stress cf)
            /\ List.length (sysb s) = (6 * List.length (Stress cf))%nat
            /\ List.length (sysA s) = (6 * List.length (Stress cf))%nat.
Proof.
  intros HS HR HV ER EV EVol Hw.
  assert (Hflat : rmapM voigt (Stress cf) = Ok (map voigt_order (Stress cf))).
  { apply rmapM_ok. eapply Forall_impl; [|exact HS].
    intros S; apply voigt_3x3. }
  assert (Hd : bcast2M (bcast2 sub) (map voigt_order (Stress cf))
                       (ref_Stress cf)
               = Ok (map2 (fun v r => map2 sub v r)
                          (map voigt_order (Stress cf)) (ref_Stress cf))).
  { apply bcast2M_same_length.
    - rewrite length_map; lia.
    - intros i v r Hv Hr. apply bcast2_same_length.
      apply nth_error_In in Hv, Hr.
      apply in_map_iff in Hv as (S & <- & _).
      rewrite Forall_forall in HR. rewrite (HR r Hr). reflexivity. }
  assert (Hmap : map2 (fun v r => map2 sub v r)
                      (map voigt_order (Stress cf)) (ref_Stress cf)
                 = map2 (fun S r => map2 sub (voigt_order S) r)
                        (Stress cf) (ref_Stress cf)).
  { apply map2_map_l. }
  assert (Hlen : List.length (virial_target (Stress cf) (ref_Stress cf))
                 = (6 * List.length (Stress cf))%nat).
  { unfold virial_target. rewrite (@length_concat_const _ _ 6%nat).
    - rewrite map2_length. lia.
    - apply Forall_map2. intros i S r HSi Hri.
      rewrite map2_length. apply nth_error_In in Hri.
      rewrite Forall_forall in HR. rewrite (HR r Hri). reflexivity. }
  assert (Hvb : List.length (concat (vb_sum cf))
                = (6 * List.length (Stress cf))%nat).
  { rewrite (length_concat_const HV). lia. }
  eexists. split; [|split; [|split]].
  - unfold makeAbw_vb, bind, lift, load, alloc, ret.
    rewrite bcast2_same_length
      by (rewrite np_repeat_length, Hvb; lia).
    rewrite Hflat; simpl. rewrite Hd; simpl. rewrite Hmap.
    fold (virial_target (Stress cf) (ref_Stress cf)).
    unfold reshape1. rewrite Hlen, Hvb, Nat.eqb_refl.
    rewrite Hw. reflexivity.
  - reflexivity.
  - simpl. exact Hlen.
  - cbn [sysA]. destruct offset; unfold zero_type_offset;
      destruct conversion; cbn [apply_conversion];
      rewrite ?length_map, map2_length, np_repeat_length, Hvb; lia.
Qed.

(** C7: the virial target that [makeAbw_vb] returns is, configuration by
    configuration, the entries (0,0), (1,1), (2,2), (1,2), (0,2), (0,1) of
    [Stress] minus the six entries of [ref_Stress], six rows per
    configuration. *)
Theorem makeAbw_vb_target (cf : configs F) (offset : bool)
  (conversion : option F) (h : heap F) (vw : list F) :
  Forall is_3x3 (Stress cf) ->
  Forall (fun r => List.length r = 6%nat) (ref_Stress cf) ->
  Forall (fun r => List.length r = 6%nat) (vb_sum cf) ->
  List.length (ref_Stress cf) = List.length (Stress cf) ->
  List.length (vb_sum cf) = List.length (Stress cf) ->
  List.length (Volume cf) = List.length (Stress cf) ->
  nth_error h (vweight cf) = Some vw ->
  exists s h',
    makeAbw_vb cf offset conversion h = Ok (s, h')
    /\ sysb s = virial_target (Stress cf) (ref_Stress cf)
    /\ sysb s
       = concat (map2 (fun S r =>
                         map2 sub [entry S 0 0; entry S 1 1; entry S 2 2;
                                   entry S 1 2; entry S 0 2; entry S 0 1] r)
                      (Stress cf) (ref_Stress cf))
    /\ List.length (sysb s) = (6 * List.length (Stress cf))%nat.
Proof.
  intros HS HR HV ER EV EVol Hw.
  destruct (@makeAbw_vb_run cf offset conversion h vw HS HR HV ER EV EVol Hw)
    as (s & Hrun & Hb & Hlen & _).
  exists s, (h ++ [np_repeat vw 6]).
  split; [exact Hrun|]. split; [exact Hb|]. split; [|exact Hlen].
  rewrite Hb. reflexivity.
Qed.

End VoigtProof.

Section RowCounts.
Context {F : Type} {NF : Num F} {RF : Reduction F}.

Lemma apply_conversion_length (c : option F) (a : list (list (list F))) :
  List.length (apply_conversion c a) = List.length a.
Proof. destruct c; simpl; [apply length_map | reflexivity]. Qed.

Lemma apply_conversion_rows (c : option F) (a : list (list (list F))) k :
  Forall (fun r => List.length r = k) a ->
  Forall (fun r => List.length r = k) (apply_conversion c a).
Proof.
  destruct c; simpl; [|auto]. intros H. apply Forall_map.
  eapply Forall_impl; [|exact H]. intros r Hr. rewrite length_map. exact Hr.
Qed.

Lemma zero_type_offset_length (a : list (list (list F))) :
  List.length (zero_type_offset a) = List.length a.
Proof. apply length_map. Qed.

Lemma per_atom_length {A} (N : list Z) (f : list (list (list A))) :
  per_atom N f -> List.length f = List.length N.
Proof. intros H. symmetry. eapply Forall2_length; exact H. Qed.

Lemma per_atom_atoms {A} (N : list Z) (f : list (list (list A))) :
  per_atom N f ->
  Forall (fun a => List.length a = 3%nat) (concat f).
Proof.
  induction 1 as [|n x N f [_ Hx] _ IH]; simpl; [constructor|].
  apply Forall_app; split; assumption.
Qed.

Lemma per_atom_rows {A} (N : list Z) (f : list (list (list A))) :
  per_atom N f ->
  Z.of_nat (List.length (concat (concat f))) = force_rows N.
Proof.
  intros H. rewrite (length_concat_const (per_atom_atoms H)).
  unfold force_rows.
  induction H as [|n x N f [Hn _] _ IH]; [reflexivity|].
  cbn [concat map fold_right]. rewrite length_app, <- IH. lia.
Qed.

Lemma per_atom_full {A B} (N : list Z) (f : list (list (list A)))
  (w : list B) :
  per_atom N f -> List.length w = List.length N ->
  per_atom N (map2 (fun a b => map (map (fun _ => b)) a) f w).
Proof.
  intros H; revert w.
  induction H as [|n x N f [Hn Hx] _ IH]; intros [|b w] E; simpl in *;
    try discriminate; constructor.
  - split; [rewrite length_map; exact Hn|].
    apply Forall_map. eapply Forall_impl; [|exact Hx].
    intros a Ha. rewrite length_map. exact Ha.
  - apply IH. lia.
Qed.

Lemma per_atom_sub (N : list Z) (f r : list (list (list F))) :
  per_atom N f -> per_atom N r ->
  List.length (concat f) = List.length (concat r).
Proof.
  intros Hf; revert r.
  induction Hf as [|n x N f [Hn _] _ IH]; intros r Hr; inversion Hr as [|? y ? r' [Hy _] Hr']; subst; simpl;
    [reflexivity|].
  rewrite !length_app, (IH _ Hr'). lia.
Qed.

Lemma np_concatenate_nonempty {A} (ls : list (list A)) :
  ls <> [] -> np_concatenate ls = Ok (concat ls).
Proof. destruct ls; [congruence | reflexivity]. Qed.

Lemma nonempty_length {A B} (l : list A) (l' : list B) :
  List.length l = List.length l' -> l' <> [] -> l <> [].
Proof. destruct l, l'; simpl; congruence. Qed.

Lemma makeAbw_b_rows n_types (cf : configs F) (h : heap F) (offset : bool)
  (conversion : option F) :
  wf_dataset n_types cf h ->
  exists s w,
    makeAbw_b cf offset conversion h = Ok (s, h)
    /\ List.length (sysA s) = List.length (NumAtoms cf)
    /\ List.length (sysb s) = List.length (NumAtoms cf)
    /\ nth_error h (sysw s) = Some w
    /\ List.length w = List.length (NumAtoms cf).
Proof.
  intros W. destruct (wf_eweight W) as (w & Hw & Lw).
  destruct (wf_b_sum W) as [Lb Rb].
  set (a := apply_conversion conversion
              (map2 (fun r n => map (map (fun v => div v (of_int n))) r)
                    (b_sum cf) (NumAtoms cf))).
  assert (La : List.length a = List.length (NumAtoms cf)).
  { unfold a. rewrite apply_conversion_length, map2_length. lia. }
  assert (Ra : Forall (fun r => List.length r = n_types) a).
  { unfold a. apply apply_conversion_rows, Forall_map2.
    intros i r n Hr _. rewrite length_map.
    rewrite Forall_forall in Rb. apply Rb. eapply nth_error_In; exact Hr. }
  assert (Hoff : exists a', (if offset then energy_type_offset a (AtomTypes cf)
                             else Ok a) = Ok a'
                            /\ List.length a' = List.length (NumAtoms cf)).
  { destruct offset; [|exists a; auto].
    destruct a as [|row0 rest] eqn:Ea.
    { exfalso. apply (wf_nonempty W). destruct (NumAtoms cf); [reflexivity|discriminate La]. }
    assert (Hn : List.length row0 = n_types) by (inversion Ra; assumption).
    assert (LT : List.length (AtomTypes cf) = List.length (row0 :: rest)).
    { rewrite La. symmetry. eapply Forall2_length. exact (wf_AtomTypes W). }
    eexists; split.
    - apply (energy_type_offset_indexable eq_refl LT).
      assert (H := wf_AtomTypes W). clear - H Hn.
      induction H as [|n ts N T [_ Hts] _ IH]; constructor; [|exact IH].
      eapply Forall_impl; [|exact Hts]. intros t Ht. cbv beta in Ht.
      unfold indexable. lia.
    - rewrite map2_length, length_map, LT, Nat.min_id. exact La. }
  destruct Hoff as (a' & Ha' & La').
  exists {| sysA := a'; sysb := map2 (fun v n => div v (of_int n))
                                  (map2 sub (Energy cf) (ref_Energy cf))
                                  (NumAtoms cf);
            sysw := eweight cf |}, w.
  split; [|repeat split].
  - unfold makeAbw_b, lift.
    rewrite bcast2_same_length by exact Lb. cbn [rbind].
    rewrite bcast2_same_length
      by (rewrite (wf_Energy W), (wf_ref_Energy W); reflexivity).
    cbn [rbind].
    rewrite bcast2_same_length
      by (rewrite map2_length, (wf_Energy W), (wf_ref_Energy W); lia).
    cbn [rbind]. fold a. rewrite Ha'. reflexivity.
  - exact La'.
  - simpl. rewrite !map2_length, (wf_Energy W), (wf_ref_Energy W). lia.
  - exact Hw.
  - exact Lw.
Qed.

Lemma makeAbw_db_rows n_types (cf : configs F) (h : heap F) (offset : bool)
  (conversion : option F) :
  wf_dataset n_types cf h ->
  exists s w,
    makeAbw_db cf offset conversion h = Ok (s, h ++ [w])
    /\ Z.of_nat (List.length (sysA s)) = force_rows (NumAtoms cf)
    /\ List.length (sysb s) = List.length (sysA s)
    /\ sysw s = List.length h
    /\ List.length w = List.length (sysA s).
Proof.
  intros W. destruct (wf_fweight W) as (fw & Hw & Lw).
  assert (Hdb := wf_db_atom W). assert (Hf := wf_Forces W).
  assert (Hr := wf_ref_Forces W).
  assert (Hfull := per_atom_full fw Hf Lw).
  set (full := map2 (fun a b => map (map (fun _ : F => b)) a) (Forces cf) fw)
    in *.
  set (a := concat (concat (db_atom cf))).
  set (d := map2 (fun u v => map2 sub u v)
                 (concat (Forces cf)) (concat (ref_Forces cf))).
  assert (Ld : Forall (fun r => List.length r = 3%nat) d).
  { unfold d. apply Forall_map2. intros i u v Hu Hv. rewrite map2_length.
    assert (Hu3 := per_atom_atoms Hf). assert (Hv3 := per_atom_atoms Hr).
    rewrite Forall_forall in Hu3, Hv3.
    rewrite (Hu3 u (nth_error_In _ _ Hu)), (Hv3 v (nth_error_In _ _ Hv)).
    reflexivity. }
  assert (La : Z.of_nat (List.length a) = force_rows (NumAtoms cf))
    by (apply per_atom_rows; exact Hdb).
  assert (Lcd : List.length (concat d) = List.length a).
  { rewrite (length_concat_const Ld). unfold d. rewrite map2_length.
    rewrite <- (per_atom_sub Hf Hr), Nat.min_id.
    assert (H1 := per_atom_rows Hf).
    rewrite (length_concat_const (per_atom_atoms Hf)) in H1. lia. }
  assert (Lcf : List.length (concat (concat full)) = List.length a).
  { assert (H1 := per_atom_rows Hfull). lia. }
  assert (Hbd : bcast2M (bcast2 sub) (concat (Forces cf))
                        (concat (ref_Forces cf)) = Ok d).
  { apply bcast2M_same_length; [apply (per_atom_sub Hf Hr)|].
    intros i u v Hu Hv. apply bcast2_same_length.
    assert (Hu3 := per_atom_atoms Hf). assert (Hv3 := per_atom_atoms Hr).
    rewrite Forall_forall in Hu3, Hv3.
    rewrite (Hu3 u (nth_error_In _ _ Hu)), (Hv3 v (nth_error_In _ _ Hv)).
    reflexivity. }
  exists {| sysA := (if offset then zero_type_offset (apply_conversion conversion a)
                     else apply_conversion conversion a);
            sysb := concat d; sysw := List.length h |}, (concat (concat full)).
  split; [|repeat split].
  - unfold makeAbw_db, bind, lift, load, alloc, ret.
    rewrite np_concatenate_nonempty
      by (apply (nonempty_length (per_atom_length Hdb)), (wf_nonempty W)).
    rewrite np_concatenate_nonempty
      by (apply (nonempty_length (per_atom_length Hf)), (wf_nonempty W)).
    cbn [rbind].
    rewrite np_concatenate_nonempty
      by (apply (nonempty_length (per_atom_length Hr)), (wf_nonempty W)).
    cbn [rbind]. rewrite Hbd. cbn [rbind].
    fold a. unfold reshape1. rewrite Lcd, Nat.eqb_refl. rewrite Hw.
    fold full.
    rewrite np_concatenate_nonempty
      by (apply (nonempty_length (per_atom_length Hfull)), (wf_nonempty W)).
    cbn [rbind]. rewrite Lcf, Nat.eqb_refl. reflexivity.
  - simpl. destruct offset;
      rewrite ?zero_type_offset_length, apply_conversion_length; exact La.
  - simpl. destruct offset;
      rewrite ?zero_type_offset_length, apply_conversion_length; exact Lcd.
  - simpl. destruct offset;
      rewrite ?zero_type_offset_length, apply_conversion_length; exact Lcf.
Qed.

(** Without a configuration [np.concatenate] has nothing to join and the
    force assembler raises. *)
Lemma makeAbw_db_no_configuration (cf : configs F) (offset : bool)
  (conversion : option F) (h : heap F) :
  db_atom cf = [] -> makeAbw_db cf offset conversion h = Err LibError.
Proof.
  intros E. unfold makeAbw_db, bind, lift. rewrite E. reflexivity.
Qed.

(** C8: on a dataset of the data model the energy system has one row per
    configuration, the force system has [3 * NumAtoms] rows per
    configuration and the virial system six rows per configuration, each
    with a target and a weight vector of the same length. *)
Theorem assemblers_row_counts n_types (cf : configs F) (h : heap F)
  (offset : bool) (ce cf' cv : option F) :
  wf_dataset n_types cf h ->
  (exists s w,
     makeAbw_b cf offset ce h = Ok (s, h)
     /\ List.length (sysA s) = List.length (NumAtoms cf)
     /\ List.length (sysb s) = List.length (sysA s)
     /\ nth_error h (sysw s) = Some w
     /\ List.length w = List.length (sysA s))
  /\ (exists s w,
        makeAbw_db cf offset cf' h = Ok (s, h ++ [w])
        /\ Z.of_nat (List.length (sysA s)) = force_rows (NumAtoms cf)
        /\ List.length (sysb s) = List.length (sysA s)
        /\ nth_error (h ++ [w]) (sysw s) = Some w
        /\ List.length w = List.length (sysA s))
  /\ (exists s w,
        makeAbw_vb cf offset cv h = Ok (s, h ++ [w])
        /\ List.length (sysA s) = (6 * List.length (NumAtoms cf))%nat
        /\ List.length (sysb s) = List.length (sysA s)
        /\ nth_error (h ++ [w]) (sysw s) = Some w
        /\ List.length w = List.length (sysA s)).
Proof.
  intros W. split; [|split].
  - destruct (makeAbw_b_rows offset ce W) as (s & w & H1 & H2 & H3 & H4 & H5).
    exists s, w. repeat split; try assumption; congruence.
  - destruct (makeAbw_db_rows offset cf' W) as (s & w & H1 & H2 & H3 & H4 & H5).
    exists s, w. repeat split; try assumption.
    rewrite H4, nth_error_app2, Nat.sub_diag by lia. reflexivity.
  - destruct (wf_vweight W) as (vw & Hw & Lw).
    destruct (wf_Stress W) as [LS HS]. destruct (wf_ref_Stress W) as [LR HR].
    destruct (wf_vb_sum W) as [LV HV].
    destruct (@makeAbw_vb_run _ _ cf offset cv h vw HS HR HV)
      as (s & H1 & H2 & H3 & H4); try congruence.
    { rewrite (wf_Volume W); congruence. }
    exists s, (np_repeat vw 6). repeat split.
    + exact H1.
    + rewrite H4, LS. reflexivity.
    + congruence.
    + unfold makeAbw_vb, bind, lift, load, alloc, ret in H1.
      destruct (bcast2 _ _ _); [|discriminate H1]. cbn [rbind] in H1.
      destruct (rbind _ _); [|discriminate H1]. rewrite Hw in H1.
      injection H1 as <-. cbn [sysw].
      rewrite nth_error_app2, Nat.sub_diag by lia. reflexivity.
    + rewrite np_repeat_length, H4, Lw, LS. lia.
Qed.

End RowCounts.

(** ** The error metrics *)

(** *** float64 facts *)

Lemma Prim2SF_zero : Prim2SF 0%float = S754_zero false.
Proof. reflexivity. Qed.

Lemma Prim2SF_one_minus_zero s : (1 - SF2Prim (S754_zero s))%float = 1%float.
Proof. destruct s; reflexivity. Qed.


Lemma float_sub_diag (y : float) :
  PrimFloat.is_finite y = true -> (y - y)%float = 0%float.
Proof.
  unfold PrimFloat.is_finite, PrimFloat.is_nan, PrimFloat.is_infinity.
  rewrite !FloatAxioms.eqb_spec, FloatAxioms.abs_spec.
  change (Prim2SF infinity) with (S754_infinity false). intros H.
  apply Prim2SF_inj. rewrite FloatAxioms.sub_spec, Prim2SF_zero.
  destruct (Prim2SF y) as [s|s| |s m e].
  - destruct s; reflexivity.
  - destruct s; discriminate H.
  - discriminate H.
  - unfold SF64sub, SFsub. rewrite Z.sub_diag. reflexivity.
Qed.

Lemma float_one_minus_zero_div (d : float) :
  PrimFloat.is_nan d = false -> PrimFloat.is_zero d = false ->
  (1 - 0 / d)%float = 1%float.
Proof.
  unfold PrimFloat.is_nan, PrimFloat.is_zero. rewrite !FloatAxioms.eqb_spec.
  change (Prim2SF PrimFloat.zero) with (S754_zero false).
  intros Hn Hz.
  assert (Hq : exists s, Prim2SF (0 / d)%float = S754_zero s).
  { rewrite FloatAxioms.div_spec, Prim2SF_zero.
    destruct (Prim2SF d) as [s|s| |s m e].
    - destruct s; discriminate Hz.
    - eexists; reflexivity.
    - discriminate Hn.
    - eexists; reflexivity. }
  destruct Hq as [s Hs].
  rewrite <- (SF2Prim_Prim2SF (0 / d)%float), Hs.
  apply Prim2SF_one_minus_zero.
Qed.

Lemma float_sum_zeros {RF : Reduction float} (l : list float) :
  Forall (fun v => v = 0%float) l -> np_sum l = 0%float.
Proof.
  intros H. destruct l as [|v l]; [exact (@np_sum_empty float _ RF)|].
  apply (np_sum_invariant (P := fun v => v = 0%float));
    [|discriminate | exact H].
  intros x y -> ->. reflexivity.
Qed.

Lemma float_zero_residual (t : list float) :
  Forall (fun v => PrimFloat.is_finite v = true) t ->
  Forall (fun v => v = 0%float) (np_square (map2 sub t t)).
Proof.
  induction 1 as [|v l Hv _ IH]; simpl; constructor; [|exact IH].
  cbn [sub mul float_Num]. rewrite (@float_sub_diag v Hv). reflexivity.
Qed.

(** *** Shapes *)

Section MetricsShape.
Context {F : Type} {NF : Num F} {OF : NumOrd F} {RF : Reduction F}.

Lemma rmapM_length {A B} (f : A -> result B) l ys :
  rmapM f l = Ok ys -> List.length ys = List.length l.
Proof.
  revert ys; induction l as [|a l IH]; intros ys; simpl.
  - intros [= <-]. reflexivity.
  - destruct (f a); [|discriminate]. simpl.
    destruct (rmapM f l) as [zs|]; [|discriminate]. simpl.
    intros [= <-]. simpl. f_equal. apply IH. reflexivity.
Qed.


(** What [get_error_metrics] returns on a system whose shapes fit. *)
Lemma get_error_metrics_weighted (x : list (list F))
  (A : list (list (list F))) (b pred : list F) (w : loc) (wv : list F)
  (incl : bool) (h : heap F) :
  A <> [] ->
  matvec (map (@concat F) A) (concat x) = Ok pred ->
  nth_error h w = Some wv ->
  List.length wv = List.length b ->
  List.length b = List.length pred ->
  exists r,
    get_error_metrics x A b (Some w) incl h = Ok (r, h)
    /\ ncount r = count_nonzero wv
    /\ ssr r = np_sum (np_square (map2 sub (map2 mul wv b) (map2 mul wv pred)))
    /\ rsq r = sub one
                   (div (ssr r)
                        (total_sum_squares
                           (map2 mul wv b)
                           (of_int (Z.of_nat (count_nonzero wv))))).
Proof.
  intros HA Hp Hw Lw Lb.
  eexists. split; [|split; [|split]].
  - unfold get_error_metrics, bind, lift, load, ret.
    destruct A as [|a0 A']; [congruence|].
    rewrite Hp, Hw.
    rewrite !bcast2_same_length by congruence.
    rewrite bcast2_same_length by (rewrite !map2_length; lia).
    reflexivity.
  - reflexivity.
  - reflexivity.
  - reflexivity.
Qed.


End MetricsShape.

(** *** The count and the coefficient of determination *)


(** An entry below zero is counted by [count_nonzero] and is not
    strictly positive. *)
Lemma count_nonzero_negative :
  count_nonzero [(-1)%float] = 1%nat /\ count_positive [(-1)%float] = 0%nat.
Proof. split; reflexivity. Qed.

(** The whole record on a weighted system whose shapes fit. *)
Lemma get_error_metrics_weighted_record {F : Type} {NF : Num F}
  {OF : NumOrd F} {RF : Reduction F} (x : list (list F))
  (A : list (list (list F))) (b pred : list F) (w : loc) (wv : list F)
  (incl : bool) (h : heap F) :
  A <> [] ->
  matvec (map (@concat F) A) (concat x) = Ok pred ->
  nth_error h w = Some wv ->
  List.length wv = List.length b ->
  List.length b = List.length pred ->
  let t := map2 mul wv b in
  let res := map2 sub t (map2 mul wv pred) in
  let nc := of_int (Z.of_nat (count_nonzero wv)) in
  exists r,
    get_error_metrics x A b (Some w) incl h = Ok (r, h)
    /\ ncount r = count_nonzero wv
    /\ mae r = np_sum (map (fun v => div (absv v) nc) res)
    /\ rmae r
       = div (mae r)
             (np_sum (map (fun v => div (absv (sub v (np_median t))) nc) t))
    /\ ssr r = np_sum (np_square res)
    /\ rmse r = sqrtv (div (ssr r) nc)
    /\ rrmse r = div (rmse r) (np_std t)
    /\ rsq r = sub one (div (ssr r) (total_sum_squares t nc))
    /\ residual r = (if incl then Some res else None).
Proof.
  intros HA Hp Hw Lw Lb t res nc.
  eexists. split.
  - unfold get_error_metrics, bind, lift, load, ret.
    destruct A as [|a0 A']; [congruence|].
    rewrite Hp, Hw.
    rewrite !bcast2_same_length by congruence.
    rewrite bcast2_same_length by (rewrite !map2_length; lia).
    reflexivity.
  - repeat split.
Qed.



Lemma float_nan_or_zero_div (d : float) :
  PrimFloat.is_nan d = true \/ PrimFloat.is_zero d = true ->
  PrimFloat.is_nan (1 - 0 / d)%float = true.
Proof.
  unfold PrimFloat.is_nan, PrimFloat.is_zero.
  rewrite !FloatAxioms.eqb_spec.
  change (Prim2SF PrimFloat.zero) with (S754_zero false).
  intros H.
  assert (Hq : (0 / d)%float = PrimFloat.nan).
  { apply Prim2SF_inj. rewrite FloatAxioms.div_spec, Prim2SF_zero.
    change (Prim2SF PrimFloat.nan) with S754_nan.
    destruct (Prim2SF d) as [s|s| |s m e]; try reflexivity;
      exfalso; destruct H as [H|H]; destruct s;
      try discriminate H;
      unfold SFeqb, SFcompare in H;
      rewrite Z.compare_refl, Pos.compare_cont_refl in H;
      discriminate H. }
  rewrite Hq. reflexivity.
Qed.

(** C3 as amended: when the prediction equals the target exactly and
    the weighted targets are finite, [ssr] is 0, and [rsq] is 1.0 when
    the total sum of squares of the weighted targets, as the summation
    order in use gives it, is neither zero nor NaN, and NaN when it is
    zero or NaN. *)
Theorem get_error_metrics_rsq_exact_fit {RF : Reduction float}
  (x : list (list float)) (A : list (list (list float))) (b : list float)
  (w : loc) (wv : list float) (incl : bool) (h : heap float) :
  A <> [] ->
  matvec (map (@concat float) A) (concat x) = Ok b ->
  nth_error h w = Some wv ->
  List.length wv = List.length b ->
  Forall (fun t => PrimFloat.is_finite t = true) (map2 mul wv b) ->
  exists r,
    get_error_metrics x A b (Some w) incl h = Ok (r, h)
    /\ ssr r = 0%float
    /\ let D := total_sum_squares (map2 mul wv b)
                                  (of_int (Z.of_nat (count_nonzero wv))) in
       (PrimFloat.is_nan D = false -> PrimFloat.is_zero D = false ->
        rsq r = 1%float)
       /\ (PrimFloat.is_nan D = true \/ PrimFloat.is_zero D = true ->
           PrimFloat.is_nan (rsq r) = true).
Proof.
  intros HA Hp Hw Lw Hfin.
  destruct (@get_error_metrics_weighted float _ _ _ x A b b w wv incl h
                                        HA Hp Hw Lw eq_refl)
    as (r & Hr & _ & Hssr & Hrsq).
  assert (Hs : ssr r = 0%float).
  { rewrite Hssr. apply float_sum_zeros, float_zero_residual. exact Hfin. }
  exists r. split; [exact Hr|]. split; [exact Hs|].
  cbv zeta. rewrite Hrsq, Hs. split.
  - intros Hn Hz. apply float_one_minus_zero_div; assumption.
  - apply float_nan_or_zero_div.
Qed.

(** C3 as stated fails on a system of one row: the prediction equals the
    target, the weight is nonzero, and [rsq] is [0/0]. *)
Lemma rsq_one_row_is_nan :
  matvec (map (@concat float) [[[1]]]%float) (concat [[1]]%float)
  = Ok [1]%float
  /\ Forall (fun v => PrimFloat.eqb v 0 = false) [1]%float
  /\ match get_error_metrics [[1]]%float [[[1]]]%float [1]%float
                             (Some 0%nat) false [[1]]%float with
     | Ok (r, _) => rsq r <> 1%float
     | Err _ => False
     end.
Proof.
  split; [reflexivity|]. split; [repeat constructor|].
  vm_compute. intros H.
  apply (f_equal PrimFloat.is_nan) in H. vm_compute in H. discriminate H.
Qed.

(** ** The store *)

(** *** What a computation may write *)

Section Frame.
Context {F : Type} {NF : Num F} {OF : NumOrd F} {RF : Reduction F}.

(** The locations below [k] are those of the caller; [W] says which
    locations may be written, and holds of every location from [k] on. *)
Variable k : nat.
Variable W : loc -> Prop.
Hypothesis W_fresh : forall l, (k <= l)%nat -> W l.

Lemma keeps_refl (h : heap F) : keeps W h h.
Proof. split; auto. Qed.

Lemma keeps_trans (h1 h2 h3 : heap F) :
  keeps W h1 h2 -> keeps W h2 h3 -> keeps W h1 h3.
Proof.
  intros [L1 H1] [L2 H2]. split; [lia|].
  intros l Hl. rewrite H2, H1; auto.
Qed.

Lemma safe_ret {A} (Q : A -> Prop) a : Q a -> @safe F _ k W Q (ret a).
Proof.
  intros Ha h a' h' _ [= <- <-]. split; [exact Ha | apply keeps_refl].
Qed.

Lemma safe_bind {A B} (P : A -> Prop) (Q : B -> Prop) m (f : A -> M F B) :
  @safe F _ k W P m -> (forall a, P a -> @safe F _ k W Q (f a)) -> @safe F _ k W Q (bind m f).
Proof.
  intros Hm Hf h b h' Hk. unfold bind.
  destruct (m h) as [[a h1]|] eqn:E; [|discriminate].
  destruct (Hm h a h1 Hk E) as [Pa K1]. intros E2.
  destruct (Hf a Pa h1 b h') as [Qb K2]; [destruct K1; lia | exact E2 |].
  split; [exact Qb | eapply keeps_trans; eassumption].
Qed.

Lemma safe_weaken {A} (P Q : A -> Prop) m :
  @safe F _ k W P m -> (forall a, P a -> Q a) -> @safe F _ k W Q m.
Proof.
  intros Hm HPQ h a h' Hk E. destruct (Hm h a h' Hk E). auto.
Qed.

Lemma safe_lift {A} (r : result A) : @safe F _ k W (fun _ => True) (lift r).
Proof.
  intros h a h' _. unfold lift. destruct r; [|discriminate].
  intros [= <- <-]. split; [exact I | apply keeps_refl].
Qed.

Lemma safe_raise {A} (Q : A -> Prop) e : @safe F _ k W Q (raise e).
Proof. intros h a h' _ E. discriminate E. Qed.

Lemma safe_load l : @safe F _ k W (fun _ => True) (load l).
Proof.
  intros h a h' _. unfold load. destruct (nth_error h l); [|discriminate].
  intros [= <- <-]. split; [exact I | apply keeps_refl].
Qed.

Lemma safe_alloc v : @safe F _ k W W (alloc v).
Proof.
  intros h a h' Hk. unfold alloc. intros [= <- <-]. split.
  - apply W_fresh; exact Hk.
  - split; [rewrite length_app; lia|].
    intros l Hl. apply nth_error_app1.
    destruct (Nat.lt_ge_cases l (List.length h)); [assumption|].
    exfalso. apply Hl, W_fresh. lia.
Qed.

Lemma set_nth_length {A} (l : list A) i x :
  List.length (set_nth l i x) = List.length l.
Proof.
  revert i; induction l as [|y l IH]; intros [|i]; simpl; auto.
Qed.

Lemma nth_error_set_nth_other {A} (l : list A) i j x :
  i <> j -> nth_error (set_nth l i x) j = nth_error l j.
Proof.
  revert i j; induction l as [|y l IH]; intros [|i] [|j] H; simpl; auto.
  congruence.
Qed.

Lemma safe_store l i x : W l -> @safe F _ k W (fun _ => True) (store l i x).
Proof.
  intros Hl h a h' _. unfold store.
  destruct (nth_error h l); [|discriminate].
  destruct (Nat.ltb i _); [|discriminate].
  intros [= <- <-]. split; [exact I|]. split.
  - rewrite set_nth_length. lia.
  - intros l' Hl'. apply nth_error_set_nth_other. congruence.
Qed.

Lemma safe_mapM {A B} (Q : B -> Prop) (f : A -> M F B) l :
  (forall a, In a l -> @safe F _ k W Q (f a)) -> @safe F _ k W (Forall Q) (mapM f l).
Proof.
  induction l as [|a l IH]; intros H; cbn [mapM].
  - apply safe_ret. constructor.
  - eapply safe_bind; [apply H; left; reflexivity|].
    intros b Qb. eapply safe_bind.
    + apply IH. intros a' Ha'. apply H. right. exact Ha'.
    + intros bs Qbs. apply safe_ret. constructor; assumption.
Qed.

Lemma safe_get_error_metrics x A b w incl :
  @safe F _ k W (fun _ => True) (get_error_metrics x A b w incl).
Proof.
  unfold get_error_metrics.
  eapply safe_bind; [apply safe_lift | intros A_flat _].
  eapply safe_bind; [apply safe_lift | intros pred _].
  eapply safe_bind with (P := fun _ => True).
  - destruct w as [l|]; [|apply safe_ret; exact I].
    eapply safe_bind; [apply safe_load | intros wv _].
    eapply safe_bind; [apply safe_lift | intros t _].
    eapply safe_bind; [apply safe_lift | intros p _].
    apply safe_ret; exact I.
  - intros [[t p] n] _.
    eapply safe_bind; [apply safe_lift | intros res _].
    apply safe_ret; exact I.
Qed.

Lemma safe_mask_in_place w : W w -> @safe F _ k W (fun _ => True) (mask_in_place w).
Proof.
  intros Hw. unfold mask_in_place.
  eapply safe_bind; [apply safe_load | intros v _].
  eapply safe_bind with (P := fun _ => True); [|intros; apply safe_ret; exact I].
  eapply safe_weaken; [apply safe_mapM with (Q := fun _ => True)|auto].
  intros i _.
  eapply safe_bind; [apply safe_load | intros cur _].
  eapply safe_bind; [apply safe_lift | intros wi _].
  apply safe_store; exact Hw.
Qed.

Lemma safe_subsystem_records x opts gname gtype subsys :
  W (sysw subsys) ->
  @safe F _ k W (fun _ => True) (subsystem_records x opts gname gtype subsys).
Proof.
  intros Hw. unfold subsystem_records.
  eapply safe_bind; [apply safe_get_error_metrics | intros r1 _].
  eapply safe_bind with (P := fun _ => True).
  - destruct (compute_testerrs opts); [|apply safe_ret; exact I].
    eapply safe_bind; [apply safe_mask_in_place; exact Hw | intros _ _].
    eapply safe_bind; [apply safe_get_error_metrics | intros r2 _].
    eapply safe_bind; [apply safe_load | intros wv _].
    eapply safe_bind; [apply safe_alloc | intros w' _].
    eapply safe_bind; [apply safe_get_error_metrics | intros r3 _].
    apply safe_ret; exact I.
  - intros cv _.
    eapply safe_bind; [apply safe_get_error_metrics | intros r4 _].
    apply safe_ret; exact I.
Qed.

Lemma safe_makeAbw_b cf offset conversion :
  W (eweight cf) ->
  @safe F _ k W (fun s => W (sysw s)) (makeAbw_b cf offset conversion).
Proof.
  intros Hw h s h' _. unfold makeAbw_b, lift.
  destruct (bcast2 _ _ _) as [a|]; [|discriminate]. cbn [rbind].
  destruct (bcast2 _ _ _) as [d|]; [|discriminate]. cbn [rbind].
  destruct (bcast2 _ _ _) as [b|]; [|discriminate]. cbn [rbind].
  destruct (if offset then _ else _) as [a'|]; [|discriminate]. cbn [rbind].
  intros [= <- <-]. split; [exact Hw | apply keeps_refl].
Qed.

Lemma safe_makeAbw_db cf offset conversion :
  @safe F _ k W (fun s => W (sysw s)) (makeAbw_db cf offset conversion).
Proof.
  unfold makeAbw_db.
  eapply safe_bind; [apply safe_lift | intros db _].
  eapply safe_bind; [apply safe_lift | intros b _].
  eapply safe_bind; [apply safe_load | intros fw _].
  eapply safe_bind; [apply safe_lift | intros wv _].
  eapply safe_bind; [apply safe_alloc | intros w Hw].
  apply safe_ret. exact Hw.
Qed.

Lemma safe_makeAbw_vb cf offset conversion :
  @safe F _ k W (fun s => W (sysw s)) (makeAbw_vb cf offset conversion).
Proof.
  unfold makeAbw_vb.
  eapply safe_bind; [apply safe_lift | intros a _].
  eapply safe_bind; [apply safe_lift | intros b _].
  eapply safe_bind; [apply safe_load | intros vw _].
  eapply safe_bind; [apply safe_alloc | intros w Hw].
  apply safe_ret. exact Hw.
Qed.

Lemma safe_make_Abw cf offset return_subsystems subsystems :
  W (eweight cf) ->
  @safe F _ k W (systems_in W) (make_Abw cf offset return_subsystems subsystems).
Proof.
  intros Hw. unfold make_Abw.
  eapply safe_bind.
  - apply safe_mapM with (Q := fun s => W (sysw s)).
    intros f Hf. destruct subsystems as [[e fo] v].
    unfold select, assemblers in Hf.
    destruct e, fo, v; simpl in Hf;
      repeat (destruct Hf as [<- | Hf];
              [first [ apply safe_makeAbw_b; exact Hw
                     | apply safe_makeAbw_db | apply safe_makeAbw_vb ] |]);
      contradiction.
  - intros subs Hsubs. cbv beta.
    destruct (Nat.eqb _ 1).
    + destruct return_subsystems; [apply safe_ret; exact Hsubs|].
      destruct Hsubs; [apply safe_raise | apply safe_ret; assumption].
    + eapply safe_bind; [apply safe_lift | intros A _].
      eapply safe_bind; [apply safe_lift | intros b _].
      eapply safe_bind.
      { eapply safe_weaken;
          [apply safe_mapM with (Q := fun _ => True) | intros ? _; exact I].
        intros s _. apply safe_load. }
      intros ws _.
      eapply safe_bind; [apply safe_lift | intros wv _].
      eapply safe_bind; [apply safe_alloc | intros w Hw'].
      destruct return_subsystems; apply safe_ret; simpl; auto.
Qed.

Lemma safe_group_records x opts subsystems entry :
  W (eweight (snd entry)) ->
  @safe F _ k W (fun _ => True) (group_records x opts subsystems entry).
Proof.
  destruct entry as [gname cf']. cbn [snd]. intros Hw.
  unfold group_records.
  eapply safe_bind; [apply safe_make_Abw; exact Hw | intros systems Hs].
  destruct systems as [l|s]; [|apply safe_raise].
  eapply safe_bind with (P := fun _ => True); [|intros; apply safe_ret; exact I].
  eapply safe_weaken;
    [apply safe_mapM with (Q := fun _ => True) | intros ? _; exact I].
  intros [nm s] Hin. cbn [fst snd].
  apply safe_subsystem_records.
  simpl in Hs. rewrite Forall_forall in Hs. apply Hs.
  eapply in_combine_r. exact Hin.
Qed.

Lemma safe_get_ind_loc l ind : @safe F _ k W W (get_ind_loc l ind).
Proof.
  unfold get_ind_loc.
  eapply safe_bind; [apply safe_load | intros v _].
  eapply safe_bind; [apply safe_lift | intros v' _].
  apply safe_alloc.
Qed.

Lemma safe_get_subgroup cf g : @safe F _ k W (weights_in W) (get_subgroup cf g).
Proof.
  unfold get_subgroup.
  do 13 (eapply safe_bind; [apply safe_lift | intros ? _]).
  eapply safe_bind; [apply safe_get_ind_loc | intros ew Hew].
  eapply safe_bind; [apply safe_get_ind_loc | intros fw Hfw].
  eapply safe_bind; [apply safe_get_ind_loc | intros vw Hvw].
  apply safe_ret. repeat split; assumption.
Qed.

End Frame.

(** *** Runs from a larger store *)

Section Shift.
Context {F : Type} {NF : Num F} {RF : Reduction F}.

(** Two runs of one computation: from [base ++ new] and from
    [base ++ extra ++ new].  A location of the first run is a location of
    [base], the same in both runs, or a later one, (moved base extra) by the length of
    [extra] in the second run. *)
Variables base extra : heap F.

Lemma sim_ret {A} (R : A -> A -> Prop) a a' : R a a' -> @sim F _ base extra R (ret a) (ret a').
Proof. intros H new. simpl. exists new. auto. Qed.

Lemma sim_bind {A B} (P : A -> A -> Prop) (Q : B -> B -> Prop)
  m m' (f f' : A -> M F B) :
  @sim F _ base extra P m m' -> (forall a a', P a a' -> @sim F _ base extra Q (f a) (f' a')) ->
  @sim F _ base extra Q (bind m f) (bind m' f').
Proof.
  intros Hm Hf new. unfold bind. specialize (Hm new).
  destruct (m (base ++ new)) as [[a hl]|e];
    destruct (m' (base ++ extra ++ new)) as [[a' hr]|e'];
    try contradiction; [|exact Hm].
  destruct Hm as (new' & -> & -> & Pa).
  apply (Hf a a' Pa new').
Qed.

Lemma sim_lift {A} (r : result A) : @sim F _ base extra eq (lift r) (lift r).
Proof.
  intros new. unfold lift. destruct r; [|reflexivity]. exists new. auto.
Qed.

Lemma sim_raise {A} (R : A -> A -> Prop) e : @sim F _ base extra R (raise e) (raise e).
Proof. intros new. reflexivity. Qed.

Lemma moved_lookup l l' new :
  (moved base extra) l l' ->
  nth_error (base ++ extra ++ new) l' = nth_error (base ++ new) l.
Proof.
  intros [[Hl ->]|[Hl ->]].
  - rewrite !nth_error_app1 by assumption. reflexivity.
  - rewrite (nth_error_app2 base) by lia.
    rewrite (nth_error_app2 extra) by lia.
    rewrite (nth_error_app2 base) by lia.
    f_equal. lia.
Qed.

Lemma sim_load l l' : (moved base extra) l l' -> @sim F _ base extra eq (load l) (load l').
Proof.
  intros Hl new. unfold load. rewrite (moved_lookup new Hl).
  destruct (nth_error (base ++ new) l); [|reflexivity].
  exists new. auto.
Qed.

Lemma sim_alloc v : @sim F _ base extra (moved base extra) (alloc v) (alloc v).
Proof.
  intros new. unfold alloc. exists (new ++ [v]).
  rewrite <- !app_assoc. repeat split.
  right. rewrite !length_app. split; lia.
Qed.

Lemma sim_mapM {A B} (P : A -> A -> Prop) (R : B -> B -> Prop)
  (f f' : A -> M F B) l l' :
  Forall2 P l l' -> (forall a a', P a a' -> @sim F _ base extra R (f a) (f' a')) ->
  @sim F _ base extra (Forall2 R) (mapM f l) (mapM f' l').
Proof.
  intros Hl Hf. induction Hl as [|a a' l l' Ha _ IH]; cbn [mapM].
  - apply sim_ret. constructor.
  - eapply sim_bind; [apply Hf; exact Ha|]. intros b b' Hb.
    eapply sim_bind; [exact IH|]. intros bs bs' Hbs.
    apply sim_ret. constructor; assumption.
Qed.

Lemma same_system_refl s :
  (sysw s < List.length base)%nat -> (same_system base extra) s s.
Proof. intros H. repeat split. left. auto. Qed.

Lemma sim_makeAbw_b cf offset conversion :
  (eweight cf < List.length base)%nat ->
  @sim F _ base extra (same_system base extra) (makeAbw_b cf offset conversion)
      (makeAbw_b cf offset conversion).
Proof.
  intros Hw new. unfold makeAbw_b, lift.
  destruct (bcast2 _ _ _) as [a|]; [|reflexivity]. cbn [rbind].
  destruct (bcast2 _ _ _) as [d|]; [|reflexivity]. cbn [rbind].
  destruct (bcast2 _ _ _) as [b|]; [|reflexivity]. cbn [rbind].
  destruct (if offset then _ else _) as [a'|]; [|reflexivity]. cbn [rbind].
  exists new. repeat split. left. auto.
Qed.

Lemma sim_makeAbw_db cf offset conversion :
  (fweight cf < List.length base)%nat ->
  @sim F _ base extra (same_system base extra) (makeAbw_db cf offset conversion)
      (makeAbw_db cf offset conversion).
Proof.
  intros Hw. unfold makeAbw_db.
  eapply sim_bind; [apply sim_lift | intros db ? <-].
  eapply sim_bind; [apply sim_lift | intros b ? <-].
  eapply sim_bind; [apply sim_load; left; auto | intros fw ? <-].
  eapply sim_bind; [apply sim_lift | intros wv ? <-].
  eapply sim_bind; [apply sim_alloc | intros w w' Hm].
  apply sim_ret. repeat split. exact Hm.
Qed.

Lemma sim_makeAbw_vb cf offset conversion :
  (vweight cf < List.length base)%nat ->
  @sim F _ base extra (same_system base extra) (makeAbw_vb cf offset conversion)
      (makeAbw_vb cf offset conversion).
Proof.
  intros Hw. unfold makeAbw_vb.
  eapply sim_bind; [apply sim_lift | intros a ? <-].
  eapply sim_bind; [apply sim_lift | intros b ? <-].
  eapply sim_bind; [apply sim_load; left; auto | intros vw ? <-].
  eapply sim_bind; [apply sim_alloc | intros w w' Hm].
  apply sim_ret. repeat split. exact Hm.
Qed.

Lemma Forall2_same {A} (R : A -> A -> Prop) l :
  (forall a, In a l -> R a a) -> Forall2 R l l.
Proof.
  induction l as [|a l IH]; intros H; constructor.
  - apply H; left; reflexivity.
  - apply IH. intros b Hb. apply H. right. exact Hb.
Qed.

Lemma same_system_fields l l' :
  Forall2 (same_system base extra) l l' ->
  map (@sysA F) l = map (@sysA F) l' /\ map (@sysb F) l = map (@sysb F) l'.
Proof.
  induction 1 as [|s t l l' (HA & Hb & _) _ [IHA IHb]]; simpl.
  - split; reflexivity.
  - split; congruence.
Qed.

Lemma sim_make_Abw cf offset return_subsystems subsystems :
  weights_in (fun l => l < List.length base)%nat cf ->
  @sim F _ base extra (same_Abw base extra) (make_Abw cf offset return_subsystems subsystems)
      (make_Abw cf offset return_subsystems subsystems).
Proof.
  intros (He & Hf & Hv). unfold make_Abw.
  eapply sim_bind.
  - apply sim_mapM with (P := fun f f' => f = f' /\ In f (select assemblers subsystems)).
    + apply Forall2_same. auto.
    + intros f ? [<- Hin]. destruct subsystems as [[e fo] v].
      unfold select, assemblers in Hin.
      destruct e, fo, v; simpl in Hin;
        repeat (destruct Hin as [<- | Hin];
                [first [ apply sim_makeAbw_b; exact He
                       | apply sim_makeAbw_db; exact Hf
                       | apply sim_makeAbw_vb; exact Hv ] |]);
        contradiction.
  - intros subs subs' Hs. cbv beta.
    destruct (same_system_fields Hs) as [EA Eb].
    destruct (Nat.eqb _ 1).
    + destruct return_subsystems; [apply sim_ret; exact Hs|].
      destruct Hs; [apply sim_raise | apply sim_ret; assumption].
    + rewrite EA, Eb.
      eapply sim_bind; [apply sim_lift | intros A ? <-].
      eapply sim_bind; [apply sim_lift | intros b ? <-].
      eapply sim_bind.
      { apply sim_mapM with (P := (same_system base extra)) (R := eq); [exact Hs|].
        intros s t (_ & _ & Hm). apply sim_load. exact Hm. }
      intros ws ws' Hws.
      assert (Ews : ws = ws').
      { clear - Hws. induction Hws; congruence. }
      subst ws'.
      eapply sim_bind; [apply sim_lift | intros wv ? <-].
      eapply sim_bind; [apply sim_alloc | intros w w' Hm].
      destruct return_subsystems; apply sim_ret; simpl.
      * constructor; [repeat split; exact Hm | exact Hs].
      * repeat split; exact Hm.
Qed.

(** The runs assemble the same systems. *)
Lemma assembled_shift cf offset return_subsystems subsystems :
  weights_in (fun l => l < List.length base)%nat cf ->
  assembled (make_Abw cf offset return_subsystems subsystems)
            (base ++ extra)
  = assembled (make_Abw cf offset return_subsystems subsystems) base.
Proof.
  intros Hw.
  assert (H := sim_make_Abw offset return_subsystems subsystems Hw []).
  rewrite !app_nil_r in H. unfold assembled.
  destruct (make_Abw _ _ _ _ base) as [[r hl]|e];
    destruct (make_Abw _ _ _ _ (base ++ extra)) as [[r' hr]|e'];
    try contradiction; [|congruence].
  destruct H as (new' & -> & -> & HR).
  assert (Hsys : forall s t, (same_system base extra) s t ->
            system_values (base ++ extra ++ new') t
            = system_values (base ++ new') s).
  { intros s t (HA & Hb & Hm). unfold system_values.
    rewrite (moved_lookup new' Hm), HA, Hb. reflexivity. }
  destruct r as [l|s], r' as [l'|t]; try contradiction; simpl in HR.
  - f_equal. induction HR as [|s t l l' Hst _ IH]; simpl; [reflexivity|].
    rewrite (Hsys s t Hst), IH. reflexivity.
  - rewrite (Hsys s t HR). reflexivity.
Qed.

End Shift.

(** *** The entry for all groups *)

Section AllGroups.
Context {F : Type} {NF : Num F} {OF : NumOrd F} {RF : Reduction F}.

Lemma dict_get_set {A} (d : list (string * A)) k v :
  dict_get k (dict_set d k v) = Some v.
Proof.
  induction d as [|[k' v'] d IH]; simpl.
  - rewrite String.eqb_refl. reflexivity.
  - destruct (String.eqb k k') eqn:E; simpl; rewrite ?String.eqb_refl, ?E; auto.
Qed.

Lemma entries_before_set {A} (d : list (string * A)) k v :
  entries_before k (dict_set d k v) = entries_before k d.
Proof.
  induction d as [|[k' v'] d IH]; simpl.
  - rewrite String.eqb_refl. reflexivity.
  - destruct (String.eqb k k') eqn:E; simpl; rewrite ?String.eqb_refl, ?E; auto.
    rewrite IH. reflexivity.
Qed.

Lemma entries_before_Forall {A} (P : string * A -> Prop) d k :
  Forall P d -> Forall P (entries_before k d).
Proof.
  induction 1 as [|[k' v'] d Hp _ IH]; simpl; [constructor|].
  destruct (String.eqb k k'); constructor; assumption.
Qed.

(** A store that extends [h] and agrees with it on the locations of [h]
    is [h] with further arrays. *)
Lemma keeps_prefix (h h' : heap F) :
  keeps (fun l => List.length h <= l)%nat h h' ->
  exists extra, h' = h ++ extra.
Proof.
  intros [HL Hk]. exists (skipn (List.length h) h').
  rewrite <- (firstn_skipn (List.length h) h') at 1. f_equal.
  apply nth_error_ext. intros l.
  destruct (Nat.lt_ge_cases l (List.length h)) as [Hl|Hl].
  - rewrite nth_error_firstn.
    destruct (Nat.ltb_spec l (List.length h)); [|lia].
    apply Hk. lia.
  - rewrite (proj2 (nth_error_None h l)) by exact Hl.
    apply nth_error_None. rewrite length_firstn. lia.
Qed.

(** The sub-datasets of the groups are new arrays: building them leaves
    the arrays of the caller as they are. *)
Lemma safe_subgroups (k : nat) (cf : configs F) gs :
  safe k (fun l => k <= l)%nat
       (Forall (fun e : string * configs F =>
                  weights_in (fun l => k <= l)%nat (snd e)))
       (mapM (fun g => (sc <- get_subgroup cf g ;; ret (g, sc))%M) gs).
Proof.
  apply safe_mapM. intros g _.
  eapply safe_bind. { apply safe_get_subgroup. auto. }
  intros sc Hsc. apply safe_ret. exact Hsc.
Qed.

(** C5: in [group_errors] the entry for all groups is the dataset itself,
    and when the loop reaches it the systems that [make_Abw] assembles
    from it are, element for element, those assembled from the dataset
    before the call. *)
Theorem all_groups_system_identical (x : list (list F)) (opts : options F)
  (cf : configs F) (h : heap F) (offset return_subsystems : bool)
  (subsystems : bool * bool * bool) :
  weights_in (fun l => l < List.length h)%nat cf ->
  (1 < List.length (group_set (Group cf)))%nat ->
  match make_subconfigs cf h with
  | Ok (sc, h1) =>
      dict_get "*ALL" sc = Some cf
      /\ match mapM (group_records x opts subsystems)
                    (entries_before "*ALL" sc) h1 with
         | Ok (_, h2) =>
             assembled (make_Abw cf offset return_subsystems subsystems) h2
             = assembled (make_Abw cf offset return_subsystems subsystems) h
         | Err _ => True
         end
  | Err _ => True
  end.
Proof.
  intros Hw Hg. unfold make_subconfigs, bind.
  destruct (mapM _ (group_set (Group cf)) h) as [[subs h1]|e] eqn:Es;
    [|exact I].
  apply Nat.ltb_lt in Hg. rewrite Hg.
  destruct (dict_mem "*All" subs); [exact I|].
  cbn [ret]. split; [apply dict_get_set|].
  rewrite entries_before_set.
  destruct (@safe_subgroups (List.length h) cf (group_set (Group cf))
              h subs h1 (le_n _) Es) as [Hsubs K1].
  destruct (mapM _ (entries_before "*ALL" subs) h1) as [[recs h2]|e] eqn:Er;
    [|exact I].
  assert (K2 : keeps (fun l => List.length h <= l)%nat h1 h2).
  { eapply (@safe_mapM F (List.length h) (fun l => List.length h <= l)%nat);
      [ | destruct K1; eassumption | exact Er].
    intros entry Hin. apply safe_group_records with (W := fun l => (List.length h <= l)%nat); [auto|].
    apply (entries_before_Forall "*ALL") in Hsubs.
    rewrite Forall_forall in Hsubs. apply (Hsubs entry Hin). }
  destruct (keeps_prefix (keeps_trans K1 K2)) as [extra ->].
  apply assembled_shift. exact Hw.
Qed.

End AllGroups.

(** *** What [group_errors] writes *)

Section Writes.
Context {F : Type} {NF : Num F} {OF : NumOrd F} {RF : Reduction F}.

Lemma dict_set_Forall {A} (P : string * A -> Prop) d k v :
  Forall P d -> P (k, v) -> Forall P (dict_set d k v).
Proof.
  intros Hd Hv. induction Hd as [|[k' v'] d Hp Hd IH]; simpl.
  - constructor; [exact Hv | constructor].
  - destruct (String.eqb k k'); constructor; assumption.
Qed.

Lemma safe_make_subconfigs (k : nat) (W : loc -> Prop) (cf : configs F) :
  (forall l, (k <= l)%nat -> W l) ->
  W (eweight cf) ->
  safe k W (Forall (fun e : string * configs F => W (eweight (snd e))))
       (make_subconfigs cf).
Proof.
  intros HW He. unfold make_subconfigs.
  eapply safe_bind.
  - apply safe_mapM with (Q := fun e : string * configs F => W (eweight (snd e))).
    intros g _. eapply safe_bind; [apply safe_get_subgroup; exact HW|].
    intros sc (Hsc & _). apply safe_ret. exact Hsc.
  - intros subs Hsubs. cbv beta.
    destruct (Nat.ltb 1 _); [|apply safe_ret; exact Hsubs].
    destruct (dict_mem "*All" subs); [apply safe_raise|].
    apply safe_ret. apply dict_set_Forall; assumption.
Qed.

(** Of the arrays of the caller, [group_errors] can write to the
    [eweight] array of the dataset only: every other array of the store,
    the [fweight] and [vweight] arrays among them, is the same after the
    call. *)
Lemma group_errors_writes_eweight_only (x : list (list F))
  (cf : configs F) (opts : options F) (subsystems : bool * bool * bool)
  (h h' : heap F) (rows : list (table_row F)) :
  group_errors x cf opts subsystems h = Ok (rows, h') ->
  forall l, (l < List.length h)%nat -> l <> eweight cf ->
            nth_error h' l = nth_error h l.
Proof.
  intros Hrun l Hl Hne.
  set (W := fun l' => (List.length h <= l')%nat \/ l' = eweight cf).
  assert (HW : forall l', (List.length h <= l')%nat -> W l')
    by (intros l' Hl'; left; exact Hl').
  assert (Hs : safe (List.length h) W (fun _ => True)
                    (group_errors x cf opts subsystems)).
  { unfold group_errors.
    eapply safe_bind;
      [apply safe_make_subconfigs; [exact HW | right; reflexivity]|].
    intros sc Hsc.
    eapply safe_bind with (P := fun _ => True); [|intros; apply safe_lift].
    eapply safe_weaken;
      [apply safe_mapM with (Q := fun _ => True) | intros ? _; exact I].
    intros entry Hin. apply safe_group_records; [exact HW|].
    rewrite Forall_forall in Hsc. apply Hsc. exact Hin. }
  destruct (Hs h rows h' (le_n _) Hrun) as [_ [_ Hk]].
  apply Hk. unfold W. lia.
Qed.

(** With one group there is no entry for all groups, and no array of the
    caller is written. *)
Lemma group_errors_one_group_writes_nothing (x : list (list F))
  (cf : configs F) (opts : options F) (subsystems : bool * bool * bool)
  (h h' : heap F) (rows : list (table_row F)) :
  (List.length (group_set (Group cf)) <= 1)%nat ->
  group_errors x cf opts subsystems h = Ok (rows, h') ->
  exists extra, h' = h ++ extra.
Proof.
  intros Hg Hrun. apply keeps_prefix.
  set (W := fun l' => (List.length h <= l')%nat).
  assert (Hs : safe (List.length h) W (fun _ => True)
                    (group_errors x cf opts subsystems)).
  { unfold group_errors, make_subconfigs.
    apply Nat.ltb_ge in Hg. rewrite Hg.
    eapply safe_bind.
    - eapply safe_bind; [apply safe_subgroups|].
      intros subs Hsubs. apply safe_ret. exact Hsubs.
    - intros sc Hsc.
      eapply safe_bind with (P := fun _ => True); [|intros; apply safe_lift].
      eapply safe_weaken;
        [apply safe_mapM with (Q := fun _ => True) | intros ? _; exact I].
      intros entry Hin. apply safe_group_records; [unfold W; auto|].
      rewrite Forall_forall in Hsc. apply (Hsc entry Hin). }
  destruct (Hs h rows h' (le_n _) Hrun) as [_ Hk]. exact Hk.
Qed.

End Writes.

(** *** What the guard refuses *)

Section Guard.
Context {F : Type} {NF : Num F} {OF : NumOrd F} {RF : Reduction F}.

Lemma rmapM_error {A B} (f : A -> result B) l e :
  rmapM f l = Err e -> exists a, In a l /\ f a = Err e.
Proof.
  induction l as [|a l IH]; simpl; [discriminate|].
  destruct (f a) as [b|e'] eqn:Ea; simpl.
  - destruct (rmapM f l) as [bs|e'']; simpl; [discriminate|].
    intros [= <-]. destruct (IH eq_refl) as (a' & Hin & Ha').
    exists a'. split; [right; exact Hin | exact Ha'].
  - intros [= <-]. exists a. split; [left; reflexivity | exact Ea].
Qed.

Lemma get_ind_error {A} nd (v : list A) ind e :
  get_ind nd v ind = Err e -> e = LibError.
Proof.
  unfold get_ind. destruct (nd && _); [congruence|].
  intros H. apply rmapM_error in H as (i & _ & Hi).
  unfold getitem in Hi. destruct (nth_error v i); congruence.
Qed.

Lemma lib_only_bind {A B} (m : M F A) (f : A -> M F B) :
  @lib_only F _ m -> (forall a, @lib_only F _ (f a)) -> @lib_only F _ (bind m f).
Proof.
  intros Hm Hf h e. unfold bind.
  destruct (m h) as [[a h1]|e'] eqn:E.
  - apply Hf.
  - intros [= <-]. apply (Hm h e' E).
Qed.

Lemma lib_only_ret {A} (a : A) : @lib_only F _ (ret a).
Proof. intros h e E. discriminate E. Qed.

Lemma lib_only_get_ind {A} nd (v : list A) ind :
  @lib_only F _ (lift (get_ind nd v ind)).
Proof.
  intros h e. unfold lift. destruct (get_ind nd v ind) eqn:E; [discriminate|].
  intros [= <-]. eapply get_ind_error; exact E.
Qed.

Lemma lib_only_get_ind_loc l ind : @lib_only F _ (get_ind_loc l ind).
Proof.
  unfold get_ind_loc. apply lib_only_bind.
  - intros h e. unfold load. destruct (nth_error h l); congruence.
  - intros v. apply lib_only_bind; [apply lib_only_get_ind|].
    intros v' h e E. discriminate E.
Qed.

Lemma lib_only_get_subgroup cf g : @lib_only F _ (get_subgroup cf g).
Proof.
  unfold get_subgroup.
  do 13 (apply lib_only_bind; [apply lib_only_get_ind | intros ?]).
  do 3 (apply lib_only_bind; [apply lib_only_get_ind_loc | intros ?]).
  apply lib_only_ret.
Qed.

Lemma lib_only_mapM {A B} (f : A -> M F B) l :
  (forall a, @lib_only F _ (f a)) -> @lib_only F _ (mapM f l).
Proof.
  intros Hf. induction l as [|a l IH]; cbn [mapM]; [apply lib_only_ret|].
  apply lib_only_bind; [apply Hf|]. intros b.
  apply lib_only_bind; [exact IH|]. intros bs. apply lib_only_ret.
Qed.

Lemma subgroups_keys (cf : configs F) gs h subs h' :
  mapM (fun g => (sc <- get_subgroup cf g ;; ret (g, sc))%M) gs h
  = Ok (subs, h') ->
  map fst subs = gs.
Proof.
  revert h subs h'. induction gs as [|g gs IH]; intros h subs h'; cbn [mapM].
  - intros [= <- <-]. reflexivity.
  - unfold bind at 1. unfold bind at 1.
    destruct (get_subgroup cf g h) as [[sc h1]|]; [|discriminate].
    cbn [ret]. unfold bind at 1.
    destruct (mapM _ gs h1) as [[rest h2]|] eqn:E; [|discriminate].
    intros [= <- <-]. simpl. f_equal. eapply IH; exact E.
Qed.

Lemma dict_mem_In {A} k (d : list (string * A)) :
  dict_mem k d = true <-> In k (map fst d).
Proof.
  induction d as [|[k' v] d IH]; simpl; [split; [discriminate | tauto]|].
  rewrite orb_true_iff, IH, String.eqb_eq. split; intros [H|H]; auto.
Qed.

(** The name that [group_errors] refuses is "*All": the call raises the
    [ValueError] exactly when there is more than one group and one of them
    has that name (and the sub-datasets could be built). *)
Lemma make_subconfigs_refuses (cf : configs F) (h : heap F) (msg : string) :
  make_subconfigs cf h = Err (ValueError msg) ->
  In "*All"%string (Group cf)
  /\ (1 < List.length (group_set (Group cf)))%nat.
Proof.
  unfold make_subconfigs, bind.
  destruct (mapM _ (group_set (Group cf)) h) as [[subs h1]|e] eqn:Es.
  - destruct (Nat.ltb_spec 1 (List.length (group_set (Group cf))));
      [|discriminate].
    destruct (dict_mem "*All" subs) eqn:Em; [|discriminate].
    intros _. split; [|assumption].
    apply dict_mem_In in Em. rewrite (subgroups_keys _ _ _ Es) in Em.
    unfold group_set in Em. apply nodup_In in Em. exact Em.
  - intros [= ->].
    assert (H : ValueError msg = LibError); [|discriminate H].
    eapply (@lib_only_mapM _ _ (fun g => (sc <- get_subgroup cf g ;; ret (g, sc))%M));
      [|exact Es].
    intros g. apply lib_only_bind; [apply lib_only_get_subgroup|].
    intros sc. apply lib_only_ret.
Qed.

(** A real group "*ALL" is never refused for its name. *)
Lemma group_ALL_never_refused (cf : configs F) (h : heap F) (msg : string) :
  ~ In "*All"%string (Group cf) ->
  make_subconfigs cf h <> Err (ValueError msg).
Proof.
  intros Hn E. apply make_subconfigs_refuses in E. tauto.
Qed.

End Guard.

(** ** The theorems at the sample data *)

Ltac evaluate :=
  vm_compute;
  repeat first [ reflexivity | discriminate | split | constructor
               | intro ].

Lemma makeAbw_vb_target_witness :
  exists s h',
    makeAbw_vb Sample.cfg2 true (Some _nktv2p) Sample.heap2 = Ok (s, h')
    /\ sysb s = virial_target (Stress Sample.cfg2) (ref_Stress Sample.cfg2)
    /\ sysb s
       = concat (map2 (fun S r =>
                         map2 sub [entry S 0 0; entry S 1 1; entry S 2 2;
                                   entry S 1 2; entry S 0 2; entry S 0 1] r)
                      (Stress Sample.cfg2) (ref_Stress Sample.cfg2))
    /\ List.length (sysb s) = (6 * List.length (Stress Sample.cfg2))%nat.
Proof.
  apply (@makeAbw_vb_target float _ Sample.cfg2 true (Some _nktv2p)
                            Sample.heap2 [3; 4]%float); evaluate.
Defined.

Lemma assemblers_row_counts_witness :
  wf_dataset 2 Sample.cfg2 Sample.heap2
  /\ (exists s w,
        makeAbw_b Sample.cfg2 true None Sample.heap2 = Ok (s, Sample.heap2)
        /\ List.length (sysA s) = 2%nat
        /\ List.length (sysb s) = List.length (sysA s)
        /\ nth_error Sample.heap2 (sysw s) = Some w
        /\ List.length w = List.length (sysA s))
  /\ (exists s w,
        makeAbw_db Sample.cfg2 true None Sample.heap2
        = Ok (s, Sample.heap2 ++ [w])
        /\ Z.of_nat (List.length (sysA s)) = 15%Z
        /\ List.length (sysb s) = List.length (sysA s)
        /\ nth_error (Sample.heap2 ++ [w]) (sysw s) = Some w
        /\ List.length w = List.length (sysA s))
  /\ (exists s w,
        makeAbw_vb Sample.cfg2 true (Some _nktv2p) Sample.heap2
        = Ok (s, Sample.heap2 ++ [w])
        /\ List.length (sysA s) = 12%nat
        /\ List.length (sysb s) = List.length (sysA s)
        /\ nth_error (Sample.heap2 ++ [w]) (sysw s) = Some w
        /\ List.length w = List.length (sysA s)).
Proof.
  assert (W : wf_dataset 2 Sample.cfg2 Sample.heap2).
  { constructor; try (eexists; split; reflexivity); evaluate. }
  split; [exact W|].
  exact (@assemblers_row_counts float _ _ 2%nat Sample.cfg2 Sample.heap2 true
                                None None (Some _nktv2p) W).
Defined.

Lemma energy_type_offset_fractions_witness :
  exists A',
    energy_type_offset [[[1]; [2]]; [[3]; [4]]]%float
                       [[1; 2]; [1; 1; 2]]%Z = Ok A'
    /\ forall i ts,
         nth_error [[1; 2]; [1; 1; 2]]%Z i = Some ts ->
         exists row,
           nth_error A' i = Some row
           /\ map (hd zero) row
              = map (fun j =>
                       (float_of_Z (Z.of_nat (type_count ts j))
                        / float_of_Z (Z.of_nat (List.length ts)))%float)
                    (seq 0 2)
           /\ list_sum (map (type_count ts) (seq 0 2)) = List.length ts.
Proof.
  apply (@energy_type_offset_fractions float_Reduction
           [[[1]; [2]]; [[3]; [4]]]%float [[1]; [2]]%float
           [[[3]; [4]]]%float [[1; 2]; [1; 1; 2]]%Z);
    [reflexivity | repeat constructor | reflexivity | |].
  - repeat constructor; simpl; lia.
  - repeat constructor.
Defined.

Lemma energy_type_offset_type_zero_witness :
  exists A',
    energy_type_offset [[[1]; [2]]; [[3]; [4]]]%float
                       [[0; 1]; [0; 0; 2]]%Z = Ok A'
    /\ forall i ts,
         nth_error [[0; 1]; [0; 0; 2]]%Z i = Some ts ->
         exists row,
           nth_error A' i = Some row
           /\ map (hd zero) row
              = map (fun j =>
                       (float_of_Z
                          (Z.of_nat (type_count (map (retype 2) ts) j))
                        / float_of_Z (Z.of_nat (List.length ts)))%float)
                    (seq 0 2)
           /\ type_count (map (retype 2) ts) 1
              = (count_occ Z.eq_dec ts 2%Z + count_occ Z.eq_dec ts 0%Z)%nat
           /\ forall j, (S j < 2)%nat ->
                        type_count (map (retype 2) ts) j = type_count ts j.
Proof.
  apply (@energy_type_offset_type_zero float_Reduction
           [[[1]; [2]]; [[3]; [4]]]%float [[1]; [2]]%float
           [[[3]; [4]]]%float [[0; 1]; [0; 0; 2]]%Z);
    [reflexivity | simpl; lia | repeat constructor | reflexivity | |].
  - repeat constructor; simpl; lia.
  - repeat constructor.
Defined.


Lemma get_error_metrics_rsq_exact_fit_witness :
  exists r,
    get_error_metrics [[1]]%float [[[1]]; [[2]]]%float [1; 2]%float
                      (Some 0%nat) false [[1; 1]]%float
    = Ok (r, [[1; 1]]%float)
    /\ ssr r = 0%float /\ rsq r = 1%float.
Proof.
  destruct (@get_error_metrics_rsq_exact_fit float_Reduction [[1]]%float
              [[[1]]; [[2]]]%float [1; 2]%float 0%nat [1; 1]%float false
              [[1; 1]]%float)
    as (r & Hr & Hs & H1 & _); [evaluate..|].
  exists r. split; [exact Hr|]. split; [exact Hs|].
  apply H1; vm_compute; reflexivity.
Defined.

Lemma all_groups_system_identical_witness :
  match make_subconfigs Sample.cfg1 Sample.heap1 with
  | Ok (sc, h1) =>
      dict_get "*ALL" sc = Some Sample.cfg1
      /\ match mapM (group_records Sample.x1 Sample.opts1 (true, true, true))
                    (entries_before "*ALL" sc) h1 with
         | Ok (_, h2) =>
             assembled (make_Abw Sample.cfg1 true true (true, true, true)) h2
             = assembled (make_Abw Sample.cfg1 true true (true, true, true))
                         Sample.heap1
         | Err _ => True
         end
  | Err _ => True
  end.
Proof.
  apply (@all_groups_system_identical float _ _ _ Sample.x1 Sample.opts1
           Sample.cfg1 Sample.heap1 true true (true, true, true)).
  - repeat split; simpl; lia.
  - simpl. lia.
Defined.


(** ** The solvers *)

Lemma get_solver_fn_regularised_no_intercept {F} {NF : Num F}
  (o : options F) (solver : string) :
  In solver ["LASSO"; "RIDGE"; "ELASTIC"; "SGD"]%string ->
  exists f, get_solver_fn o solver = Ok f
            /\ constructed_fit_intercept f = false.
Proof.
  intros Hin; simpl in Hin.
  repeat (destruct Hin as [<- | Hin]; [eexists; split; reflexivity |]).
  contradiction.
Qed.

(** C4, at the selector "SVD": the model of [get_solver_fn] for "SVD" is
    built without any keyword argument, so [fit_intercept] is not passed
    and the model is constructed with the default, [True]; the other four
    selectors pass [fit_intercept=False]. *)
Theorem get_solver_fn_SVD_default_intercept {F} {NF : Num F}
  (o : options F) :
  exists f, get_solver_fn o "SVD" = Ok f
            /\ fit_modelcls f = LinearRegression
            /\ model_kwargs f = []
            /\ constructed_fit_intercept f = true.
Proof.
  eexists; repeat split; reflexivity.
Qed.

(** ** The guard on the name of the entry for all groups *)

(** C2, at a dataset with the groups "*ALL" and "b": the guard of
    [group_errors] looks for the key "*All", so the real group "*ALL" is
    not refused; its sub-dataset is replaced by the whole dataset and the
    table is computed.  A real group "*All" is refused although the entry
    that is added has another name. *)
Theorem group_named_ALL_not_refused :
  match make_subconfigs Sample.cfg_ALL Sample.heap1 with
  | Ok (sc, _) =>
      List.length sc = 2%nat
      /\ dict_get "*ALL" sc = Some Sample.cfg_ALL
  | Err _ => False
  end
  /\ match group_errors Sample.x1 Sample.cfg_ALL Sample.opts1
             (true, true, true) Sample.heap1 with
     | Ok (rows, _) => List.length rows = 32%nat
     | Err _ => False
     end
  /\ make_subconfigs Sample.cfg_All Sample.heap1
     = Err (ValueError "groupname '*ALL' not allowed.").
Proof.
  vm_compute. repeat split; reflexivity.
Qed.

(** ** In-place writes of [group_errors] *)

(** C1, at a dataset with two groups and [compute_testerrs] set: after
    [group_errors] the [eweight] array of the dataset holds the mask
    [1.0, 1.0] instead of the weights [0.5, 0.25]; the [fweight] and
    [vweight] arrays are as before. *)
Theorem group_errors_overwrites_eweight :
  nth_error Sample.heap1 (eweight Sample.cfg1) = Some [0.5; 0.25]%float
  /\ match group_errors Sample.x1 Sample.cfg1 Sample.opts1
             (true, true, true) Sample.heap1 with
     | Ok (_, h') =>
         nth_error h' (eweight Sample.cfg1) = Some [1; 1]%float
         /\ nth_error h' (fweight Sample.cfg1)
            = nth_error Sample.heap1 (fweight Sample.cfg1)
         /\ nth_error h' (vweight Sample.cfg1)
            = nth_error Sample.heap1 (vweight Sample.cfg1)
     | Err _ => False
     end.
Proof.
  vm_compute. repeat split; reflexivity.
Qed.

(** * Further properties *)

(** ** The offset columns *)

Section OffsetColumns.
Context {F : Type} {NF : Num F} {RF : Reduction F}.

Lemma rmapM_ok_inv {A B} (f : A -> result B) l ys :
  rmapM f l = Ok ys -> Forall2 (fun a y => f a = Ok y) l ys.
Proof.
  revert ys; induction l as [|a l IH]; intros ys; simpl.
  - intros [= <-]. constructor.
  - destruct (f a) as [y|] eqn:E; [|discriminate]. simpl.
    destruct (rmapM f l) as [zs|]; [|discriminate]. simpl.
    intros [= <-]. constructor; [exact E | apply IH; reflexivity].
Qed.

Lemma eye_row_ok_inv n t (r : list F) :
  eye_row n (t - 1) = Ok r -> indexable n t.
Proof.
  unfold eye_row, indexable.
  destruct (Z.leb_spec (- Z.of_nat n) (t - 1));
    destruct (Z.ltb_spec (t - 1) (Z.of_nat n)); simpl;
    try discriminate. intros _. lia.
Qed.

(** What a successful call says of its arguments. *)
Lemma energy_type_offset_ok_inv (A A' : list (list (list F)))
  (AtomTypes : list (list Z)) :
  energy_type_offset A AtomTypes = Ok A' ->
  exists row0 rest,
    A = row0 :: rest
    /\ List.length AtomTypes = List.length A
    /\ Forall (Forall (indexable (List.length row0))) AtomTypes.
Proof.
  unfold energy_type_offset. destruct A as [|row0 rest]; [discriminate|].
  destruct (rmapM _ AtomTypes) as [rows|] eqn:Er; [|discriminate].
  cbn [rbind]. intros H. exists row0, rest. split; [reflexivity|].
  assert (Hlen := rmapM_length _ _ Er).
  assert (Hall := rmapM_ok_inv _ _ Er).
  split.
  - destruct rows as [|r rows]; [discriminate H|]. cbn [np_stack rbind] in H.
    rewrite length_map in H.
    destruct (Nat.eqb_spec (List.length (r :: rows))
                           (List.length (row0 :: rest))); [|discriminate H].
    congruence.
  - clear - Hall. induction Hall as [|ts y T Y Hts _ IH]; constructor;
      [|exact IH].
    destruct (rmapM (fun t => eye_row (List.length row0) (t - 1)) ts)
      as [hot|] eqn:Eh; [|discriminate Hts].
    apply rmapM_ok_inv in Eh. clear - Eh.
    induction Eh as [|t r ts hot Ht _ IH]; constructor; [|exact IH].
    eapply eye_row_ok_inv; exact Ht.
Qed.

(** X1: [energy_type_offset] returns exactly when the matrix has a row,
    [AtomTypes] has one entry per row, and every type id indexes
    [np.eye(n_types)], that is lies in [1 - n_types, n_types]. *)
Theorem energy_type_offset_returns_iff (A : list (list (list F)))
  (AtomTypes : list (list Z)) :
  (exists A', energy_type_offset A AtomTypes = Ok A')
  <-> (A <> []
       /\ List.length AtomTypes = List.length A
       /\ Forall (Forall (fun t => 1 - Z.of_nat (List.length (hd [] A)) <= t
                                   <= Z.of_nat (List.length (hd [] A)))%Z)
                 AtomTypes).
Proof.
  split.
  - intros [A' H]. apply energy_type_offset_ok_inv in H
      as (row0 & rest & -> & HL & HI).
    split; [discriminate|]. split; [exact HL|]. cbn [hd].
    eapply Forall_impl; [|exact HI]. intros ts Hts.
    eapply Forall_impl; [|exact Hts]. intros t. unfold indexable. lia.
  - intros (HA & HL & HI). destruct A as [|row0 rest]; [congruence|].
    cbn [hd] in HI. eexists.
    apply (energy_type_offset_indexable eq_refl HL).
    eapply Forall_impl; [|exact HI]. intros ts Hts.
    eapply Forall_impl; [|exact Hts]. intros t. unfold indexable. lia.
Qed.

Lemma drop_offset_column (frs : list (list F)) (A : list (list (list F))) n :
  List.length frs = List.length A ->
  Forall (fun fr => List.length fr = n) frs ->
  Forall (fun r => List.length r = n) A ->
  map (map (@tl F)) (map2 (fun fr a => map2 (fun v c => v :: c) fr a) frs A)
  = A.
Proof.
  intros HL Hf; revert A HL. induction Hf as [|fr frs Hfr _ IH];
    intros [|a A] HL HA; simpl in *; try discriminate; [reflexivity|].
  inversion HA as [|? ? Ha HA']; subst. f_equal; [|apply IH; [lia|exact HA']].
  clear - Ha. revert a Ha. induction fr as [|v fr IHf]; intros [|c a] Ha;
    simpl in *; try discriminate; [reflexivity|].
  f_equal. apply IHf. lia.
Qed.

(** X2: [energy_type_offset] prepends one column and leaves the
    descriptors as they are: the result has the rows of [A_energy], every
    type row starts with the offset entry, and without that entry it is
    the type row of [A_energy]. *)
Theorem energy_type_offset_keeps_descriptors (A A' : list (list (list F)))
  (AtomTypes : list (list Z)) :
  energy_type_offset A AtomTypes = Ok A' ->
  Forall (fun r => List.length r = List.length (hd [] A)) A ->
  List.length A' = List.length A
  /\ map (map (@tl F)) A' = A
  /\ Forall (Forall (fun c => c <> [])) A'.
Proof.
  intros H Hrect.
  destruct (energy_type_offset_ok_inv _ _ H) as (row0 & rest & -> & HL & HI).
  cbn [hd] in Hrect.
  rewrite (energy_type_offset_indexable eq_refl HL HI) in H.
  injection H as <-.
  assert (Hfr : Forall (fun fr : list F => List.length fr = List.length row0)
                       (map (type_fractions (List.length row0)) AtomTypes)).
  { apply Forall_map. apply Forall_forall. intros ts _.
    apply type_fractions_length. }
  split; [|split].
  - rewrite map2_length, length_map, HL. apply Nat.min_id.
  - apply (@drop_offset_column _ _ (List.length row0));
      [rewrite length_map; exact HL | exact Hfr | exact Hrect].
  - apply Forall_map2. intros i fr a _ _.
    apply Forall_map2. intros j v c _ _. discriminate.
Qed.

(** X3: with [offset] the force and the virial matrix get a column of
    zeros: every type row of the matrix that [makeAbw_db] or
    [makeAbw_vb] returns starts with 0. *)
Theorem force_virial_offset_zero (cf : configs F) (conversion : option F)
  (h : heap F) :
  match makeAbw_db cf true conversion h with
  | Ok (s, _) => Forall (Forall (fun c => hd_error c = Some zero)) (sysA s)
  | Err _ => True
  end
  /\ match makeAbw_vb cf true conversion h with
     | Ok (s, _) => Forall (Forall (fun c => hd_error c = Some zero)) (sysA s)
     | Err _ => True
     end.
Proof.
  assert (Hz : forall a : list (list (list F)),
             Forall (Forall (fun c => hd_error c = Some zero))
                    (zero_type_offset a)).
  { intros a. unfold zero_type_offset. apply Forall_map, Forall_forall.
    intros r _. apply Forall_map, Forall_forall. intros c _. reflexivity. }
  split.
  - unfold makeAbw_db, bind, lift, load, alloc, ret.
    destruct (np_concatenate (db_atom cf)); [|exact I].
    destruct (rbind _ _); [|exact I].
    destruct (nth_error h (fweight cf)); [|exact I].
    destruct (rbind _ _); [|exact I]. apply Hz.
  - unfold makeAbw_vb, bind, lift, load, alloc, ret.
    destruct (bcast2 _ _ _); [|exact I].
    destruct (rbind _ _); [|exact I].
    destruct (nth_error h (vweight cf)); [|exact I]. apply Hz.
Qed.

End OffsetColumns.

(** ** The weight vectors of the systems *)

Section SystemWeights.
Context {F : Type} {NF : Num F} {RF : Reduction F}.

Lemma reshape1_ok_inv {A} (v v' : list A) n :
  reshape1 v n = Ok v' -> v' = v.
Proof. unfold reshape1. destruct (Nat.eqb _ _); congruence. Qed.

Lemma np_concatenate_ok_inv {A} (ls : list (list A)) v :
  np_concatenate ls = Ok v -> v = concat ls.
Proof. destruct ls; simpl; congruence. Qed.

(** What a successful call of [makeAbw_db] did to the store. *)
Lemma makeAbw_db_ok_inv (cf : configs F) offset conversion h s h' :
  makeAbw_db cf offset conversion h = Ok (s, h') ->
  exists fw,
    nth_error h (fweight cf) = Some fw
    /\ sysw s = List.length h
    /\ h' = h ++ [concat (concat (map2 (fun a b => map (map (fun _ => b)) a)
                                       (Forces cf) fw))].
Proof.
  unfold makeAbw_db, bind, lift, load, alloc, ret.
  destruct (np_concatenate (db_atom cf)); [|discriminate].
  destruct (rbind _ _); [|discriminate].
  destruct (nth_error h (fweight cf)) as [fw|]; [|discriminate].
  destruct (np_concatenate (map2 _ (Forces cf) fw)) as [full|] eqn:Ef;
    [|discriminate]. cbn [rbind].
  destruct (reshape1 _ _) as [wv|] eqn:Er; [|discriminate].
  intros [= <- <-]. apply reshape1_ok_inv in Er.
  apply np_concatenate_ok_inv in Ef. subst.
  exists fw. repeat split.
Qed.

Lemma makeAbw_vb_ok_inv (cf : configs F) offset conversion h s h' :
  makeAbw_vb cf offset conversion h = Ok (s, h') ->
  exists vw,
    nth_error h (vweight cf) = Some vw
    /\ sysw s = List.length h
    /\ h' = h ++ [np_repeat vw 6].
Proof.
  unfold makeAbw_vb, bind, lift, load, alloc, ret.
  destruct (bcast2 _ _ _); [|discriminate].
  destruct (rbind _ _); [|discriminate].
  destruct (nth_error h (vweight cf)) as [vw|]; [|discriminate].
  intros [= <- <-]. exists vw. repeat split.
Qed.

Lemma makeAbw_b_ok_inv (cf : configs F) offset conversion h s h' :
  makeAbw_b cf offset conversion h = Ok (s, h') ->
  sysw s = eweight cf /\ h' = h.
Proof.
  unfold makeAbw_b, lift.
  destruct (bcast2 _ _ _); [|discriminate]. cbn [rbind].
  destruct (bcast2 _ _ _); [|discriminate]. cbn [rbind].
  destruct (bcast2 _ _ _); [|discriminate]. cbn [rbind].
  destruct (if offset then _ else _); [|discriminate]. cbn [rbind].
  intros [= <- <-]. split; reflexivity.
Qed.

Lemma full_like_rows {A} (x : list (list A)) (b : F) :
  Forall (fun a => List.length a = 3%nat) x ->
  concat (map (map (fun _ => b)) x) = repeat b (3 * List.length x).
Proof.
  induction 1 as [|a x Ha _ IH]; [reflexivity|].
  cbn [map concat]. rewrite IH.
  replace (3 * List.length (a :: x))%nat
    with (3 + 3 * List.length x)%nat by (simpl; lia).
  rewrite repeat_app. f_equal.
  destruct a as [|? [|? [|? [|]]]]; try discriminate. reflexivity.
Qed.

Lemma full_like_weights {A} (N : list Z) (f : list (list (list A)))
  (fw : list F) :
  per_atom N f ->
  concat (concat (map2 (fun a b => map (map (fun _ => b)) a) f fw))
  = force_weights N fw.
Proof.
  unfold force_weights. intros H; revert fw.
  induction H as [|n x N f [Hn Hx] _ IH]; intros [|b fw]; try reflexivity.
  cbn [map2 concat]. rewrite concat_app, IH. f_equal.
  rewrite (full_like_rows b Hx). f_equal. lia.
Qed.

(** X4: the weight vector of the force system holds the [fweight] of
    every configuration once for each of its [3 * NumAtoms] force
    components, in a new array; [fweight] itself is not touched. *)
Theorem makeAbw_db_weights n_types (cf : configs F) (h : heap F)
  (offset : bool) (conversion : option F) (fw : list F) :
  wf_dataset n_types cf h ->
  nth_error h (fweight cf) = Some fw ->
  exists s h',
    makeAbw_db cf offset conversion h = Ok (s, h')
    /\ nth_error h' (sysw s) = Some (force_weights (NumAtoms cf) fw)
    /\ sysw s <> fweight cf
    /\ nth_error h' (fweight cf) = Some fw.
Proof.
  intros W Hfw.
  destruct (makeAbw_db_rows offset conversion W) as (s & w & Hrun & _).
  exists s, (h ++ [w]). split; [exact Hrun|].
  destruct (makeAbw_db_ok_inv _ _ _ _ Hrun) as (fw' & Hfw' & Hs & Hh).
  assert (fw' = fw) by congruence. subst fw'.
  assert (Hlt : (fweight cf < List.length h)%nat)
    by (apply nth_error_Some; congruence).
  rewrite Hh, Hs. split; [|split].
  - rewrite nth_error_app2, Nat.sub_diag by lia. cbn [nth_error].
    f_equal. apply full_like_weights. exact (wf_Forces W).
  - lia.
  - rewrite nth_error_app1 by exact Hlt. exact Hfw.
Qed.

(** X5: the weight vector of the virial system holds the [vweight] of
    every configuration six times, and that of the energy system is the
    [eweight] array of the dataset itself, not a copy. *)
Theorem makeAbw_vb_b_weights (cf : configs F) (h : heap F)
  (offset : bool) (ce cv : option F) :
  match makeAbw_vb cf offset cv h with
  | Ok (s, h') =>
      exists vw, nth_error h (vweight cf) = Some vw
                 /\ nth_error h' (sysw s) = Some (np_repeat vw 6)
                 /\ sysw s <> vweight cf
  | Err _ => True
  end
  /\ match makeAbw_b cf offset ce h with
     | Ok (s, h') => sysw s = eweight cf /\ h' = h
     | Err _ => True
     end.
Proof.
  split.
  - destruct (makeAbw_vb cf offset cv h) as [[s h']|] eqn:E; [|exact I].
    destruct (makeAbw_vb_ok_inv _ _ _ _ E) as (vw & Hvw & Hs & ->).
    exists vw. split; [exact Hvw|].
    assert (Hlt : (vweight cf < List.length h)%nat)
      by (apply nth_error_Some; congruence).
    rewrite Hs. split; [|lia].
    rewrite nth_error_app2, Nat.sub_diag by lia. reflexivity.
  - destruct (makeAbw_b cf offset ce h) as [[s h']|] eqn:E; [|exact I].
    apply (makeAbw_b_ok_inv _ _ _ _ E).
Qed.

End SystemWeights.

(** ** The composed system *)

Section ComposeMore.
Context {F : Type} {NF : Num F} {OF : NumOrd F} {RF : Reduction F}.

Lemma mapM_length {A B} (f : A -> M F B) l h ys h' :
  mapM f l h = Ok (ys, h') -> List.length ys = List.length l.
Proof.
  revert h ys h'. induction l as [|a l IH]; intros h ys h'; cbn [mapM].
  - intros [= <- <-]. reflexivity.
  - unfold bind at 1. destruct (f a h) as [[y h1]|]; [|discriminate].
    unfold bind at 1. destruct (mapM f l h1) as [[zs h2]|] eqn:E;
      [|discriminate].
    intros [= <- <-]. simpl. f_equal. eapply IH; exact E.
Qed.

Lemma select_length {A} (fs : list A) e f v :
  List.length fs = 3%nat ->
  List.length (select fs (e, f, v))
  = List.length (filter (fun b : bool => b) [e; f; v]).
Proof.
  destruct fs as [|a [|b [|c [|]]]]; try discriminate. intros _.
  destruct e, f, v; reflexivity.
Qed.

Lemma make_Abw_returns_systems (cf : configs F) (offset : bool)
  (subsystems : bool * bool * bool) (h h' : heap F) (r : Abw F) :
  make_Abw cf offset true subsystems h = Ok (r, h') ->
  exists l, r = Systems l
            /\ List.length l = List.length (get_subsys_names subsystems).
Proof.
  unfold make_Abw, bind.
  destruct (mapM _ (select assemblers subsystems) h) as [[subs h1]|] eqn:Em;
    [|discriminate].
  apply mapM_length in Em.
  destruct subsystems as [[e f] v].
  rewrite (select_length assemblers e f v eq_refl) in *.
  unfold get_subsys_names.
  destruct (Nat.eqb_spec (List.length (filter (fun b : bool => b) [e; f; v])) 1)
    as [E1|E1].
  - cbn [ret]. intros [= <- <-]. exists subs. split; [reflexivity|].
    rewrite Em, E1. destruct e, f, v; try discriminate E1; reflexivity.
  - destruct subs as [|s0 subs]; [discriminate|].
    unfold lift, alloc, ret.
    destruct (np_concatenate (map _ (s0 :: subs))); [|discriminate].
    destruct (np_concatenate (map _ (s0 :: subs))); [|discriminate].
    destruct (mapM _ (s0 :: subs) h1) as [[ws h2]|]; [|discriminate].
    destruct (np_concatenate ws); [|discriminate].
    intros [= <- <-]. eexists. split; [reflexivity|].
    cbn [List.length] in *. rewrite Em.
    destruct e, f, v; try (exfalso; apply E1; reflexivity);
      try discriminate Em; reflexivity.
Qed.

(** X6: the tuple that [make_Abw] returns with [return_subsystems] has
    one system for every name of [get_subsys_names], so that the [zip] of
    names and systems in [group_errors] drops nothing; it is never a bare
    [(A, b, w)]. *)
Theorem make_Abw_systems_match_names (cf : configs F) (offset : bool)
  (subsystems : bool * bool * bool) (h : heap F) :
  match make_Abw cf offset true subsystems h with
  | Ok (Systems l, _) =>
      List.length l = List.length (get_subsys_names subsystems)
  | Ok (System _, _) => False
  | Err _ => True
  end.
Proof.
  destruct (make_Abw cf offset true subsystems h) as [[r h']|] eqn:E;
    [|exact I].
  destruct (make_Abw_returns_systems _ _ _ _ E) as (l & -> & Hl).
  exact Hl.
Qed.

Lemma mapM_load_inv (subs : list (subsystem F)) (h : heap F) ws h' :
  mapM (fun s => load (sysw s)) subs h = Ok (ws, h') ->
  h' = h /\ Forall2 (fun s w => nth_error h (sysw s) = Some w) subs ws.
Proof.
  revert ws h'. induction subs as [|s subs IH]; intros ws h'; cbn [mapM].
  - intros [= <- <-]. split; [reflexivity | constructor].
  - unfold bind at 1. unfold load at 1.
    destruct (nth_error h (sysw s)) as [w|] eqn:Ew; [|discriminate].
    unfold bind at 1.
    destruct (mapM _ subs h) as [[zs h2]|] eqn:E; [|discriminate].
    intros [= <- <-]. destruct (IH _ _ eq_refl) as [-> Hall].
    split; [reflexivity | constructor; assumption].
Qed.

(** X7: when more than one subsystem is selected the first system of
    [make_Abw] is the combined one: its matrix, target and weight vector
    are those of the subsystems after it, joined in their order, and its
    weight vector is a new array. *)
Theorem make_Abw_combined_is_concatenation (cf : configs F) (offset : bool)
  (subsystems : bool * bool * bool) (h : heap F) :
  match make_Abw cf offset true subsystems h with
  | Ok (Systems l, h') =>
      (1 < List.length l)%nat ->
      exists c subs ws,
        l = c :: subs
        /\ sysA c = concat (map (@sysA F) subs)
        /\ sysb c = concat (map (@sysb F) subs)
        /\ Forall2 (fun s w => nth_error h' (sysw s) = Some w) subs ws
        /\ nth_error h' (sysw c) = Some (concat ws)
        /\ Forall (fun s => sysw s <> sysw c) subs
  | _ => True
  end.
Proof.
  unfold make_Abw, bind.
  destruct (mapM _ (select assemblers subsystems) h) as [[subs h1]|] eqn:Em;
    [|exact I].
  apply mapM_length in Em.
  destruct (Nat.eqb_spec (List.length (select assemblers subsystems)) 1)
    as [E1|E1].
  - cbn [ret]. intros Hl. lia.
  - unfold lift at 1.
    destruct (np_concatenate (map (@sysA F) subs)) as [A|] eqn:EA;
      [|exact I].
    unfold lift at 1.
    destruct (np_concatenate (map (@sysb F) subs)) as [b|] eqn:Eb;
      [|exact I].
    destruct (mapM _ subs h1) as [[ws h2]|] eqn:Ew; [|exact I].
    destruct (mapM_load_inv _ _ Ew) as [-> Hws].
    unfold lift at 1.
    destruct (np_concatenate ws) as [wv|] eqn:Ec; [|exact I].
    unfold alloc, ret. intros _.
    apply np_concatenate_ok_inv in EA, Eb, Ec. subst.
    eexists _, subs, ws. split; [reflexivity|]. cbn [sysA sysb sysw].
    split; [reflexivity|]. split; [reflexivity|]. split; [|split].
    + eapply Forall2_impl; [|exact Hws]. intros s w Hs.
      rewrite nth_error_app1; [exact Hs|].
      apply nth_error_Some. congruence.
    + rewrite nth_error_app2, Nat.sub_diag by lia. reflexivity.
    + clear - Hws. induction Hws as [|s w subs ws Hs _ IH];
        constructor; [|exact IH].
      assert (sysw s < List.length h1)%nat
        by (apply nth_error_Some; congruence). lia.
Qed.

(** *** Computations that only add arrays *)

Lemma grows_ret {A} (a : A) : grows (@ret F A a).
Proof. intros h a' h' [= <- <-]. exists []. symmetry. apply app_nil_r. Qed.

Lemma grows_bind {A B} (m : M F A) (f : A -> M F B) :
  grows m -> (forall a, grows (f a)) -> grows (bind m f).
Proof.
  intros Hm Hf h b h'. unfold bind.
  destruct (m h) as [[a h1]|] eqn:E; [|discriminate].
  destruct (Hm _ _ _ E) as [e1 ->]. intros E2.
  destruct (Hf _ _ _ _ E2) as [e2 ->].
  exists (e1 ++ e2). symmetry. apply app_assoc.
Qed.

Lemma grows_lift {A} (r : result A) : grows (@lift F A r).
Proof.
  intros h a h'. unfold lift. destruct r; [|discriminate].
  intros [= <- <-]. exists []. symmetry. apply app_nil_r.
Qed.

Lemma grows_raise {A} e : grows (@raise F A e).
Proof. intros h a h' E. discriminate E. Qed.

Lemma grows_load l : grows (@load F l).
Proof.
  intros h a h'. unfold load. destruct (nth_error h l); [|discriminate].
  intros [= <- <-]. exists []. symmetry. apply app_nil_r.
Qed.

Lemma grows_alloc v : grows (@alloc F v).
Proof. intros h a h' [= <- <-]. exists [v]. reflexivity. Qed.

Lemma grows_mapM {A B} (f : A -> M F B) l :
  (forall a, grows (f a)) -> grows (mapM f l).
Proof.
  intros Hf. induction l as [|a l IH]; cbn [mapM]; [apply grows_ret|].
  apply grows_bind; [apply Hf|]. intros b.
  apply grows_bind; [exact IH|]. intros bs. apply grows_ret.
Qed.

Lemma grows_makeAbw_b cf offset conversion :
  grows (makeAbw_b cf offset conversion).
Proof. apply grows_lift. Qed.

Lemma grows_makeAbw_db cf offset conversion :
  grows (makeAbw_db cf offset conversion).
Proof.
  unfold makeAbw_db.
  apply grows_bind; [apply grows_lift | intros ?].
  apply grows_bind; [apply grows_lift | intros ?].
  apply grows_bind; [apply grows_load | intros ?].
  apply grows_bind; [apply grows_lift | intros ?].
  apply grows_bind; [apply grows_alloc | intros ?].
  apply grows_ret.
Qed.

Lemma grows_makeAbw_vb cf offset conversion :
  grows (makeAbw_vb cf offset conversion).
Proof.
  unfold makeAbw_vb.
  apply grows_bind; [apply grows_lift | intros ?].
  apply grows_bind; [apply grows_lift | intros ?].
  apply grows_bind; [apply grows_load | intros ?].
  apply grows_bind; [apply grows_alloc | intros ?].
  apply grows_ret.
Qed.

Lemma grows_make_Abw cf offset return_subsystems subsystems :
  grows (make_Abw cf offset return_subsystems subsystems).
Proof.
  unfold make_Abw. apply grows_bind.
  - assert (Hall : Forall (fun f => forall c o, grows (f c o : M F (subsystem F)))
                          (@assemblers F NF RF)).
    { repeat constructor; intros c o;
        [apply grows_makeAbw_b | apply grows_makeAbw_db | apply grows_makeAbw_vb]. }
    assert (Hsel : Forall (fun f => forall c o, grows (f c o : M F (subsystem F)))
                          (select assemblers subsystems)).
    { destruct subsystems as [[e f] v]. unfold select.
      rewrite Forall_forall in *. intros g Hg.
      apply in_map_iff in Hg as ([g' b] & <- & Hg).
      apply filter_In in Hg as [Hg _]. apply in_combine_l in Hg.
      apply Hall. exact Hg. }
    clear Hall. induction Hsel as [|g gs Hg _ IH]; cbn [mapM];
      [apply grows_ret|].
    apply grows_bind; [apply Hg|]. intros b.
    apply grows_bind; [exact IH|]. intros bs. apply grows_ret.
  - intros subs. destruct (Nat.eqb _ 1).
    + destruct return_subsystems; [apply grows_ret|].
      destruct subs; [apply grows_raise | apply grows_ret].
    + apply grows_bind; [apply grows_lift | intros ?].
      apply grows_bind; [apply grows_lift | intros ?].
      apply grows_bind; [apply grows_mapM; intros; apply grows_load | intros ?].
      apply grows_bind; [apply grows_lift | intros ?].
      apply grows_bind; [apply grows_alloc | intros ?].
      destruct return_subsystems; apply grows_ret.
Qed.

(** X8: [make_Abw] writes to no array of the store: after a call every
    array that was there is unchanged, and the arrays it made come after
    them. *)
Theorem make_Abw_writes_nothing (cf : configs F) (offset : bool)
  (return_subsystems : bool) (subsystems : bool * bool * bool)
  (h : heap F) :
  match make_Abw cf offset return_subsystems subsystems h with
  | Ok (_, h') => exists extra, h' = h ++ extra
  | Err _ => True
  end.
Proof.
  destruct (make_Abw cf offset return_subsystems subsystems h)
    as [[r h']|] eqn:E; [|exact I].
  eapply grows_make_Abw. exact E.
Qed.

End ComposeMore.

(** ** More on the error metrics *)

Section MetricsEdges.
Context {F : Type} {NF : Num F} {OF : NumOrd F} {RF : Reduction F}.

Lemma matvec_misfit (A_flat : list (list F)) (x_flat : list F) :
  Exists (fun r => List.length r <> List.length x_flat) A_flat ->
  matvec A_flat x_flat = Err LibError.
Proof.
  unfold matvec. induction 1 as [r l Hr | r l _ IH]; cbn [rmapM].
  - destruct (Nat.eqb_spec (List.length r) (List.length x_flat));
      [contradiction | reflexivity].
  - destruct (Nat.eqb (List.length r) (List.length x_flat));
      [|reflexivity]. cbn [rbind]. rewrite IH. reflexivity.
Qed.

(** X9: [get_error_metrics] raises when the matrix has no row (the
    reshape to [(0, -1)] is refused) and when a row of the flattened
    matrix has not as many entries as the flattened [x]. *)
Theorem get_error_metrics_refuses_misfit (x : list (list F))
  (A : list (list (list F))) (b : list F) (w : option loc) (incl : bool)
  (h : heap F) :
  A = [] \/ Exists (fun r => List.length (concat r)
                             <> List.length (concat x)) A ->
  get_error_metrics x A b w incl h = Err LibError.
Proof.
  intros [-> | Hex]; [reflexivity|].
  unfold get_error_metrics, bind, lift.
  destruct A as [|a0 A']; [reflexivity|].
  rewrite matvec_misfit; [reflexivity|].
  apply Exists_exists in Hex as (r & Hin & Hr).
  apply Exists_exists. exists (concat r). split; [|exact Hr].
  apply in_map. exact Hin.
Qed.

(** [get_error_metrics] leaves the store as it is, and the record holds
    the residual exactly when [include_residual] is set. *)
Lemma get_error_metrics_reads_only (x : list (list F))
  (A : list (list (list F))) (b : list F) (w : option loc) (incl : bool)
  (h : heap F) :
  match get_error_metrics x A b w incl h with
  | Ok (r, h') =>
      h' = h
      /\ (incl = false -> residual r = None)
      /\ (incl = true -> exists res, residual r = Some res)
  | Err _ => True
  end.
Proof.
  unfold get_error_metrics, bind, lift, load, ret.
  destruct A as [|a0 A']; [exact I|].
  destruct (matvec _ _) as [pred|]; [|exact I].
  destruct w as [l|].
  - destruct (nth_error h l) as [wv|]; [|exact I].
    destruct (bcast2 mul wv b) as [t|]; [|exact I].
    destruct (bcast2 mul wv pred) as [p|]; [|exact I].
    destruct (bcast2 sub t p) as [res|]; [|exact I].
    cbn [residual]. split; [reflexivity|].
    split; intros ->; [reflexivity | eexists; reflexivity].
  - destruct (bcast2 sub b pred) as [res|]; [|exact I].
    cbn [residual]. split; [reflexivity|].
    split; intros ->; [reflexivity | eexists; reflexivity].
Qed.

End MetricsEdges.

(** *** Weights that are all zero *)

Lemma float_is_zero_pm0 (v : float) :
  PrimFloat.eqb v 0 = true -> is_pm0 v.
Proof.
  rewrite FloatAxioms.eqb_spec.
  change (Prim2SF 0) with (S754_zero false). intros H.
  rewrite <- (SF2Prim_Prim2SF v).
  destruct (Prim2SF v) as [s|s| |s m e]; try destruct s; try discriminate H.
  - right. reflexivity.
  - left. reflexivity.
Qed.

Lemma float_mul_zero_finite (w b : float) :
  PrimFloat.eqb w 0 = true -> PrimFloat.is_finite b = true ->
  is_pm0 (w * b)%float.
Proof.
  intros Hw Hb. apply float_is_zero_pm0.
  revert Hw Hb.
  unfold PrimFloat.is_finite, PrimFloat.is_nan, PrimFloat.is_infinity.
  rewrite !FloatAxioms.eqb_spec, FloatAxioms.abs_spec, FloatAxioms.mul_spec.
  change (Prim2SF infinity) with (S754_infinity false).
  change (Prim2SF 0) with (S754_zero false).
  destruct (Prim2SF w) as [sw|sw| |sw mw ew]; try destruct sw;
    try discriminate;
    destruct (Prim2SF b) as [sb|sb| |sb mb eb]; try destruct sb;
    try discriminate; reflexivity.
Qed.

Lemma float_div_nan_l (v : float) : (PrimFloat.nan / v)%float = PrimFloat.nan.
Proof.
  apply Prim2SF_inj. rewrite FloatAxioms.div_spec.
  change (Prim2SF PrimFloat.nan) with S754_nan. reflexivity.
Qed.

Lemma float_sum_nans {RF : Reduction float} (l : list float) :
  l <> [] -> Forall (fun v => v = PrimFloat.nan) l -> np_sum l = PrimFloat.nan.
Proof.
  intros Hne H.
  apply (np_sum_invariant (P := fun v => v = PrimFloat.nan));
    [|exact Hne | exact H].
  intros x y -> ->. reflexivity.
Qed.

Lemma float_count_nonzero_zeros (w : list float) :
  Forall (fun v => PrimFloat.eqb v 0 = true) w -> count_nonzero w = 0%nat.
Proof.
  unfold count_nonzero. induction 1 as [|v w Hv _ IH]; [reflexivity|].
  cbn [filter]. cbn [eqb zero float_Num float_NumOrd].
  rewrite Hv. exact IH.
Qed.

Lemma pm0_products (wv b : list float) :
  Forall (fun v => PrimFloat.eqb v 0 = true) wv ->
  Forall (fun v => PrimFloat.is_finite v = true) b ->
  Forall is_pm0 (map2 mul wv b).
Proof.
  intros Hw; revert b. induction Hw as [|w wv Hw0 _ IH]; intros b Hb;
    [constructor|].
  destruct Hb as [|v b Hv Hb]; [constructor|].
  cbn [map2]. constructor; [|apply IH; exact Hb].
  apply float_mul_zero_finite; assumption.
Qed.

Lemma pm0_residual (t p : list float) :
  Forall is_pm0 t -> Forall is_pm0 p ->
  Forall is_pm0 (map2 sub t p).
Proof.
  intros Ht; revert p. induction Ht as [|a t Ha _ IH]; intros p Hp;
    [constructor|].
  destruct Hp as [|c p Hc Hp]; [constructor|].
  cbn [map2]. constructor; [|apply IH; exact Hp].
  destruct Ha as [-> | ->], Hc as [-> | ->]; [left|left|right|left];
    reflexivity.
Qed.

(** X10: with weights that are all zero [get_error_metrics] raises
    nothing.  It reports [ncount = 0] and [ssr = 0], and [mae], [rmae],
    [rmse], [rrmse] and [rsq], which divide by the count, are NaN. *)
Theorem get_error_metrics_zero_weights {RF : Reduction float}
  (x : list (list float))
  (A : list (list (list float))) (b pred : list float) (w : loc)
  (wv : list float) (incl : bool) (h : heap float) :
  A <> [] ->
  matvec (map (@concat float) A) (concat x) = Ok pred ->
  nth_error h w = Some wv ->
  List.length wv = List.length b ->
  List.length b = List.length pred ->
  Forall (fun v => PrimFloat.eqb v 0 = true) wv ->
  Forall (fun v => PrimFloat.is_finite v = true) b ->
  Forall (fun v => PrimFloat.is_finite v = true) pred ->
  exists r,
    get_error_metrics x A b (Some w) incl h = Ok (r, h)
    /\ ncount r = 0%nat
    /\ ssr r = 0%float
    /\ mae r = PrimFloat.nan
    /\ rmae r = PrimFloat.nan
    /\ rmse r = PrimFloat.nan
    /\ rrmse r = PrimFloat.nan
    /\ rsq r = PrimFloat.nan.
Proof.
  intros HA Hp Hw Lw Lb Hz Hfb Hfp.
  destruct (@get_error_metrics_weighted_record float _ _ _ x A b pred w wv
              incl h HA Hp Hw Lw Lb)
    as (r & Hr & Hn & Hmae & Hrmae & Hssr & Hrmse & Hrrmse & Hrsq & _).
  rewrite (float_count_nonzero_zeros Hz) in *.
  change (of_int (Z.of_nat 0)) with 0%float in *.
  assert (Ht := pm0_products Hz Hfb).
  assert (Hpr := pm0_products Hz Hfp).
  assert (Hres := pm0_residual Ht Hpr).
  assert (Hne : map2 sub (map2 mul wv b) (map2 mul wv pred) <> []).
  { intros E. apply (f_equal (@List.length float)) in E.
    rewrite !map2_length in E. simpl in E.
    destruct A as [|a0 A']; [congruence|].
    apply rmapM_length in Hp. simpl in Hp. lia. }
  assert (Hne_t : map2 mul wv b <> []).
  { intros E. rewrite E in Hne. apply Hne. reflexivity. }
  assert (Hs : ssr r = 0%float).
  { rewrite Hssr. apply float_sum_zeros. unfold np_square.
    apply Forall_map. eapply Forall_impl; [|exact Hres].
    intros v [-> | ->]; reflexivity. }
  assert (Hm : mae r = PrimFloat.nan).
  { rewrite Hmae. apply float_sum_nans.
    - intros E. apply map_eq_nil in E. exact (Hne E).
    - apply Forall_map. eapply Forall_impl; [|exact Hres].
      intros v [-> | ->]; reflexivity. }
  assert (Hq : rmse r = PrimFloat.nan) by (rewrite Hrmse, Hs; reflexivity).
  exists r. split; [exact Hr|]. split; [exact Hn|]. split; [exact Hs|].
  split; [exact Hm|].
  split; [rewrite Hrmae, Hm; apply float_div_nan_l|].
  split; [exact Hq|].
  split; [rewrite Hrrmse, Hq; apply float_div_nan_l|].
  rewrite Hrsq, Hs. unfold total_sum_squares.
  assert (Hmean : np_sum (map (fun t => div t 0%float) (map2 mul wv b))
                  = PrimFloat.nan).
  { apply float_sum_nans.
    - intros E. apply map_eq_nil in E. exact (Hne_t E).
    - apply Forall_map. eapply Forall_impl; [|exact Ht].
      intros v [-> | ->]; reflexivity. }
  rewrite Hmean.
  assert (Hd : np_sum (np_square (map (fun t => sub t PrimFloat.nan)
                                      (map2 mul wv b))) = PrimFloat.nan).
  { apply float_sum_nans.
    - intros E. unfold np_square in E. apply map_eq_nil, map_eq_nil in E.
      exact (Hne_t E).
    - unfold np_square. rewrite map_map. apply Forall_map.
      eapply Forall_impl; [|exact Ht].
      intros v [-> | ->]; reflexivity. }
  rewrite Hd. reflexivity.
Qed.

(** ** More on the errors by group *)

Section MaskLoop.
Context {F : Type} {NF : Num F} {OF : NumOrd F} {RF : Reduction F}.

Lemma nth_error_set_nth_same {A} (l : list A) i x :
  (i < List.length l)%nat -> nth_error (set_nth l i x) i = Some x.
Proof.
  revert i; induction l as [|y l IH]; intros [|i] H; simpl in *;
    try lia; [reflexivity|]. apply IH. lia.
Qed.

Lemma set_nth_app {A} (done : list A) a todo x :
  set_nth (done ++ a :: todo) (List.length done) x = done ++ x :: todo.
Proof. induction done as [|d done IH]; simpl; [|rewrite IH]; reflexivity. Qed.

Lemma set_nth_twice {A} (l : list A) i x y :
  set_nth (set_nth l i x) i y = set_nth l i y.
Proof.
  revert i; induction l as [|a l IH]; intros [|i]; simpl;
    [reflexivity..|]. rewrite IH. reflexivity.
Qed.

Lemma set_nth_same {A} (l : list A) i x :
  nth_error l i = Some x -> set_nth l i x = l.
Proof.
  revert i; induction l as [|a l IH]; intros [|i] H; simpl in *;
    try discriminate; [congruence|]. rewrite IH; [reflexivity | exact H].
Qed.

Lemma nth_error_lt {A} (l : list A) i x :
  nth_error l i = Some x -> (i < List.length l)%nat.
Proof. intros H. apply nth_error_Some. congruence. Qed.

(** The loop of [mask_in_place] from position [length done] on. *)
Lemma mask_loop (w : loc) (todo done : list F) (h : heap F) :
  nth_error h w = Some (done ++ todo) ->
  exists us,
    mapM (fun i =>
            cur <- load w ;;
            wi <- lift (getitem cur i) ;;
            store w i (if ltb zero wi then one else zero))%M
         (seq (List.length done) (List.length todo)) h
    = Ok (us, set_nth h w (done ++ map mask todo)).
Proof.
  revert done h. induction todo as [|a todo IH]; intros done h Hw.
  - exists []. simpl. unfold ret. rewrite set_nth_same; [reflexivity|].
    exact Hw.
  - set (f := fun i : nat =>
                (cur <- load w ;;
                 wi <- lift (getitem cur i) ;;
                 store w i (if ltb zero wi then one else zero))%M).
    assert (Hstep : f (List.length done) h
                    = Ok (tt, set_nth h w (done ++ mask a :: todo))).
    { unfold f, bind, load, lift, getitem, store. rewrite Hw.
      cbv beta iota.
      rewrite nth_error_app2, Nat.sub_diag by lia. cbn [nth_error].
      cbv beta iota. rewrite Hw.
      replace (Nat.ltb (List.length done)
                       (List.length (done ++ a :: todo))) with true
        by (symmetry; apply Nat.ltb_lt; rewrite length_app; simpl; lia).
      rewrite set_nth_app. reflexivity. }
    destruct (IH (done ++ [mask a])
                 (set_nth h w (done ++ mask a :: todo))) as (us & Hus).
    { rewrite <- app_assoc. apply nth_error_set_nth_same.
      eapply nth_error_lt; exact Hw. }
    rewrite length_app, Nat.add_1_r in Hus. fold f in Hus.
    exists (tt :: us). cbn [List.length seq mapM].
    unfold bind at 1. rewrite Hstep.
    unfold bind at 1. rewrite Hus. unfold ret.
    rewrite set_nth_twice, <- app_assoc. reflexivity.
Qed.

Lemma mask_in_place_run (w : loc) (h : heap F) (v : list F) :
  nth_error h w = Some v ->
  mask_in_place w h = Ok (tt, set_nth h w (map mask v)).
Proof.
  intros Hw. destruct (@mask_loop w v [] h Hw) as (us & Hus).
  cbn [List.length app] in Hus.
  unfold mask_in_place. unfold bind at 1. unfold load at 1. rewrite Hw.
  cbv beta iota. unfold bind at 1. rewrite Hus. reflexivity.
Qed.

(** X11: [mask_in_place] on a weight array that is in the store replaces
    every weight by 1 when it is above 0 and by 0 otherwise (a NaN gives
    0), in that array and nowhere else; on a location that is not in the
    store it raises. *)
Theorem mask_in_place_masks (w : loc) (h : heap F) :
  match nth_error h w with
  | Some v => mask_in_place w h = Ok (tt, set_nth h w (map mask v))
  | None => mask_in_place w h = Err LibError
  end.
Proof.
  destruct (nth_error h w) as [v|] eqn:Hw.
  - apply mask_in_place_run. exact Hw.
  - unfold mask_in_place, bind, load. rewrite Hw. reflexivity.
Qed.

(** What a weighted call of [get_error_metrics] that returns has read. *)
Lemma get_error_metrics_weighted_inv (x : list (list F))
  (A : list (list (list F))) (b : list F) (w : loc) (incl : bool)
  (h h' : heap F) (r : error_record F) :
  get_error_metrics x A b (Some w) incl h = Ok (r, h') ->
  h' = h /\ exists wv, nth_error h w = Some wv
                       /\ ncount r = count_nonzero wv.
Proof.
  unfold get_error_metrics, bind, lift, load, ret.
  destruct A as [|a0 A']; [discriminate|].
  destruct (matvec _ _) as [pred|]; [|discriminate].
  destruct (nth_error h w) as [wv|]; [|discriminate].
  destruct (bcast2 mul wv b) as [t|]; [|discriminate].
  destruct (bcast2 mul wv pred) as [p|]; [|discriminate].
  destruct (bcast2 sub t p) as [res|]; [|discriminate].
  intros E. injection E as <- <-. split; [reflexivity|].
  exists wv. split; reflexivity.
Qed.

Lemma get_error_metrics_inv (x : list (list F))
  (A : list (list (list F))) (b : list F) (w : option loc) (incl : bool)
  (h h' : heap F) (r : error_record F) :
  get_error_metrics x A b w incl h = Ok (r, h') -> h' = h.
Proof.
  destruct w as [l|];
    [intros E; apply get_error_metrics_weighted_inv in E; apply E|].
  unfold get_error_metrics, bind, lift, load, ret.
  destruct A as [|a0 A']; [discriminate|].
  destruct (matvec _ _) as [pred|]; [|discriminate].
  destruct (bcast2 sub b pred) as [res|]; [|discriminate].
  intros E. injection E as <- <-. reflexivity.
Qed.

End MaskLoop.

Section CrossValidation.
Context {F : Type} {NF : Num F} {OF : NumOrd F} {RF : Reduction F}.

Lemma bind_ok_inv {A B} (m : M F A) (k : A -> M F B) h b h' :
  bind m k h = Ok (b, h') ->
  exists a h1, m h = Ok (a, h1) /\ k a h1 = Ok (b, h').
Proof.
  unfold bind. destruct (m h) as [[a h1]|]; [|discriminate].
  intros E. exists a, h1. split; [reflexivity | exact E].
Qed.

(** The four records of one subsystem when the test errors are asked
    for, and the store after them. *)
Lemma subsystem_records_cv_inv (x : list (list F)) (opts : options F)
  (gname gtype : string) (s : subsystem F) (h h' : heap F)
  (rows : list (table_row F)) :
  compute_testerrs opts = true ->
  subsystem_records x opts gname gtype s h = Ok (rows, h') ->
  exists wv r1 r2 r3 r4,
    nth_error h (sysw s) = Some wv
    /\ rows = [labelled gname "Weighted" gtype r1;
               labelled gname "CVTrain_Unweight" gtype r2;
               labelled gname "CVTest_Unweight" gtype r3;
               labelled gname "Unweighted" gtype r4]
    /\ ncount r1 = count_nonzero wv
    /\ ncount r2 = count_nonzero (map mask wv)
    /\ ncount r3
       = count_nonzero (map (fun v => absv (sub one v)) (map mask wv))
    /\ h' = set_nth h (sysw s) (map mask wv)
            ++ [map (fun v => absv (sub one v)) (map mask wv)].
Proof.
  intros Hc H. unfold subsystem_records in H. rewrite Hc in H.
  apply bind_ok_inv in H as (r1 & h1 & E1 & H).
  apply get_error_metrics_weighted_inv in E1 as (-> & wv & Hw & N1).
  apply bind_ok_inv in H as (cv & h2 & Ecv & H).
  apply bind_ok_inv in Ecv as ([] & h3 & Em & Ecv).
  rewrite (@mask_in_place_run F _ _ _ _ _ Hw) in Em. injection Em as <-.
  assert (Hw3 : nth_error (set_nth h (sysw s) (map mask wv)) (sysw s)
                = Some (map mask wv)).
  { apply nth_error_set_nth_same. eapply nth_error_lt; exact Hw. }
  apply bind_ok_inv in Ecv as (r2 & h4 & E2 & Ecv).
  apply get_error_metrics_weighted_inv in E2 as (-> & wv2 & Hw2 & N2).
  rewrite Hw3 in Hw2. injection Hw2 as <-.
  apply bind_ok_inv in Ecv as (wv' & h5 & El & Ecv).
  unfold load in El. rewrite Hw3 in El. injection El as <- <-.
  apply bind_ok_inv in Ecv as (w' & h6 & Ea & Ecv).
  unfold alloc in Ea. injection Ea as <- <-.
  apply bind_ok_inv in Ecv as (r3 & h7 & E3 & Ecv).
  apply get_error_metrics_weighted_inv in E3 as (-> & wv3 & Hw3' & N3).
  rewrite nth_error_app2, Nat.sub_diag in Hw3' by lia.
  injection Hw3' as <-.
  unfold ret in Ecv. injection Ecv as <- <-.
  apply bind_ok_inv in H as (r4 & h8 & E4 & H).
  apply get_error_metrics_inv in E4 as ->.
  unfold ret in H. injection H as <- <-.
  exists wv, r1, r2, r3, r4. repeat split; assumption.
Qed.

End CrossValidation.

Lemma float_count_mask (wv : list float) :
  count_nonzero (map mask wv) = count_positive wv.
Proof.
  unfold count_nonzero, count_positive.
  induction wv as [|v wv IH]; [reflexivity|].
  cbn [map filter]. unfold mask at 1.
  destruct (ltb zero v); cbn [List.length]; rewrite <- IH; reflexivity.
Qed.

Lemma float_count_unmasked (wv : list float) :
  (count_nonzero (map (fun v => absv (sub one v)) (map mask wv))
   + count_positive wv = List.length wv)%nat.
Proof.
  unfold count_nonzero, count_positive.
  induction wv as [|v wv IH]; [reflexivity|].
  cbn [map filter]. unfold mask at 1.
  destruct (ltb zero v); cbn [List.length]; rewrite <- IH.
  - change (negb (eqb (absv (sub one one)) zero)) with false.
    cbv iota. lia.
  - change (negb (eqb (absv (sub one (@zero float _))) zero)) with true.
    cbv iota. cbn [List.length]. lia.
Qed.

(** X12: with [compute_testerrs] the rows of one subsystem are Weighted,
    CVTrain_Unweight, CVTest_Unweight and Unweighted, in this order.  The
    training row counts the weights above 0 and the test row all others,
    so the two counts add up to the number of rows; the weight array of
    the subsystem is left masked to 0 and 1. *)
Theorem subsystem_records_cv_counts {RF : Reduction float}
  (x : list (list float))
  (opts : options float) (gname gtype : string) (s : subsystem float)
  (h : heap float) :
  compute_testerrs opts = true ->
  match subsystem_records x opts gname gtype s h with
  | Ok (rows, h') =>
      exists wv r1 r2 r3 r4,
        nth_error h (sysw s) = Some wv
        /\ rows = [labelled gname "Weighted" gtype r1;
                   labelled gname "CVTrain_Unweight" gtype r2;
                   labelled gname "CVTest_Unweight" gtype r3;
                   labelled gname "Unweighted" gtype r4]
        /\ ncount r2 = count_positive wv
        /\ (ncount r2 + ncount r3 = List.length wv)%nat
        /\ nth_error h' (sysw s) = Some (map mask wv)
  | Err _ => True
  end.
Proof.
  intros Hc.
  destruct (subsystem_records x opts gname gtype s h) as [[rows h']|] eqn:E;
    [|exact I].
  destruct (subsystem_records_cv_inv _ _ _ _ _ _ Hc E)
    as (wv & r1 & r2 & r3 & r4 & Hw & Hrows & _ & N2 & N3 & ->).
  exists wv, r1, r2, r3, r4.
  split; [exact Hw|]. split; [exact Hrows|].
  split; [rewrite N2; apply float_count_mask|].
  split.
  - rewrite N2, N3, float_count_mask.
    pose proof (float_count_unmasked wv). lia.
  - assert (Hlt := nth_error_lt _ _ Hw).
    rewrite nth_error_app1 by (rewrite set_nth_length; exact Hlt).
    apply nth_error_set_nth_same. exact Hlt.
Qed.

Section Table.
Context {F : Type} {NF : Num F} {OF : NumOrd F} {RF : Reduction F}.

Lemma mapM_Forall {A B} (P : B -> Prop) (f : A -> M F B) (l : list A) :
  (forall a h b h', f a h = Ok (b, h') -> P b) ->
  forall h ys h', mapM f l h = Ok (ys, h') -> Forall P ys.
Proof.
  intros Hf. induction l as [|a l IH]; intros h ys h' E; cbn [mapM] in E.
  - injection E as <- <-. constructor.
  - apply bind_ok_inv in E as (b & h1 & E1 & E).
    apply bind_ok_inv in E as (bs & h2 & E2 & E).
    injection E as <- <-. constructor; [eapply Hf; exact E1|].
    eapply IH; exact E2.
Qed.

Lemma insert_row_length (r : table_row F) l :
  List.length (insert_row r l) = S (List.length l).
Proof.
  induction l as [|s l IH]; [reflexivity|]. cbn [insert_row].
  destruct (row_leb r s); cbn [List.length]; [|rewrite IH]; reflexivity.
Qed.

Lemma sort_index_length (rows out : list (table_row F)) :
  sort_index rows = Ok out ->
  rows <> [] /\ List.length out = List.length rows.
Proof.
  unfold sort_index. destruct rows as [|r rows]; [discriminate|].
  intros [= <-]. split; [discriminate|].
  assert (G : forall l : list (table_row F),
             List.length (fold_right insert_row [] l) = List.length l).
  { induction l as [|a l IH]; [reflexivity|].
    cbn [fold_right]. rewrite insert_row_length, IH. reflexivity. }
  exact (G (r :: rows)).
Qed.

Lemma subsystem_records_length (x : list (list F)) (opts : options F)
  (gname gtype : string) (s : subsystem F) (h h' : heap F)
  (rows : list (table_row F)) :
  subsystem_records x opts gname gtype s h = Ok (rows, h') ->
  List.length rows = rows_per_subsystem opts.
Proof.
  unfold rows_per_subsystem.
  destruct (compute_testerrs opts) eqn:Hc; intros H.
  - destruct (subsystem_records_cv_inv _ _ _ _ _ _ Hc H)
      as (wv & r1 & r2 & r3 & r4 & _ & -> & _). reflexivity.
  - unfold subsystem_records in H. rewrite Hc in H.
    apply bind_ok_inv in H as (r1 & h1 & _ & H).
    apply bind_ok_inv in H as (cv & h2 & Ecv & H).
    injection Ecv as <- <-.
    apply bind_ok_inv in H as (r4 & h3 & _ & H).
    injection H as <- <-. reflexivity.
Qed.

Lemma group_records_length (x : list (list F)) (opts : options F)
  (subsystems : bool * bool * bool) (e : string * configs F)
  (h h' : heap F) (rows : list (table_row F)) :
  group_records x opts subsystems e h = Ok (rows, h') ->
  List.length rows
  = (List.length (get_subsys_names subsystems) * rows_per_subsystem opts)%nat.
Proof.
  unfold group_records. destruct e as [gname cf'].
  intros H. apply bind_ok_inv in H as (r & h1 & Em & H).
  apply make_Abw_returns_systems in Em as (l & -> & Hl).
  apply bind_ok_inv in H as (recs & h2 & Er & H).
  injection H as <- <-.
  rewrite (@length_concat_const _ recs (rows_per_subsystem opts)).
  - apply mapM_length in Er. rewrite Er, length_combine, Hl, Nat.min_id.
    reflexivity.
  - eapply mapM_Forall; [|exact Er].
    intros ns h3 b h4 E. eapply subsystem_records_length; exact E.
Qed.

Lemma dict_set_length {A} (d : list (string * A)) k v :
  List.length (dict_set d k v)
  = if dict_mem k d then List.length d else S (List.length d).
Proof.
  induction d as [|[k' v'] d IH]; [reflexivity|]. cbn [dict_set dict_mem].
  destruct (String.eqb k k'); cbn [orb List.length]; [reflexivity|].
  rewrite IH. destruct (dict_mem k d); reflexivity.
Qed.

Lemma dict_mem_keys {A} k (d : list (string * A)) :
  dict_mem k d = existsb (String.eqb k) (map fst d).
Proof.
  induction d as [|[k' v] d IH]; [reflexivity|]. simpl. rewrite IH.
  reflexivity.
Qed.

Lemma existsb_nodup k (l : list string) :
  existsb (String.eqb k) (nodup string_dec l) = existsb (String.eqb k) l.
Proof.
  apply eq_true_iff_eq. rewrite !existsb_exists.
  split; intros (y & Hy & E); exists y; split; try exact E.
  - apply nodup_In in Hy. exact Hy.
  - apply nodup_In. exact Hy.
Qed.

Lemma make_subconfigs_length (cf : configs F) (h h' : heap F) subs :
  make_subconfigs cf h = Ok (subs, h') ->
  List.length subs = n_entries (Group cf).
Proof.
  unfold make_subconfigs, n_entries. intros H.
  apply bind_ok_inv in H as (subs0 & h1 & Es & H).
  assert (Hk := subgroups_keys _ _ _ Es).
  assert (Hl : List.length subs0 = List.length (group_set (Group cf)))
    by (rewrite <- Hk, length_map; reflexivity).
  destruct (Nat.ltb 1 (List.length (group_set (Group cf)))).
  - destruct (dict_mem "*All" subs0); [discriminate|].
    injection H as <- <-. rewrite dict_set_length, dict_mem_keys, Hk.
    unfold group_set at 1. rewrite existsb_nodup, Hl. reflexivity.
  - injection H as <- <-. exact Hl.
Qed.

Lemma group_errors_rows (x : list (list F)) (cf : configs F)
  (opts : options F) (subsystems : bool * bool * bool) (h h' : heap F)
  (rows : list (table_row F)) :
  group_errors x cf opts subsystems h = Ok (rows, h') ->
  rows <> []
  /\ List.length rows
     = (n_entries (Group cf) * (List.length (get_subsys_names subsystems)
                               * rows_per_subsystem opts))%nat.
Proof.
  unfold group_errors. intros H.
  apply bind_ok_inv in H as (subs & h1 & Es & H).
  apply bind_ok_inv in H as (all & h2 & Ea & H).
  unfold lift in H.
  destruct (sort_index (concat all)) as [out|] eqn:Eo; [|discriminate].
  injection H as <- <-.
  apply sort_index_length in Eo as (Hne & Hlen).
  split; [intros ->; apply Hne; destruct (concat all); [reflexivity|
                                                        discriminate Hlen]|].
  rewrite Hlen.
  rewrite (@length_concat_const _ all
             (List.length (get_subsys_names subsystems)
              * rows_per_subsystem opts)).
  - apply mapM_length in Ea. rewrite Ea.
    rewrite (make_subconfigs_length _ _ Es). reflexivity.
  - eapply mapM_Forall; [|exact Ea].
    intros e h3 b h4 E. eapply group_records_length; exact E.
Qed.

(** X13: the table of [group_errors] has, for every entry of the
    dictionary of sub-datasets (one per group, and "*ALL" when there are
    several groups) and every name of [get_subsys_names], two rows, and
    four with [compute_testerrs]. *)
Theorem group_errors_row_count (x : list (list F)) (cf : configs F)
  (opts : options F) (subsystems : bool * bool * bool) (h : heap F) :
  match group_errors x cf opts subsystems h with
  | Ok (rows, _) =>
      List.length rows
      = (n_entries (Group cf) * (List.length (get_subsys_names subsystems)
                                * rows_per_subsystem opts))%nat
  | Err _ => True
  end.
Proof.
  destruct (group_errors x cf opts subsystems h) as [[rows h']|] eqn:E;
    [|exact I].
  apply group_errors_rows in E. apply E.
Qed.

(** X14: [group_errors] raises for a dataset without configurations and
    when no subsystem is selected: it never returns a table without
    rows. *)
Theorem group_errors_needs_rows (x : list (list F)) (cf : configs F)
  (opts : options F) (subsystems : bool * bool * bool) (h : heap F) :
  Group cf = [] \/ subsystems = (false, false, false) ->
  exists e, group_errors x cf opts subsystems h = Err e.
Proof.
  intros Hc.
  destruct (group_errors x cf opts subsystems h) as [[rows h']|e] eqn:E;
    [|exists e; reflexivity].
  exfalso. apply group_errors_rows in E as (Hne & Hlen).
  destruct rows as [|r rows]; [apply Hne; reflexivity|].
  destruct Hc as [Hg | ->].
  - rewrite Hg in Hlen. discriminate Hlen.
  - cbn in Hlen. rewrite Nat.mul_0_r in Hlen. discriminate Hlen.
Qed.

Lemma grows_get_error_metrics x A b w incl :
  grows (@get_error_metrics F _ _ _ x A b w incl).
Proof.
  intros h r h' E. apply get_error_metrics_inv in E as ->.
  exists []. symmetry. apply app_nil_r.
Qed.

Lemma grows_get_subgroup (cf : configs F) g : grows (get_subgroup cf g).
Proof.
  unfold get_subgroup, get_ind_loc.
  repeat first
    [ apply grows_ret | apply grows_lift | apply grows_load
    | apply grows_alloc | apply grows_bind | intro ].
Qed.

(** X15: without [compute_testerrs], [group_errors] writes to no array
    that is in the store: it only adds arrays. *)
Theorem group_errors_without_testerrs_grows (x : list (list F))
  (cf : configs F) (opts : options F) (subsystems : bool * bool * bool)
  (h : heap F) :
  compute_testerrs opts = false ->
  match group_errors x cf opts subsystems h with
  | Ok (_, h') => exists extra, h' = h ++ extra
  | Err _ => True
  end.
Proof.
  intros Hc.
  destruct (group_errors x cf opts subsystems h) as [[rows h']|] eqn:E;
    [|exact I].
  revert h rows h' E. change (grows (group_errors x cf opts subsystems)).
  unfold group_errors.
  apply grows_bind.
  { unfold make_subconfigs. apply grows_bind.
    - apply grows_mapM. intros g. apply grows_bind;
        [apply grows_get_subgroup | intros; apply grows_ret].
    - intros subs. destruct (Nat.ltb _ _); [|apply grows_ret].
      destruct (dict_mem _ _); [apply grows_raise | apply grows_ret]. }
  intros subs. apply grows_bind; [|intros; apply grows_lift].
  apply grows_mapM. intros [gname cf']. unfold group_records.
  apply grows_bind; [apply grows_make_Abw|].
  intros [l|s]; [|apply grows_raise].
  apply grows_bind; [|intros; apply grows_ret].
  apply grows_mapM. intros ns. unfold subsystem_records. rewrite Hc.
  repeat first
    [ apply grows_ret | apply grows_get_error_metrics | apply grows_bind
    | intro ].
Qed.

End Table.

(** ** The sub-dataset of a group *)

Section Subgroup.
Context {F : Type} {NF : Num F} {OF : NumOrd F} {RF : Reduction F}.

Lemma pick_cons {A} a gs g (b : A) v :
  pick (a :: gs) g (b :: v)
  = if String.eqb a g then b :: pick gs g v else pick gs g v.
Proof. unfold pick. simpl. destruct (String.eqb a g); reflexivity. Qed.

Lemma pick_indices_from {A} (gs : list string) (g : string) :
  forall (pre v : list A),
    (List.length gs <= List.length v)%nat ->
    rmapM (getitem (pre ++ v))
          (map fst (filter (fun p => String.eqb (snd p) g)
                           (combine (seq (List.length pre) (List.length gs))
                                    gs)))
    = Ok (pick gs g v).
Proof.
  induction gs as [|a gs IH]; intros pre v Hl; [reflexivity|].
  destruct v as [|b v]; [simpl in Hl; lia|].
  cbn [List.length seq combine filter snd]. rewrite pick_cons.
  specialize (IH (pre ++ [b]) v).
  rewrite length_app, Nat.add_1_r, <- app_assoc in IH. cbn [app] in IH.
  destruct (String.eqb a g).
  - cbn [map fst rmapM]. unfold getitem at 1.
    rewrite nth_error_app2, Nat.sub_diag by lia. cbn [nth_error rbind].
    rewrite IH by (simpl in Hl; lia). reflexivity.
  - apply IH. simpl in Hl. lia.
Qed.

(** Fancy indexing by the indices of a group is the restriction to the
    group. *)
Lemma pick_indices {A} (gs : list string) (g : string) (v : list A) :
  (List.length gs <= List.length v)%nat ->
  rmapM (getitem v) (group_indices gs g) = Ok (pick gs g v).
Proof. intros Hl. exact (@pick_indices_from A gs g [] v Hl). Qed.

Lemma pick_length {A} (gs : list string) (g : string) (v : list A) :
  (List.length gs <= List.length v)%nat ->
  List.length (pick gs g v) = count_occ string_dec gs g.
Proof.
  revert v. induction gs as [|a gs IH]; intros v Hl; [reflexivity|].
  destruct v as [|b v]; [simpl in Hl; lia|].
  rewrite pick_cons. cbn [count_occ].
  destruct (String.eqb_spec a g) as [->|Hn].
  - destruct (string_dec g g); [|congruence]. cbn [List.length].
    rewrite IH by (simpl in Hl; lia). reflexivity.
  - destruct (string_dec a g); [congruence|]. apply IH. simpl in Hl. lia.
Qed.

Lemma pick_labels (gs : list string) (g : string) :
  pick gs g gs = repeat g (count_occ string_dec gs g).
Proof.
  induction gs as [|a gs IH]; [reflexivity|].
  rewrite pick_cons. cbn [count_occ].
  destruct (String.eqb_spec a g) as [->|Hn].
  - destruct (string_dec g g); [|congruence]. cbn [repeat]. rewrite IH.
    reflexivity.
  - destruct (string_dec a g); [congruence | exact IH].
Qed.

Lemma pick_Forall {A} (P : A -> Prop) gs g v :
  Forall P v -> Forall P (pick gs g v).
Proof.
  intros H. revert gs. induction H as [|b v Hb _ IH]; intros gs.
  - destruct gs; constructor.
  - destruct gs as [|a gs]; [constructor|]. rewrite pick_cons.
    destruct (String.eqb a g); [constructor; [exact Hb|]|]; apply IH.
Qed.

Lemma pick_Forall2 {A B} (P : A -> B -> Prop) gs g u v :
  Forall2 P u v -> Forall2 P (pick gs g u) (pick gs g v).
Proof.
  intros H. revert gs. induction H as [|a b u v Hab _ IH]; intros gs.
  - destruct gs; constructor.
  - destruct gs as [|c gs]; [constructor|]. rewrite !pick_cons.
    destruct (String.eqb c g); [constructor; [exact Hab|]|]; apply IH.
Qed.

Lemma get_ind_pick {A} (nd : bool) (gs : list string) (g : string)
  (v : list A) :
  In g gs -> (List.length gs <= List.length v)%nat ->
  get_ind nd v (group_indices gs g) = Ok (pick gs g v).
Proof.
  intros Hin Hl. unfold get_ind.
  assert (Hp := @pick_indices A gs g v Hl).
  assert (Hn : List.length (group_indices gs g) <> 0%nat).
  { apply rmapM_length in Hp. rewrite <- Hp, (@pick_length A gs g v Hl).
    apply (count_occ_In string_dec) in Hin. lia. }
  apply Nat.eqb_neq in Hn. rewrite Hn, andb_false_r. exact Hp.
Qed.

Lemma get_ind_loc_pick (gs : list string) (g : string) (l : loc)
  (v : list F) (h : heap F) :
  In g gs -> (List.length gs <= List.length v)%nat ->
  nth_error h l = Some v ->
  get_ind_loc l (group_indices gs g) h
  = Ok (List.length h, h ++ [pick gs g v]).
Proof.
  intros Hin Hl Hv. unfold get_ind_loc, bind, load, lift, alloc.
  rewrite Hv, (@get_ind_pick F true gs g v Hin Hl). reflexivity.
Qed.

Lemma nth_error_app_Some {A} (l e : list A) i x :
  nth_error l i = Some x -> nth_error (l ++ e) i = Some x.
Proof.
  intros H. rewrite nth_error_app1; [exact H|].
  apply nth_error_Some. congruence.
Qed.

Lemma Forall2_length_le {A B} (P : A -> B -> Prop) u v (n : nat) :
  Forall2 P u v -> n = List.length u -> (n <= List.length v)%nat.
Proof. intros H ->. apply Forall2_length in H. lia. Qed.

Lemma get_subgroup_run (n_types : nat) (cf : configs F) (g : string)
  (h : heap F) (ew fw vw : list F) :
  wf_dataset n_types cf h -> In g (Group cf) ->
  nth_error h (eweight cf) = Some ew ->
  nth_error h (fweight cf) = Some fw ->
  nth_error h (vweight cf) = Some vw ->
  get_subgroup cf g h
  = Ok (subgroup_of cf g (List.length h),
        h ++ [pick (Group cf) g ew; pick (Group cf) g fw;
              pick (Group cf) g vw]).
Proof.
  intros W Hin He Hf Hv. destruct W.
  destruct wf_eweight0 as (ew' & He' & Lew).
  destruct wf_fweight0 as (fw' & Hf' & Lfw).
  destruct wf_vweight0 as (vw' & Hv' & Lvw).
  rewrite He in He'; injection He' as <-.
  rewrite Hf in Hf'; injection Hf' as <-.
  rewrite Hv in Hv'; injection Hv' as <-.
  unfold get_subgroup.
  repeat (unfold bind at 1, lift at 1;
          rewrite (fun A nd v => @get_ind_pick A nd (Group cf) g v Hin)
            by first [ lia
                     | eapply Forall2_length_le; [eassumption | lia] ]).
  unfold bind at 1.
  rewrite (@get_ind_loc_pick (Group cf) g (eweight cf) ew h Hin)
    by (lia || assumption).
  unfold bind at 1.
  rewrite (@get_ind_loc_pick (Group cf) g (fweight cf) fw _ Hin);
    [|lia | apply nth_error_app_Some; exact Hf].
  unfold bind at 1.
  rewrite (@get_ind_loc_pick (Group cf) g (vweight cf) vw _ Hin);
    [|lia | apply nth_error_app_Some, nth_error_app_Some; exact Hv].
  unfold ret, subgroup_of. rewrite !length_app. cbn [List.length].
  rewrite !Nat.add_1_r, <- !app_assoc. reflexivity.
Qed.

(** X16: for a group that occurs in a dataset of the data model,
    [get_subgroup] returns the configurations whose label is the group,
    in the order of the dataset, in every field; its three weight arrays
    are new arrays, and the arrays of the dataset stay as they are. *)
Theorem get_subgroup_selects (n_types : nat) (cf : configs F) (g : string)
  (h : heap F) :
  wf_dataset n_types cf h -> In g (Group cf) ->
  exists ew fw vw,
    nth_error h (eweight cf) = Some ew
    /\ nth_error h (fweight cf) = Some fw
    /\ nth_error h (vweight cf) = Some vw
    /\ get_subgroup cf g h
       = Ok (subgroup_of cf g (List.length h),
             h ++ [pick (Group cf) g ew; pick (Group cf) g fw;
                   pick (Group cf) g vw])
    /\ Group (subgroup_of cf g (List.length h))
       = repeat g (count_occ string_dec (Group cf) g).
Proof.
  intros W Hin.
  destruct (wf_eweight W) as (ew & He & _).
  destruct (wf_fweight W) as (fw & Hf & _).
  destruct (wf_vweight W) as (vw & Hv & _).
  exists ew, fw, vw. repeat (split; [assumption|]).
  split; [exact (get_subgroup_run g W Hin He Hf Hv)|].
  apply pick_labels.
Qed.

(** X17: the sub-dataset that [get_subgroup] returns for a group of a
    dataset of the data model is again a dataset of the data model, in
    the store that the call leaves. *)
Theorem get_subgroup_well_formed (n_types : nat) (cf : configs F)
  (g : string) (h : heap F) :
  wf_dataset n_types cf h -> In g (Group cf) ->
  exists sub h',
    get_subgroup cf g h = Ok (sub, h') /\ wf_dataset n_types sub h'.
Proof.
  intros W Hin.
  destruct (wf_eweight W) as (ew & He & Lew).
  destruct (wf_fweight W) as (fw & Hf & Lfw).
  destruct (wf_vweight W) as (vw & Hv & Lvw).
  eexists _, _. split; [exact (get_subgroup_run g W Hin He Hf Hv)|].
  assert (Hc : (0 < count_occ string_dec (Group cf) g)%nat)
    by (apply (count_occ_In string_dec); exact Hin).
  destruct W. destruct wf_Stress0, wf_ref_Stress0, wf_b_sum0, wf_vb_sum0.
  assert (Hlen : forall A (v : list A),
             List.length v = List.length (NumAtoms cf) ->
             List.length (pick (Group cf) g v)
             = List.length (pick (Group cf) g (NumAtoms cf))).
  { intros A v Lv. rewrite !pick_length by lia. reflexivity. }
  constructor; cbn [subgroup_of Group NumAtoms AtomTypes Energy ref_Energy
                    Volume Stress ref_Stress Forces ref_Forces b_sum
                    db_atom vb_sum eweight fweight vweight].
  - intros E. apply (f_equal (@List.length Z)) in E.
    rewrite pick_length in E by lia. simpl in E. lia.
  - apply pick_Forall. assumption.
  - apply Hlen. assumption.
  - apply pick_Forall2. assumption.
  - apply Hlen. assumption.
  - apply Hlen. assumption.
  - apply Hlen. assumption.
  - split; [apply Hlen | apply pick_Forall]; assumption.
  - split; [apply Hlen | apply pick_Forall]; assumption.
  - apply pick_Forall2. assumption.
  - apply pick_Forall2. assumption.
  - split; [apply Hlen | apply pick_Forall]; assumption.
  - apply pick_Forall2. assumption.
  - split; [apply Hlen | apply pick_Forall]; assumption.
  - eexists. split; [|apply Hlen; exact Lew].
    rewrite nth_error_app2, Nat.sub_diag by lia. reflexivity.
  - eexists. split; [|apply Hlen; exact Lfw].
    rewrite nth_error_app2 by lia.
    replace (S (List.length h) - List.length h)%nat with 1%nat by lia.
    reflexivity.
  - eexists. split; [|apply Hlen; exact Lvw].
    rewrite nth_error_app2 by lia.
    replace (S (S (List.length h)) - List.length h)%nat with 2%nat by lia.
    reflexivity.
Qed.

End Subgroup.

(** *** The groups partition the dataset *)

Lemma concat_map_app {A B} (f k : A -> list B) (keys : list A) :
  Permutation (concat (map (fun g => f g ++ k g) keys))
              (concat (map f keys) ++ concat (map k keys)).
Proof.
  induction keys as [|a keys IH]; [constructor|]. cbn [map concat].
  rewrite IH, <- !app_assoc. apply Permutation_app_head.
  rewrite !app_assoc. apply Permutation_app_tail, Permutation_app_comm.
Qed.

Lemma concat_indicator {B} (keys : list string) (a : string) (x : B) :
  NoDup keys -> In a keys ->
  concat (map (fun g => if String.eqb a g then [x] else []) keys) = [x].
Proof.
  induction 1 as [|k keys Hk Hnd IH]; intros Hin; [destruct Hin|].
  cbn [map concat]. destruct (String.eqb_spec a k) as [->|Hn].
  - cbn [app]. f_equal.
    clear IH Hin Hnd. induction keys as [|c keys IH]; [reflexivity|].
    cbn [map concat]. destruct (String.eqb_spec k c) as [->|Hc].
    + exfalso. apply Hk. left. reflexivity.
    + apply IH. intros H. apply Hk. right. exact H.
  - destruct Hin as [E|Hin]; [congruence|]. exact (IH Hin).
Qed.

Lemma groups_partition {B} (keys : list string) (l : list (B * string)) :
  NoDup keys -> (forall p, In p l -> In (snd p) keys) ->
  Permutation
    (concat (map (fun g => map fst (filter (fun p => String.eqb (snd p) g) l))
                 keys))
    (map fst l).
Proof.
  intros Hnd. induction l as [|[x a] l IH]; intros Hin.
  - cbn [filter map]. apply Permutation_refl'. clear Hnd Hin.
    induction keys as [|k keys IH]; [reflexivity | exact IH].
  - cbn [filter snd fst map].
    transitivity
      (concat (map (fun g => (if String.eqb a g then [x] else []) ++
                             map fst (filter (fun p => String.eqb (snd p) g) l))
                   keys)).
    { apply Permutation_refl'. f_equal. apply map_ext. intros g.
      destruct (String.eqb a g); reflexivity. }
    rewrite concat_map_app, concat_indicator;
      [|exact Hnd | apply (Hin (x, a)); left; reflexivity].
    cbn [app]. constructor. apply IH. intros p Hp. apply Hin. right.
    exact Hp.
Qed.

(** X18: the index lists of the groups of a dataset partition the
    configurations: put together they are a permutation of
    [0 .. len(Group) - 1], so every configuration is in the sub-dataset
    of exactly one group. *)
Theorem group_indices_partition (groups : list string) :
  Permutation (concat (map (group_indices groups) (group_set groups)))
              (seq 0 (List.length groups)).
Proof.
  unfold group_indices, group_set.
  rewrite (@groups_partition nat (nodup string_dec groups)
             (combine (seq 0 (List.length groups)) groups)).
  - apply Permutation_refl'.
    generalize 0%nat. induction groups as [|g gs IH]; intros k;
      [reflexivity|]. cbn [List.length seq combine map fst]. f_equal.
    apply IH.
  - apply NoDup_nodup.
  - intros [i g] Hp. apply in_combine_r in Hp. apply nodup_In. exact Hp.
Qed.

(** ** Reshaping, residuals and the weighted solve *)

Section Reshape.
Context {F : Type} {NF : Num F} {OF : NumOrd F} {RF : Reduction F}.

Lemma chunks_concat (k : nat) (s : list (list F)) :
  Forall (fun r => List.length r = k) s ->
  chunks k (List.length s) (concat s) = s.
Proof.
  induction 1 as [|r s Hr _ IH]; [reflexivity|].
  cbn [List.length chunks concat].
  rewrite firstn_app, skipn_app, Hr, Nat.sub_diag.
  rewrite <- Hr at 1 3. rewrite firstn_all, skipn_all. cbn [firstn skipn].
  rewrite app_nil_r. cbn [app]. rewrite IH. reflexivity.
Qed.

Lemma chunks_shape (k n : nat) :
  forall v : list F,
    List.length v = (n * k)%nat ->
    List.length (chunks k n v) = n
    /\ Forall (fun r => List.length r = k) (chunks k n v)
    /\ concat (chunks k n v) = v.
Proof.
  induction n as [|n IH]; intros v Hv.
  - destruct v; [|discriminate Hv]. repeat split. constructor.
  - cbn [chunks]. destruct (IH (skipn k v)) as (H1 & H2 & H3).
    { rewrite length_skipn. simpl in Hv. lia. }
    cbn [List.length concat]. rewrite H1, H3. split; [reflexivity|].
    split; [|apply firstn_skipn].
    constructor; [|exact H2]. rewrite length_firstn. simpl in Hv. lia.
Qed.

Lemma reshape_like2_concat (s : list (list F)) :
  rect2 s -> reshape_like2 (concat s) s = Ok s.
Proof.
  intros Hs. unfold reshape_like2, reshape2.
  rewrite (length_concat_const Hs), Nat.eqb_refl.
  rewrite (chunks_concat Hs). reflexivity.
Qed.

Lemma removelast_cons {A} (x : A) (m : list A) :
  m <> [] -> removelast (x :: m) = x :: removelast m.
Proof. destruct m; [congruence | reflexivity]. Qed.

Lemma last_cons {A} (x d : A) (m : list A) :
  m <> [] -> last (x :: m) d = last m d.
Proof. destruct m; [congruence | reflexivity]. Qed.

Lemma cumsum_nonempty (k : nat) (ns : list nat) :
  ns <> [] -> cumsum k ns <> [].
Proof. destruct ns; [congruence | discriminate]. Qed.

Lemma map_nonempty {A B} (f : A -> B) (l : list A) :
  l <> [] -> map f l <> [].
Proof. destruct l; [congruence | discriminate]. Qed.

Lemma array_split_flat (l : list (list (list F))) :
  l <> [] ->
  forall pre rest : list F,
    array_split (pre ++ concat (map (@concat F) l) ++ rest)
                (List.length pre)
                (removelast
                   (cumsum (List.length pre)
                           (map (fun s => List.length (concat s)) l)))
    = removelast (map (@concat F) l)
      ++ [last (map (@concat F) l) [] ++ rest].
Proof.
  induction l as [|s l IH]; [congruence|]. intros _ pre rest.
  assert (Hd : l = [] \/ l <> [])
    by (destruct l; [left; reflexivity | right; discriminate]).
  destruct Hd as [->|Hne].
  - cbn [map concat cumsum removelast array_split last app].
    rewrite app_nil_r, skipn_app, skipn_all, Nat.sub_diag. reflexivity.
  - specialize (IH Hne (pre ++ concat s) rest).
    rewrite length_app, <- !app_assoc in IH.
    cbn [map cumsum concat].
    rewrite !removelast_cons
      by (try apply cumsum_nonempty; apply map_nonempty; exact Hne).
    rewrite last_cons by (apply map_nonempty; exact Hne).
    cbn [array_split app].
    rewrite <- !app_assoc.
    rewrite skipn_app, skipn_all, Nat.sub_diag. cbn [skipn app].
    replace (List.length pre + List.length (concat s) - List.length pre)%nat
      with (List.length (concat s)) by lia.
    rewrite firstn_app, firstn_all, Nat.sub_diag. cbn [firstn].
    rewrite app_nil_r. f_equal. exact IH.
Qed.

Lemma reshape_all (l : list (list (list F))) :
  Forall rect2 l ->
  rmapM (fun rs : list F * list (list F) =>
           reshape_like2 (fst rs) (snd rs))
        (combine (map (@concat F) l) l) = Ok l.
Proof.
  induction 1 as [|s l Hs _ IH]; [reflexivity|].
  cbn [map combine rmapM fst snd]. rewrite (reshape_like2_concat Hs).
  cbn [rbind]. rewrite IH. reflexivity.
Qed.

Lemma removelast_last {A} (l : list A) (d : A) :
  l <> [] -> removelast l ++ [last l d] = l.
Proof. intros H. symmetry. apply app_removelast_last. exact H. Qed.

(** X19: [unflatten] inverts flattening: the elements of an array, or of
    a list of arrays, in row-major order are put back into the shape they
    came from. *)
Theorem unflatten_flatten (s : shaped F) :
  rectangular s -> unflatten (flatten s) s = Ok s.
Proof.
  destruct s as [a|a|l]; cbn [rectangular flatten unflatten].
  - intros _. unfold reshape1. rewrite Nat.eqb_refl. reflexivity.
  - intros Ha. rewrite (reshape_like2_concat Ha). reflexivity.
  - intros Hl. destruct l as [|s0 l]; [reflexivity|].
    pose proof (@array_split_flat (s0 :: l) ltac:(discriminate) [] [])
      as Hs.
    cbn [app List.length] in Hs. rewrite !app_nil_r in Hs.
    rewrite removelast_last in Hs by discriminate.
    rewrite Hs, (reshape_all Hl). reflexivity.
Qed.

End Reshape.

Section ResidualKeys.
Context {F : Type} {NF : Num F} {OF : NumOrd F} {RF : Reduction F}.

Lemma dict_set_fresh {A} (d : list (string * A)) k v :
  ~ In k (map fst d) -> dict_set d k v = d ++ [(k, v)].
Proof.
  induction d as [|[k' v'] d IH]; intros Hn; [reflexivity|].
  cbn [dict_set]. destruct (String.eqb_spec k k') as [->|Hk].
  - exfalso. apply Hn. left. reflexivity.
  - cbn [app]. rewrite IH; [reflexivity|]. intros H. apply Hn. right.
    exact H.
Qed.

Lemma fold_dict_set {A} (outs d : list (string * A)) :
  NoDup (map fst (d ++ outs)) ->
  fold_left (fun d kv => dict_set d (fst kv) (snd kv)) outs d = d ++ outs.
Proof.
  revert d. induction outs as [|[k v] outs IH]; intros d Hnd.
  - symmetry. apply app_nil_r.
  - cbn [fold_left fst snd]. rewrite dict_set_fresh.
    + rewrite IH; rewrite <- app_assoc; [reflexivity | exact Hnd].
    + rewrite map_app in Hnd. cbn [map fst] in Hnd.
      apply NoDup_remove_2 in Hnd. intros H. apply Hnd.
      apply in_or_app. left. exact H.
Qed.

Lemma residual_keys (x : list (list F)) (cf : configs F)
  (l : list (string * subsystem F)) :
  forall h outs h',
    mapM (fun ns : string * subsystem F =>
            let (nm, s) := ns in
            rec <- get_error_metrics x (sysA s) (sysb s)
                                     (Some (sysw s)) true ;;
            res <- lift (match residual rec with
                         | Some res => Ok res
                         | None => Err LibError
                         end) ;;
            like <- lift (ref_field cf nm) ;;
            u <- lift (unflatten res like) ;;
            ret (("residual_" ++ nm)%string, u))%M l h = Ok (outs, h') ->
    map fst outs = map (fun ns => ("residual_" ++ fst ns)%string) l.
Proof.
  induction l as [|[nm s] l IH]; intros h outs h' E; cbn [mapM] in E.
  - injection E as <- <-. reflexivity.
  - apply bind_ok_inv in E as (o & h1 & Eo & E).
    apply bind_ok_inv in E as (os & h2 & Eos & E).
    injection E as <- <-.
    apply bind_ok_inv in Eo as (rec & h3 & _ & Eo).
    apply bind_ok_inv in Eo as (res & h4 & _ & Eo).
    apply bind_ok_inv in Eo as (like & h5 & _ & Eo).
    apply bind_ok_inv in Eo as (u & h6 & _ & Eo).
    injection Eo as <- <-. cbn [map fst]. f_equal. eapply IH; exact Eos.
Qed.

(** X20: the dictionary of [get_residuals] has one entry for every
    selected subsystem, under the keys "residual_Energy",
    "residual_Forces" and "residual_Stress" in this order; the combined
    system gets no entry. *)
Theorem get_residuals_keys (x : list (list F)) (cf : configs F)
  (subsystems : bool * bool * bool) (h : heap F) :
  match get_residuals x cf subsystems h with
  | Ok (d, _) =>
      map fst d
      = map (fun nm => ("residual_" ++ nm)%string)
            (select ["Energy"; "Forces"; "Stress"]%string subsystems)
  | Err _ => True
  end.
Proof.
  destruct (get_residuals x cf subsystems h) as [[d h']|] eqn:E;
    [|exact I].
  unfold get_residuals in E.
  apply bind_ok_inv in E as (r & h1 & Em & E).
  apply make_Abw_returns_systems in Em as (l & -> & Hl).
  destruct subsystems as [[e f] v].
  assert (Hk : exists names subs,
             (if Nat.ltb 1 (List.length l)
              then (tl (get_subsys_names (e, f, v)), tl l)
              else (get_subsys_names (e, f, v), l)) = (names, subs)
             /\ map fst (combine names subs)
                = select ["Energy"; "Forces"; "Stress"]%string (e, f, v)).
  { destruct e, f, v; cbn in Hl;
      repeat (destruct l as [|? l]; try discriminate Hl);
      eexists _, _; (split; [reflexivity|]); reflexivity. }
  destruct Hk as (names & subs & Hif & Hsel).
  cbv beta iota in E. rewrite Hif in E.
  apply bind_ok_inv in E as (outs & h2 & Eo & E).
  injection E as <- <-.
  apply residual_keys in Eo.
  assert (Hkeys : map fst outs
                  = map (fun nm => ("residual_" ++ nm)%string)
                        (select ["Energy"; "Forces"; "Stress"]%string
                                (e, f, v))).
  { rewrite Eo, <- Hsel, map_map. reflexivity. }
  rewrite (@fold_dict_set _ outs []); [exact Hkeys|].
  cbn [app]. rewrite Hkeys.
  destruct e, f, v; cbn; repeat constructor; cbn;
    intuition discriminate.
Qed.

End ResidualKeys.

Section SolveShape.
Context {F : Type} {NF : Num F} {OF : NumOrd F} {RF : Reduction F}.

(** X21: a call of [solve_linear_snap] that returns leaves the store as
    it is and returns [n_types] rows made of the coefficients of the
    solver in their order: [n_coeff] per row with [offset], and without
    it one more, a leading 0 in every row. *)
Theorem solve_linear_snap_shape {Info : Type} (n_types n_coeff : nat)
  (A : list (list (list F))) (b : list F) (w : loc)
  (solver : list (list F) -> list F -> result (list F * Info))
  (offset : bool) (h : heap F) :
  match solve_linear_snap n_types n_coeff A b w solver offset h with
  | Ok (x_typed, info, printed, h') =>
      h' = h
      /\ List.length x_typed = n_types
      /\ exists wv Aw bw x,
           nth_error h w = Some wv
           /\ printed = diagnostic A b wv
           /\ solver Aw bw = Ok (x, info)
           /\ if offset
              then Forall (fun r => List.length r = n_coeff) x_typed
                   /\ concat x_typed = x
              else Forall (fun r => List.length r = S n_coeff
                                    /\ hd_error r = Some zero) x_typed
                   /\ concat (map (@tl F) x_typed) = x
  | Err _ => True
  end.
Proof.
  destruct (solve_linear_snap n_types n_coeff A b w solver offset h)
    as [[[[x_typed info] printed] h']|] eqn:E; [|exact I].
  unfold solve_linear_snap in E.
  apply bind_ok_inv in E as (wv & h1 & Ew & E).
  unfold load in Ew. destruct (nth_error h w) as [wv'|] eqn:Hw;
    [|discriminate]. injection Ew as <- <-.
  apply bind_ok_inv in E as (Aw & h2 & EA & E).
  unfold lift in EA. destruct (bcast2 _ wv' _) as [Aw'|]; [|discriminate].
  injection EA as <- <-.
  apply bind_ok_inv in E as (bw & h3 & Eb & E).
  unfold lift in Eb. destruct (bcast2 mul wv' b) as [bw'|]; [|discriminate].
  injection Eb as <- <-.
  apply bind_ok_inv in E as ([x info'] & h4 & Es & E).
  unfold lift in Es. destruct (solver Aw' bw') as [xs|] eqn:Hs;
    [|discriminate]. injection Es as -> <-.
  apply bind_ok_inv in E as (xt & h5 & Er & E).
  unfold lift, reshape2 in Er.
  destruct (Nat.eqb_spec (List.length x) (n_types * n_coeff)) as [Hx|];
    [|discriminate]. injection Er as <- <-.
  injection E as <- <- <- <-.
  destruct (chunks_shape n_coeff n_types x Hx) as (H1 & H2 & H3).
  split; [reflexivity|]. split.
  { destruct offset; [exact H1|].
    unfold add_offset_zero_fit. rewrite length_map. exact H1. }
  exists wv', Aw', bw', x. repeat (split; [reflexivity || assumption|]).
  destruct offset; [split; assumption|].
  unfold add_offset_zero_fit. split.
  - apply Forall_map. eapply Forall_impl; [|exact H2].
    intros r Hr. cbn. split; [rewrite Hr|]; reflexivity.
  - rewrite map_map. cbn [tl]. rewrite map_id. exact H3.
Qed.

End SolveShape.

Lemma float_inf_or_nan (a : list float) :
  inf_or_nan a = false
  <-> Forall (fun v => PrimFloat.is_finite v = true) a.
Proof.
  unfold inf_or_nan. rewrite orb_false_iff.
  induction a as [|v a IH].
  - split; [constructor | split; reflexivity].
  - cbn [existsb]. rewrite !orb_false_iff, Forall_cons_iff, <- IH.
    unfold PrimFloat.is_finite, PrimFloat.is_nan, PrimFloat.is_infinity.
    change (isinf v) with (PrimFloat.eqb (PrimFloat.abs v) infinity).
    change (isnan v) with (negb (PrimFloat.eqb v v)).
    rewrite negb_true_iff, orb_false_iff. tauto.
Qed.

(** X22: on binary64 [solve_linear_snap] prints that A, b and w look
    clean exactly when every element of the three arrays is finite. *)
Theorem diagnostic_clean_iff_finite (A : list (list (list float)))
  (b w : list float) :
  diagnostic A b w = clean_line
  <-> Forall (fun v => PrimFloat.is_finite v = true) (concat (concat A))
      /\ Forall (fun v => PrimFloat.is_finite v = true) b
      /\ Forall (fun v => PrimFloat.is_finite v = true) w.
Proof.
  rewrite <- !float_inf_or_nan. unfold diagnostic, clean_line.
  destruct (inf_or_nan (concat (concat A)));
    [split; [discriminate | intros (H & _); discriminate H]|].
  destruct (inf_or_nan b);
    [split; [discriminate | intros (_ & H & _); discriminate H]|].
  destruct (inf_or_nan w);
    [split; [discriminate | intros (_ & _ & H); discriminate H]|].
  split; [repeat split | reflexivity].
Qed.

Section SolverNames.
Context {F : Type} {NF : Num F} {RF : Reduction F}.

(** X23: [get_solver_fn] returns for the selectors "SVD", "LASSO",
    "RIDGE", "ELASTIC" and "SGD", in capitals, and raises for every other
    string; the solver that it returns closes over the options that were
    passed. *)
Theorem get_solver_fn_selectors (bispec_options : options F)
  (solver : string) :
  match get_solver_fn bispec_options solver with
  | Ok f =>
      In solver ["SVD"; "LASSO"; "RIDGE"; "ELASTIC"; "SGD"]%string
      /\ fit_options f = bispec_options
  | Err e =>
      ~ In solver ["SVD"; "LASSO"; "RIDGE"; "ELASTIC"; "SGD"]%string
      /\ e = LibError
  end.
Proof.
  unfold get_solver_fn, solver_fndict. cbn [dict_get].
  repeat match goal with
         | |- context [String.eqb solver ?k] =>
             destruct (String.eqb_spec solver k) as [->|?]
         end;
    try (split; [cbn; tauto | reflexivity]).
  split; [|reflexivity]. cbn. intuition congruence.
Qed.

End SolverNames.

(** ** The further properties at the sample data *)

Lemma sample_wf : wf_dataset 2%nat Sample.cfg2 Sample.heap2.
Proof. constructor; try (eexists; split; reflexivity); evaluate. Defined.

Lemma energy_type_offset_keeps_descriptors_witness :
  exists A',
    energy_type_offset [[[1]; [2]]; [[3]; [4]]]%float
                       [[1; 2]; [1; 1; 2]]%Z = Ok A'
    /\ List.length A' = 2%nat
    /\ map (map (@tl float)) A' = [[[1]; [2]]; [[3]; [4]]]%float
    /\ Forall (Forall (fun c => c <> [])) A'.
Proof.
  eexists. split; [vm_compute; reflexivity|].
  apply (@energy_type_offset_keeps_descriptors float _ _
           [[[1]; [2]]; [[3]; [4]]]%float _ [[1; 2]; [1; 1; 2]]%Z);
    [vm_compute; reflexivity | repeat constructor].
Defined.

Lemma makeAbw_db_weights_witness :
  exists s h',
    makeAbw_db Sample.cfg2 true None Sample.heap2 = Ok (s, h')
    /\ nth_error h' (sysw s)
       = Some (force_weights (NumAtoms Sample.cfg2) [1; 2]%float)
    /\ sysw s <> fweight Sample.cfg2
    /\ nth_error h' (fweight Sample.cfg2) = Some [1; 2]%float.
Proof.
  exact (@makeAbw_db_weights float _ 2%nat Sample.cfg2 Sample.heap2 true None
           [1; 2]%float sample_wf eq_refl).
Defined.

Lemma get_error_metrics_refuses_misfit_witness :
  get_error_metrics Sample.x1 [[[0; 1; 2]]]%float [2]%float None false
                    Sample.heap1 = Err LibError.
Proof.
  apply (@get_error_metrics_refuses_misfit float _ _).
  right. constructor. vm_compute. discriminate.
Defined.

Lemma get_error_metrics_zero_weights_witness :
  exists r,
    get_error_metrics Sample.x1 (sysA MoreSample.sys1)
                      (sysb MoreSample.sys1) (Some 0%nat) false
                      MoreSample.heap0 = Ok (r, MoreSample.heap0)
    /\ ncount r = 0%nat
    /\ ssr r = 0%float
    /\ mae r = PrimFloat.nan
    /\ rmae r = PrimFloat.nan
    /\ rmse r = PrimFloat.nan
    /\ rrmse r = PrimFloat.nan
    /\ rsq r = PrimFloat.nan.
Proof.
  apply (@get_error_metrics_zero_weights _ Sample.x1 (sysA MoreSample.sys1)
           (sysb MoreSample.sys1) [1; 3]%float 0%nat [0; 0]%float false
           MoreSample.heap0); evaluate.
Defined.

Lemma subsystem_records_cv_counts_witness :
  exists rows h',
    subsystem_records Sample.x1 Sample.opts1 "a" "Energy" MoreSample.sys1
                      Sample.heap2 = Ok (rows, h')
    /\ exists wv r1 r2 r3 r4,
         nth_error Sample.heap2 0%nat = Some wv
         /\ rows = [labelled "a" "Weighted" "Energy" r1;
                    labelled "a" "CVTrain_Unweight" "Energy" r2;
                    labelled "a" "CVTest_Unweight" "Energy" r3;
                    labelled "a" "Unweighted" "Energy" r4]
         /\ ncount r2 = count_positive wv
         /\ (ncount r2 + ncount r3 = List.length wv)%nat
         /\ nth_error h' 0%nat = Some (map mask wv).
Proof.
  pose proof (@subsystem_records_cv_counts _ Sample.x1 Sample.opts1 "a"
                "Energy" MoreSample.sys1 Sample.heap2 eq_refl) as H.
  destruct (subsystem_records Sample.x1 Sample.opts1 "a" "Energy"
                              MoreSample.sys1 Sample.heap2)
    as [[rows h']|] eqn:E.
  - exists rows, h'. split; [reflexivity | exact H].
  - vm_compute in E. discriminate E.
Defined.

Lemma group_errors_needs_rows_witness :
  exists e,
    group_errors Sample.x1 Sample.cfg1 Sample.opts1 (false, false, false)
                 Sample.heap1 = Err e.
Proof.
  apply (@group_errors_needs_rows float _ _). right. reflexivity.
Defined.

Lemma group_errors_without_testerrs_grows_witness :
  exists rows extra,
    group_errors Sample.x1 Sample.cfg1 MoreSample.opts0
                 (true, false, false) Sample.heap1
    = Ok (rows, Sample.heap1 ++ extra).
Proof.
  pose proof (@group_errors_without_testerrs_grows float _ _ _ Sample.x1
                Sample.cfg1 MoreSample.opts0 (true, false, false)
                Sample.heap1 eq_refl) as H.
  destruct (group_errors Sample.x1 Sample.cfg1 MoreSample.opts0
                         (true, false, false) Sample.heap1)
    as [[rows h']|] eqn:E.
  - destruct H as (extra & ->). exists rows, extra. reflexivity.
  - vm_compute in E. discriminate E.
Defined.

Lemma get_subgroup_selects_witness :
  exists ew fw vw,
    nth_error Sample.heap2 (eweight Sample.cfg2) = Some ew
    /\ nth_error Sample.heap2 (fweight Sample.cfg2) = Some fw
    /\ nth_error Sample.heap2 (vweight Sample.cfg2) = Some vw
    /\ get_subgroup Sample.cfg2 "b" Sample.heap2
       = Ok (subgroup_of Sample.cfg2 "b" 3%nat,
             Sample.heap2 ++ [pick ["a"; "b"]%string "b" ew;
                              pick ["a"; "b"]%string "b" fw;
                              pick ["a"; "b"]%string "b" vw])
    /\ Group (subgroup_of Sample.cfg2 "b" 3%nat) = ["b"]%string.
Proof.
  apply (@get_subgroup_selects float 2%nat Sample.cfg2 "b" Sample.heap2
           sample_wf).
  right. left. reflexivity.
Defined.

Lemma get_subgroup_well_formed_witness :
  exists sub h',
    get_subgroup Sample.cfg2 "b" Sample.heap2 = Ok (sub, h')
    /\ wf_dataset 2%nat sub h'.
Proof.
  apply (@get_subgroup_well_formed float 2%nat Sample.cfg2 "b" Sample.heap2
           sample_wf).
  right. left. reflexivity.
Defined.

Lemma unflatten_flatten_witness :
  unflatten [1; 2; 3; 4; 5; 6; 7; 8; 9]%float MoreSample.ragged1
  = Ok MoreSample.ragged1.
Proof.
  apply (@unflatten_flatten float MoreSample.ragged1).
  repeat constructor.
Defined.

(** The calls that the properties above speak of return at the sample
    data. *)

Lemma sample_make_Abw_returns :
  exists l h',
    make_Abw Sample.cfg2 true true (true, true, true) Sample.heap2
    = Ok (Systems l, h')
    /\ List.length l = 4%nat.
Proof. eexists _, _. split; vm_compute; reflexivity. Qed.

Lemma sample_group_errors_returns :
  exists rows h',
    group_errors Sample.x1 Sample.cfg1 Sample.opts1 (true, false, false)
                 Sample.heap1 = Ok (rows, h')
    /\ List.length rows = 12%nat.
Proof. eexists _, _. split; vm_compute; reflexivity. Qed.

Lemma sample_get_residuals_returns :
  exists d h',
    get_residuals MoreSample.x2 Sample.cfg2 (true, true, true) Sample.heap2
    = Ok (d, h')
    /\ map fst d
       = ["residual_Energy"; "residual_Forces"; "residual_Stress"]%string.
Proof. eexists _, _. split; vm_compute; reflexivity. Qed.

Lemma sample_solve_linear_snap_returns :
  exists info line h',
    solve_linear_snap 1%nat 2%nat (sysA MoreSample.sys1)
                      (sysb MoreSample.sys1) 0%nat
                      MoreSample.echo false [[1; 1]]%float
    = Ok ([[0; 2; 4]]%float, info, line, h').
Proof. eexists _, _, _. vm_compute. reflexivity. Qed.
